(** * Intelligent-Secure-Backup-System: detection, scoring, redaction, backup

    A shallow embedding of [app/utils/dlp.py], [app/utils/crypto_utils.py],
    [app/routes/backup_routes.py] and the scan and export endpoints of
    [app/main.py].

    Conventions.
    - A Python [str] is a [string]; the model is exact on ASCII text
      (characters above 127 are neither digits, word characters nor spaces).
    - A Python [dict] is a [gmap]; [len(d)] is [size d].
    - In [Dlp] a Python [float] is a rational [Q] and float arithmetic is
      exact, which keeps the order and the bounds of the scores but not
      their last digit; [Binary64] has the risk score in IEEE arithmetic.
    - Paths are normalised strings.  [Dlp] and the routes take every test
      of the file system to succeed; [Stat] has the scanner on a disk where
      [stat] can be refused.
    - A Python exception is the [Err] branch of [result]. *)

From Stdlib Require Import Ascii QArith Qround Qpower Qabs Lqa SpecFloat.
From Stdlib Require String.
From stdpp Require Import gmap strings list fin_maps sorting.

Local Open Scope Z_scope.

(** ** Exceptions *)

Inductive exn :=
| ValueError
| OverflowError
| OSError
| ModelError
| InvalidToken
| HTTPException (status : Z) (detail : string).

Inductive result (A : Type) :=
| Ok (a : A)
| Err (e : exn).
Arguments Ok {A} a.
Arguments Err {A} e.

(** ** Characters and strings *)

Module Chr.

Definition code (a : ascii) : N := N_of_ascii a.

Definition between (lo hi : N) (a : ascii) : bool :=
  ((lo <=? code a) && (code a <=? hi))%N.

Definition is_digit : ascii -> bool := between 48 57.
Definition is_upper : ascii -> bool := between 65 90.
Definition is_lower : ascii -> bool := between 97 122.
Definition is_alpha (a : ascii) : bool := is_upper a || is_lower a.
Definition is_alnum (a : ascii) : bool := is_alpha a || is_digit a.

(** [\w] *)
Definition is_word (a : ascii) : bool := is_alnum a || Ascii.eqb a "_".

(** [\s], also what [str.strip] removes *)
Definition is_space (a : ascii) : bool :=
  between 9 13 a || between 28 32 a.

Fixpoint one_of (s : string) (a : ascii) : bool :=
  match s with
  | EmptyString => false
  | String b s' => Ascii.eqb a b || one_of s' a
  end.

Definition lower (a : ascii) : ascii :=
  if is_upper a then ascii_of_N (code a + 32) else a.

Definition digit_val (a : ascii) : Z := Z.of_N (code a) - 48.

End Chr.

Module Str.

Fixpoint to_list (s : string) : list ascii :=
  match s with
  | EmptyString => []
  | String a s' => a :: to_list s'
  end.

Fixpoint length (s : string) : nat :=
  match s with
  | EmptyString => 0%nat
  | String _ s' => S (length s')
  end.

Fixpoint map (f : ascii -> ascii) (s : string) : string :=
  match s with
  | EmptyString => EmptyString
  | String a s' => String (f a) (map f s')
  end.

Fixpoint filter (p : ascii -> bool) (s : string) : string :=
  match s with
  | EmptyString => EmptyString
  | String a s' => if p a then String a (filter p s') else filter p s'
  end.

Fixpoint drop (n : nat) (s : string) : string :=
  match n, s with
  | O, _ => s
  | S n', String _ s' => drop n' s'
  | S _, EmptyString => EmptyString
  end.

Fixpoint take (n : nat) (s : string) : string :=
  match n, s with
  | S n', String a s' => String a (take n' s')
  | _, _ => EmptyString
  end.

(** [s[i:j]] for [0 <= i], [0 <= j] *)
Definition slice (i j : nat) (s : string) : string :=
  take (j - i) (drop i s).

(** [s.lower()] *)
Definition lower : string -> string := map Chr.lower.

Fixpoint starts_with (p s : string) : bool :=
  match p, s with
  | EmptyString, _ => true
  | String a p', String b s' => Ascii.eqb a b && starts_with p' s'
  | String _ _, EmptyString => false
  end.

(** [p in s] *)
Fixpoint contains (p s : string) : bool :=
  starts_with p s ||
  match s with
  | EmptyString => false
  | String _ s' => contains p s'
  end.

(** [s.replace(old, new)]: every non-overlapping occurrence, left to
    right.  [skip] counts the characters of an occurrence still to be
    dropped.  [old] is never empty where the program calls it. *)
Fixpoint replace_from (old new : string) (skip : nat) (s : string) : string :=
  match s with
  | EmptyString => EmptyString
  | String a s' =>
      match skip with
      | S k => replace_from old new k s'
      | O =>
          if starts_with old s
          then new +:+ replace_from old new (length old - 1) s'
          else String a (replace_from old new 0 s')
      end
  end.

Definition replace (old new s : string) : string :=
  replace_from old new 0 s.

Fixpoint lstrip (s : string) : string :=
  match s with
  | String a s' => if Chr.is_space a then lstrip s' else s
  | EmptyString => EmptyString
  end.

Definition rstrip (s : string) : string :=
  String.rev (lstrip (String.rev s)).

(** [s.strip()] *)
Definition strip (s : string) : string := rstrip (lstrip s).

(** [raw[:n]] with a binary bound *)
Fixpoint take_N (n : N) (s : string) : string :=
  match s with
  | EmptyString => EmptyString
  | String a s' =>
      if (n =? 0)%N then EmptyString else String a (take_N (N.pred n) s')
  end.

End Str.

(** ** The fragment of Python's [re] used by the detectors

    A backtracking matcher in continuation-passing style.  Alternatives are
    tried left to right, a greedy repeat tries one more iteration before it
    tries to stop, a lazy repeat the other way round: the order in which
    Python's engine explores, so the first success is Python's match. *)

Module Re.

Inductive regex :=
| Eps
| Cls (p : ascii -> bool)
| WordB
| Cat (r1 r2 : regex)
| Alt (r1 r2 : regex)
| Rep (r : regex) (lo : nat) (hi : option nat) (greedy : bool)
| Grp (n : nat) (r : regex).

(** A position in the subject: its index, the character before it and
    the text from it on, together with the groups captured so far. *)
Record cursor := Cursor {
  pos : nat;
  prev : option ascii;
  rest : string;
  caps : list (nat * (nat * nat))
}.

Definition word_at (o : option ascii) : bool :=
  match o with
  | Some a => Chr.is_word a
  | None => false
  end.

Definition next (s : string) : option ascii :=
  match s with
  | String a _ => Some a
  | EmptyString => None
  end.

(** [\b] *)
Definition at_boundary (c : cursor) : bool :=
  xorb (word_at (prev c)) (word_at (next (rest c))).

Definition set_cap (n : nat) (i j : nat) (c : cursor) : cursor :=
  Cursor (pos c) (prev c) (rest c) ((n, (i, j)) :: caps c).

Definition kont := cursor -> option cursor.

(** The repeat loop.  [fuel] bounds the iterations still allowed: the
    upper bound of [{lo,hi}], or the length of the remaining text for an
    open-ended repeat (each iteration of the open-ended repeats below
    consumes one character). *)
Fixpoint rep_loop (body : kont -> kont) (lo : nat) (greedy : bool)
    (k : kont) (fuel count : nat) (c : cursor) : option cursor :=
  if greedy then
    match
      match fuel with
      | S fuel' => body (rep_loop body lo greedy k fuel' (S count)) c
      | O => None
      end
    with
    | Some c' => Some c'
    | None => if (lo <=? count)%nat then k c else None
    end
  else
    match (if (lo <=? count)%nat then k c else None) with
    | Some c' => Some c'
    | None =>
        match fuel with
        | S fuel' => body (rep_loop body lo greedy k fuel' (S count)) c
        | O => None
        end
    end.

Fixpoint run (r : regex) (k : kont) (c : cursor) : option cursor :=
  match r with
  | Eps => k c
  | Cls p =>
      match rest c with
      | String a s =>
          if p a then k (Cursor (S (pos c)) (Some a) s (caps c)) else None
      | EmptyString => None
      end
  | WordB => if at_boundary c then k c else None
  | Cat r1 r2 => run r1 (run r2 k) c
  | Alt r1 r2 =>
      match run r1 k c with
      | Some c' => Some c'
      | None => run r2 k c
      end
  | Rep r' lo hi greedy =>
      rep_loop (run r') lo greedy k
        (match hi with Some h => h | None => Str.length (rest c) end) 0 c
  | Grp n r' => run r' (fun c' => k (set_cap n (pos c) (pos c') c')) c
  end.

(** One match object: [start()], [end()] and the group spans. *)
Record rmatch := Match {
  m_start : nat;
  m_end : nat;
  m_caps : list (nat * (nat * nat))
}.

Definition match_at (r : regex) (i : nat) (p : option ascii) (s : string)
    : option rmatch :=
  match run r Some (Cursor i p s []) with
  | Some c => Some (Match i (pos c) (caps c))
  | None => None
  end.

(** [finditer]: scan left to right; after a match the scan resumes at its
    end ([skip] counts the characters of the match still to be passed).
    None of the patterns below matches the empty string. *)
Fixpoint finditer_from (r : regex) (i : nat) (p : option ascii)
    (s : string) (skip : nat) : list rmatch :=
  match skip with
  | S skip' =>
      match s with
      | String a s' => finditer_from r (S i) (Some a) s' skip'
      | EmptyString => []
      end
  | O =>
      match match_at r i p s with
      | Some m =>
          m :: match s with
               | String a s' =>
                   finditer_from r (S i) (Some a) s' (m_end m - i - 1)
               | EmptyString => []
               end
      | None =>
          match s with
          | String a s' => finditer_from r (S i) (Some a) s' 0
          | EmptyString => []
          end
      end
  end.

Definition finditer (r : regex) (text : string) : list rmatch :=
  finditer_from r 0 None text 0.

(** [m.group(0)] *)
Definition group0 (text : string) (m : rmatch) : string :=
  Str.slice (m_start m) (m_end m) text.

(** [m.group(n)] for a group that took part in the match *)
Definition group (n : nat) (text : string) (m : rmatch) : string :=
  match list_find (fun e => bool_decide (e.1 = n)) (m_caps m) with
  | Some (_, (_, (i, j))) => Str.slice i j text
  | None => EmptyString
  end.

Definition span (m : rmatch) : nat * nat := (m_start m, m_end m).

(** Pattern syntax *)
Fixpoint seq (rs : list regex) : regex :=
  match rs with
  | [] => Eps
  | [r] => r
  | r :: rs' => Cat r (seq rs')
  end.

Fixpoint alts (rs : list regex) : regex :=
  match rs with
  | [] => Cls (fun _ => false)
  | [r] => r
  | r :: rs' => Alt r (alts rs')
  end.

Definition chr (a : ascii) : regex := Cls (Ascii.eqb a).
Definition lit (s : string) : regex := seq (chr <$> Str.to_list s).
(** a literal under [re.IGNORECASE] *)
Definition chr_i (a : ascii) : regex :=
  Cls (fun b => Ascii.eqb (Chr.lower b) (Chr.lower a)).
Definition lit_i (s : string) : regex :=
  seq (chr_i <$> Str.to_list s).
Definition digit : regex := Cls Chr.is_digit.
Definition times (r : regex) (n : nat) : regex := Rep r n (Some n) true.
Definition range (r : regex) (lo hi : nat) : regex := Rep r lo (Some hi) true.
Definition at_least (r : regex) (lo : nat) : regex := Rep r lo None true.
Definition star (r : regex) : regex := Rep r 0 None true.
Definition lazy_star (r : regex) : regex := Rep r 0 None false.
Definition plus (r : regex) : regex := Rep r 1 None true.
Definition opt (r : regex) : regex := Rep r 0 (Some 1%nat) true.

(** *** Digit runs, for reasoning about [\b\d{lo,hi}\b] *)

(** the length of the longest prefix of digits *)
Fixpoint run_len (s : string) : nat :=
  match s with
  | String a s' => if Chr.is_digit a then S (run_len s') else 0%nat
  | EmptyString => 0%nat
  end.

(** the cursor [n] characters further on *)
Fixpoint eat (n : nat) (c : cursor) : cursor :=
  match n, rest c with
  | S n', String a s => eat n' (Cursor (S (pos c)) (Some a) s (caps c))
  | _, _ => c
  end.

(** what a match of [\b\d{lo,hi}\b] at a position amounts to: the
    position starts a run of [lo] to [hi] digits with no word character
    on either side *)
Definition digit_run_at (lo hi : nat) (i : nat) (p : option ascii)
    (s : string) : option rmatch :=
  let d := run_len s in
  if negb (word_at p) && (lo <=? d)%nat && (d <=? hi)%nat
     && negb (word_at (next (Str.drop d s)))
  then Some (Match i (i + d) [])
  else None.

(** *** What a match can consume *)

(** the characters a pattern can consume *)
Fixpoint charset (r : regex) (a : ascii) : bool :=
  match r with
  | Eps | WordB => false
  | Cls p => p a
  | Cat r1 r2 | Alt r1 r2 => charset r1 a || charset r2 a
  | Rep r' _ _ _ | Grp _ r' => charset r' a
  end.

Fixpoint all_chars (P : ascii -> bool) (w : string) : bool :=
  match w with
  | EmptyString => true
  | String a w' => P a && all_chars P w'
  end.

(** [c1] lies ahead of [c], past a word [w] of characters in [P] *)
Definition reach (P : ascii -> bool) (c c1 : cursor) : Prop :=
  exists w, rest c = w +:+ rest c1 /\ pos c1 = (pos c + Str.length w)%nat
            /\ all_chars P w = true.

(** a matcher that only succeeds through its continuation, after
    consuming characters in [P] *)
Definition sound (P : ascii -> bool) (body : kont -> kont) : Prop :=
  forall k c res, body k c = Some res ->
    exists c1, reach P c c1 /\ k c1 = Some res.

(** the continuation of a final [\b] *)
Definition kB : kont := run WordB Some.


(** the character a scan has behind it once it has passed [s] *)
Fixpoint last_after (p : option ascii) (s : string) : option ascii :=
  match s with
  | EmptyString => p
  | String a s' => last_after (Some a) s'
  end.

(** the character before index [j] of [text] *)
Definition before (text : string) (j : nat) : option ascii :=
  match j with
  | O => None
  | S j' => next (Str.drop j' text)
  end.

End Re.

(** ** [app/utils/dlp.py] *)

#[global] Instance result_ret : MRet result := fun _ a => Ok a.
#[global] Instance result_bind : MBind result := fun _ _ f m =>
  match m with
  | Ok a => f a
  | Err e => Err e
  end.

Module Dlp.
Import Re.

(** *** Regex patterns for sensitive info *)

(** [\b\d{12}\b] *)
Definition AADHAAR_RE : regex := seq [WordB; times digit 12; WordB].

(** [\b[A-Z]{5}[0-9]{4}[A-Z]\b] *)
Definition PAN_RE : regex :=
  seq [WordB; times (Cls Chr.is_upper) 5; times digit 4; Cls Chr.is_upper;
       WordB].

(** [(?:\d[ -]*?)] *)
Definition cc_group : regex := Cat digit (lazy_star (Cls (Chr.one_of " -"))).

(** [\b(?:\d[ -]*?){13,19}\b] *)
Definition CC_RE : regex := seq [WordB; range cc_group 13 19; WordB].

(** [[A-Za-z0-9._%+-]+@[A-Za-z0-9.-]+\.[A-Za-z]{2,}] *)
Definition EMAIL_RE : regex :=
  seq [plus (Cls (fun a => Chr.is_alnum a || Chr.one_of "._%+-" a));
       chr "@";
       plus (Cls (fun a => Chr.is_alnum a || Chr.one_of ".-" a));
       chr ".";
       at_least (Cls Chr.is_alpha) 2].

(** [(?:\+91[\-\s]?|0)?[6-9]\d{9}\b] *)
Definition PHONE_RE : regex :=
  seq [opt (Alt (Cat (lit "+91")
                     (opt (Cls (fun a => Ascii.eqb a "-" || Chr.is_space a))))
                (chr "0"));
       Cls (Chr.between 54 57);
       times digit 9;
       WordB].

(** [\b[A-Z][0-9]{7}\b] *)
Definition PASSPORT_RE : regex :=
  seq [WordB; Cls Chr.is_upper; times digit 7; WordB].

(** [(password|passwd|pwd|passcode|pass:)\s*[:#\-]?\s*([^\s,;]{4,40})]
    with [re.IGNORECASE] *)
Definition PASSWORD_RE : regex :=
  seq [Grp 1 (alts [lit_i "password"; lit_i "passwd"; lit_i "pwd";
                    lit_i "passcode"; lit_i "pass:"]);
       star (Cls Chr.is_space);
       opt (Cls (Chr.one_of ":#-"));
       star (Cls Chr.is_space);
       Grp 2 (range (Cls (fun a => negb (Chr.is_space a || Chr.one_of ",;" a)))
                    4 40)].

(** [\b\d{9,18}\b] *)
Definition BANK_AC_RE : regex := seq [WordB; range digit 9 18; WordB].

(** [\b[A-Z]{4}0[A-Z0-9]{6}\b] *)
Definition IFSC_RE : regex :=
  seq [WordB; times (Cls Chr.is_upper) 4; chr "0";
       times (Cls (fun a => Chr.is_upper a || Chr.is_digit a)) 6; WordB].

(** [\b\d{3,4}\b] *)
Definition CVV_RE : regex := seq [WordB; range digit 3 4; WordB].

Definition SENSITIVE_KEYWORDS : list string :=
  ["aadhaar"; "pan"; "credit card"; "card number"; "cvv"; "upi";
   "password"; "pwd"; "passport"; "passport no"; "bank account";
   "account number"; "ifsc"; "salary"; "payroll"; "ssn"; "social security";
   "secret"; "confidential"].

(** *** Helper functions *)

(** [re.sub] of every [\D] by the empty string *)
Definition strip_non_digits : string -> string := Str.filter Chr.is_digit.

(** [re.sub] of every [[ -]] by the empty string *)
Definition strip_separators : string -> string :=
  Str.filter (fun a => negb (Chr.one_of " -" a)).

(** the loop of [_luhn_check] over [enumerate(digits)] from index [i] *)
Fixpoint luhn_loop (parity : nat) (i : nat) (digits : list Z) (checksum : Z)
    : Z :=
  match digits with
  | [] => checksum
  | d :: digits' =>
      let d :=
        if (i mod 2 =? parity)%nat
        then (let d := d * 2 in if 9 <? d then d - 9 else d)
        else d in
      luhn_loop parity (S i) digits' (checksum + d)
  end.

Definition _luhn_check (number_str : string) : bool :=
  let digits := Chr.digit_val <$> Str.to_list (strip_non_digits number_str) in
  if ((length digits <? 13) || (19 <? length digits))%nat then false
  else
    let parity := (length digits mod 2)%nat in
    luhn_loop parity 0 digits 0 mod 10 =? 0.

(** *** The file system, as the scanner sees it

    A flat map from normalised path strings to nodes.  A file whose
    [data] is [None] cannot be read: [read_bytes] raises. *)

Inductive node :=
| Dir
| File (data : option string).

Definition exists_ (fs : gmap string node) (p : string) : bool :=
  bool_decide (is_Some (fs !! p)).

Definition is_file (fs : gmap string node) (p : string) : bool :=
  match fs !! p with
  | Some (File _) => true
  | _ => false
  end.

Definition is_dir (fs : gmap string node) (p : string) : bool :=
  match fs !! p with
  | Some Dir => true
  | _ => false
  end.

(** [p] lies strictly below [root] *)
Definition below (root p : string) : bool :=
  Str.starts_with (root +:+ "/") p.

(** [root.rglob("*")]: every path below a directory [root] *)
Definition rglob (fs : gmap string node) (root : string) : list string :=
  if is_dir fs root
  then List.filter (below root) (fst <$> map_to_list fs)
  else [].

Definition read_bytes (fs : gmap string node) (p : string) : result string :=
  match fs !! p with
  | Some (File (Some raw)) => Ok raw
  | _ => Err OSError
  end.

(** [raw.decode(errors="ignore")]: exact on ASCII bytes *)
Definition decode_ignore : string -> string :=
  Str.filter (Chr.between 0 127).

Definition _read_file_safe (fs : gmap string node) (p : string) : string :=
  match read_bytes fs p with
  | Ok raw => decode_ignore (Str.take_N 200000 raw)
  | Err _ => EmptyString
  end.

Definition _find_snippets (text : string) (match_spans : list (nat * nat))
    : list string :=
  (fun '(s, e) =>
     let start := (s - 40)%nat in
     let end_ := Nat.min (Str.length text) (e + 40) in
     let blank a := if Ascii.eqb a "010" || Ascii.eqb a "013" then " "%char else a in
     Str.strip (Str.map blank (Str.slice start end_ text)))
  <$> match_spans.

(** *** Context score *)

(** The optional models: whether [sentence_transformers] could be
    imported, the cosine similarity computed with [AI_MODEL], and what
    [load_ml_model] finds.  The calls into them may raise. *)
Record models := Models {
  HAS_AI : bool;
  HAS_ML : bool;
  ai_similarity : string -> result Q;
  load_ml_model : result (option (string -> result Q))
}.

Definition Qltb (a b : Q) : bool := negb (Qle_bool b a).

(** Python's [min(a, b)] *)
Definition py_min (a b : Q) : Q := if Qltb b a then b else a.

(** Python's [round(x)]: to the nearest integer, ties to even *)
Definition py_round (x : Q) : Z :=
  let f := Qfloor x in
  match (x - inject_Z f ?= 1 # 2)%Q with
  | Lt => f
  | Gt => f + 1
  | Eq => if Z.even f then f else f + 1
  end.

(** Python's [round(x, 3)] *)
Definition py_round3 (x : Q) : Q := (inject_Z (py_round (x * 1000)) / 1000)%Q.

Definition keyword_hits (text : string) : nat :=
  length (List.filter (fun kw => Str.contains kw (Str.lower text))
            SENSITIVE_KEYWORDS).

Definition compute_context_score_ai (M : models) (text : string) : result Q :=
  if negb (HAS_AI M) then Ok 0%Q else ai_similarity M text.

Definition predict_context_ml (M : models) (text : string) : result Q :=
  if negb (HAS_ML M) then Ok 0%Q
  else
    model ← load_ml_model M;
    match model with
    | None => Ok 0%Q
    | Some predict => predict text
    end.

Definition context_score (M : models) (text : string) : result Q :=
  let h := keyword_hits text in
  let h_score := py_min 1 (inject_Z (Z.of_nat h) / 6)%Q in
  ai_score ← compute_context_score_ai M text;
  ml_score ← predict_context_ml M text;
  let final := ((3 # 10) * h_score + (4 # 10) * ai_score + (3 # 10) * ml_score)%Q in
  Ok (py_min final 1).

(** *** Risk scoring *)

Definition conf_map : gmap string Z :=
  {[ "low" := 0; "medium" := 10; "high" := 20 ]}.

Definition compute_risk_score (hits : gmap string (list string))
    (confidence : string) (context_score : Q) : Z :=
  let n_types := Z.of_nat (size hits) in
  let base := 20 * n_types in
  let conf_boost := default 0 (conf_map !! confidence) in
  let raw := (inject_Z (base + conf_boost) * (1 + context_score))%Q in
  Z.max 0 (Z.min 100 (py_round raw)).

Definition risk_label (score : Z) : string :=
  if 70 <=? score then "High"
  else if 35 <=? score then "Medium"
  else "Low".

(** *** Scan single file *)

Record finding := Finding {
  hits : gmap string (list string);
  snippets : gmap string (list string);
  confidence : string;
  ctx_score : Q;
  risk_score : Z;
  risk_label_of : string
}.

Definition found := (gmap string (list string) * gmap string (list string))%type.

(** a hit list as it is stored: not at all when it is empty *)
Definition if_any {A : Type} (l : list A) : option (list A) :=
  match l with
  | [] => None
  | _ => Some l
  end.

(** [if m: hits[name] = m; snippets[name] = _find_snippets(text, spans)] *)
Definition record_hits (text : string) (name : string) (m : list string)
    (spans : list (nat * nat)) (acc : found) : found :=
  match m with
  | [] => acc
  | _ => (<[name := m]> acc.1, <[name := _find_snippets text spans]> acc.2)
  end.

Definition detect_group0 (text : string) (acc : found)
    (d : string * regex) : found :=
  let ms := finditer d.2 text in
  record_hits text d.1 (group0 text <$> ms) (span <$> ms) acc.

Definition cvv_near_card (text : string) (x : rmatch) : bool :=
  let snippet :=
    Str.lower (Str.slice (m_start x - 10) (m_end x + 10) text) in
  Str.contains "cvv" snippet || Str.contains "card" snippet.

Definition detect_all (text : string) : found :=
  let acc : found := (∅, ∅) in
  (* Regex detections *)
  let acc :=
    foldl (detect_group0 text) acc
      [("aadhaar", AADHAAR_RE); ("pan", PAN_RE); ("email", EMAIL_RE);
       ("phone", PHONE_RE); ("passport", PASSPORT_RE)] in
  (* Password *)
  let ms := finditer PASSWORD_RE text in
  let acc := record_hits text "password" (group 2 text <$> ms) (span <$> ms) acc in
  (* Bank Account *)
  let acc := detect_group0 text acc ("bank_account", BANK_AC_RE) in
  (* IFSC Code *)
  let acc := detect_group0 text acc ("ifsc", IFSC_RE) in
  (* CVV *)
  let cvv := List.filter (cvv_near_card text) (finditer CVV_RE text) in
  let acc := record_hits text "cvv" (group0 text <$> cvv) (span <$> cvv) acc in
  (* Credit Card *)
  let cc :=
    List.filter
      (fun m => _luhn_check (strip_separators (group0 text m)))
      (finditer CC_RE text) in
  record_hits text "credit_card"
    ((fun m => strip_separators (group0 text m)) <$> cc) (span <$> cc) acc.

(** The part of [scan_file] after the file has been read.  [None] is the
    empty dict [{}] returned for an empty text. *)
Definition scan_text (M : models) (text : string) : result (option finding) :=
  if bool_decide (text = EmptyString) then Ok None
  else
    let '(hits, snippets) := detect_all text in
    (* Confidence heuristic *)
    let conf :=
      if bool_decide (hits = ∅) then "low"
      else if (2 <=? keyword_hits text)%nat then "high" else "medium" in
    (* Hybrid context score *)
    ctx ← context_score M text;
    (* Risk *)
    let '(risk, label) :=
      if bool_decide (hits = ∅) then (0, "Low")
      else
        let risk := compute_risk_score hits conf ctx in
        (risk, risk_label risk) in
    Ok (Some (Finding hits snippets conf (py_round3 ctx) risk label)).

Definition scan_file (M : models) (fs : gmap string node) (path : string)
    : result (option finding) :=
  scan_text M (_read_file_safe fs path).

(** *** Scan directory

    The tests [root.exists()] and [p.is_file()] are taken to succeed here;
    [Stat.scan_directory] is the scan on a disk where they can fail. *)

(** one turn of the loop over [root.rglob("*")] *)
Definition scan_step (M : models) (fs : gmap string node)
    (results : gmap string finding) (p : string) : gmap string finding :=
  if negb (is_file fs p) then results
  else
    match scan_file M fs p with
    | Ok (Some res) => <[p := res]> results
    | Ok None => results
    | Err _ => results
    end.

(** what one turn of the loop stores for a path *)
Definition stored (M : models) (fs : gmap string node) (p : string)
    : option finding :=
  if is_file fs p then
    match scan_file M fs p with
    | Ok (Some res) => Some res
    | _ => None
    end
  else None.

(** an existing directory with nothing below it *)
Definition empty_dir (fs : gmap string node) (root : string) : Prop :=
  is_dir fs root = true /\ forall p, below root p = true -> fs !! p = None.

Definition scan_directory (M : models) (fs : gmap string node)
    (root_path : string) : result (gmap string finding) :=
  let results : gmap string finding := ∅ in
  if negb (exists_ fs root_path) then Ok results
  else Ok (foldl (scan_step M fs) results (rglob fs root_path)).

End Dlp.

(** ** The world the routes run in *)

(** One metadata entry, as [create_backup] builds it *)
Record entry := Entry {
  backupName : string;
  sourcePath : string;
  backupPath : string;
  createdAt : string;
  totalFiles : nat;
  sensitiveFiles : nat;
  encryptedFiles : nat;
  avgRiskScore : Q;
  riskLabel : string
}.

(** The files on disk, the entropy still to be drawn (random bytes and the
    clock) and the list persisted in the metadata file.  [metadata] stands
    for what [data/backups/metadata.json] holds; [files] speaks of the
    other paths. *)
Record world := World {
  files : gmap string Dlp.node;
  entropy : nat;
  metadata : list entry
}.

Definition io (A : Type) : Type := world -> result A * world.

#[global] Instance io_ret : MRet io := fun _ a w => (Ok a, w).
#[global] Instance io_bind : MBind io := fun _ _ f m w =>
  match m w with
  | (Ok a, w') => f a w'
  | (Err e, w') => (Err e, w')
  end.

Definition raise {A : Type} (e : exn) : io A := fun w => (Err e, w).

(** [try: body except Exception: handler] *)
Definition try_except {A : Type} (body handler : io A) : io A := fun w =>
  match body w with
  | (Ok a, w') => (Ok a, w')
  | (Err _, w') => handler w'
  end.

Definition get_files : io (gmap string Dlp.node) := fun w => (Ok (files w), w).

Definition put_files (fs : gmap string Dlp.node) : io unit := fun w =>
  (Ok tt, World fs (entropy w) (metadata w)).

Definition draw : io nat := fun w =>
  (Ok (entropy w), World (files w) (S (entropy w)) (metadata w)).

Definition lift {A : Type} (r : result A) : io A := fun w => (r, w).

Module Fs.
Import Dlp.

(** the proper ancestors of a path, outermost first: [go] carries the
    prefix read so far, reversed *)
Fixpoint ancestors_go (seen : string) (p : string) : list string :=
  match p with
  | EmptyString => []
  | String a p' =>
      let here :=
        if Ascii.eqb a "/" && negb (bool_decide (seen = EmptyString))
        then [String.rev seen] else [] in
      here ++ ancestors_go (String a seen) p'
  end.

Definition ancestors : string -> list string := ancestors_go EmptyString.

(** [p.parent] *)
Definition parent (p : string) : string :=
  default "." (last (ancestors p)).

(** [p.mkdir(parents=True, exist_ok=True)] *)
Definition mkdir_p (p : string) : io unit :=
  fs ← get_files;
  if existsb (is_file fs) (ancestors p ++ [p]) then raise OSError
  else
    put_files
      (foldl (fun fs d => if exists_ fs d then fs else <[d := Dir]> fs) fs
         (ancestors p ++ [p])).

(** the directory a file is created in is there: the working directory for
    a bare name, otherwise the parent *)
Definition parent_is_dir (fs : gmap string node) (p : string) : bool :=
  match last (ancestors p) with
  | Some d => is_dir fs d
  | None => true
  end.

(** [p.write_bytes(data)], [p.write_text(data)] *)
Definition write (p : string) (data : string) : io unit :=
  fs ← get_files;
  if is_dir fs p || negb (parent_is_dir fs p) then raise OSError
  else put_files (<[p := File (Some data)]> fs).

Definition read (p : string) : io string :=
  fs ← get_files; lift (read_bytes fs p).

(** [shutil.copy2(src, dst)] *)
Definition copy2 (src dst : string) : io unit :=
  data ← read src; write dst data.

End Fs.

(** ** [app/utils/crypto_utils.py] *)

(** [cryptography.fernet.Fernet], as far as the program relies on it:
    key generation, the key check of the constructor, and authenticated
    encryption into printable base64 with its inverse. *)
Class Fernet := {
  generate_key : nat -> string;
  valid_key : string -> bool;
  fernet_encrypt : string -> nat -> string -> string;
  fernet_decrypt : string -> string -> option string;
  generate_key_valid : forall n, valid_key (generate_key n) = true;
  fernet_decrypt_encrypt : forall key n data,
    valid_key key = true ->
    fernet_decrypt key (fernet_encrypt key n data) = Some data
}.

Module Crypto.
Import Dlp.

Section WithFernet.
Context {F : Fernet}.

Definition KEY_PATH : string := "data/backup_key.key".

Definition get_or_create_key : io string :=
  fs ← get_files;
  _ ← (if negb (exists_ fs (Fs.parent KEY_PATH))
       then Fs.mkdir_p (Fs.parent KEY_PATH) else mret tt);
  fs ← get_files;
  if exists_ fs KEY_PATH then Fs.read KEY_PATH
  else
    n ← draw;
    let key := generate_key n in
    _ ← Fs.write KEY_PATH key;
    mret key.

(** the key of a [Fernet] object *)
Definition get_fernet : io string :=
  key ← get_or_create_key;
  if valid_key key then mret key else raise ValueError.

Definition encrypt_str (value : string) : io string :=
  f ← get_fernet;
  n ← draw;
  let tok := fernet_encrypt f n value in
  mret ("<ENC>" +:+ tok).

Definition decrypt_str (enc_placeholder : string) : io string :=
  if negb (Str.starts_with "<ENC>" enc_placeholder) then raise ValueError
  else
    let b64 := Str.drop (Str.length "<ENC>") enc_placeholder in
    f ← get_fernet;
    match fernet_decrypt f b64 with
    | Some value => mret value
    | None => raise InvalidToken
    end.

(** the key file holds a usable key, or can be created *)
Definition key_store_ready (fs : gmap string node) : bool :=
  match fs !! KEY_PATH with
  | Some (File (Some key)) => valid_key key
  | Some _ => false
  | None => negb (is_file fs (Fs.parent KEY_PATH))
  end.

(** the key file holds [key] *)
Definition holds_key (fs : gmap string node) (key : string) : Prop :=
  fs !! KEY_PATH = Some (File (Some key)) /\
  exists_ fs (Fs.parent KEY_PATH) = true.

End WithFernet.
End Crypto.

(** ** [app/routes/backup_routes.py] and the scan route of [app/main.py] *)

Module Routes.
Import Re Dlp Crypto.

Section WithEnv.
Context {F : Fernet}.
(** the optional models of the scanner *)
Variable M : models.
(** the order in which Python iterates over [set(tokens)] *)
Variable set_order : list string -> list string.
(** [os.path.abspath] and [datetime.now().isoformat()] *)
Variable abspath : string -> string.
Variable isoformat_now : nat -> string.

Definition BACKUP_DIR : string := "data/backups".

Definition load_metadata : io (list entry) := fun w => (Ok (metadata w), w).

(** the list is written to [data/backups/metadata.json], a path of which
    [files] does not speak *)
Definition save_metadata (data : list entry) : io unit := fun w =>
  (Ok tt, World (files w) (entropy w) data).

Definition _is_text_file (path : string) : io bool :=
  try_except
    (data ← Fs.read path;
     let chunk := Str.take 2048 data in
     if Str.contains (String "000" EmptyString) chunk then mret false
     else if bool_decide (decode_ignore chunk = chunk) then mret true
     else raise ValueError)
    (mret false).

(** the tokens of every hit list, empty strings left out *)
Definition collect_tokens (hits : gmap string (list string)) : list string :=
  List.filter (fun v => negb (bool_decide (v = EmptyString)))
    (concat (snd <$> map_to_list hits)).

(** [sorted(xs, key=lambda s: -len(s))]: a stable insertion sort *)
Fixpoint insert_by_len (x : string) (l : list string) : list string :=
  match l with
  | [] => [x]
  | y :: l' =>
      if (Str.length y <=? Str.length x)%nat then x :: y :: l'
      else y :: insert_by_len x l'
  end.

Definition sorted_longest_first (l : list string) : list string :=
  foldr insert_by_len [] l.

(** the loop [for tok in sorted_tokens] *)
Fixpoint redact_loop (sorted_tokens : list string) (out : string) : io string :=
  match sorted_tokens with
  | [] => mret out
  | tok :: rest =>
      out ← try_except
              (enc ← encrypt_str tok; mret (Str.replace tok enc out))
              (mret out);
      redact_loop rest out
  end.

Definition _encrypt_sensitive_in_text (content : string)
    (hits : gmap string (list string)) : io string :=
  if bool_decide (hits = ∅) then mret content
  else
    let tokens := collect_tokens hits in
    let sorted_tokens := sorted_longest_first (set_order tokens) in
    redact_loop sorted_tokens content.

(** [(password|passwd|pwd)\s*[:=]\s*([^\s,;]{4,40})] with [re.IGNORECASE] *)
Definition pwd_pattern : regex :=
  seq [Grp 1 (alts [lit_i "password"; lit_i "passwd"; lit_i "pwd"]);
       star (Cls Chr.is_space);
       Cls (Chr.one_of ":=");
       star (Cls Chr.is_space);
       Grp 2 (range (Cls (fun a => negb (Chr.is_space a || Chr.one_of ",;" a)))
                    4 40)].

Definition fallback_hits (text : string) : gmap string (list string) :=
  let extra_hits : gmap string (list string) := ∅ in
  let found := group 2 text <$> finditer pwd_pattern text in
  let extra_hits :=
    match found with [] => extra_hits | _ => <["password" := found]> extra_hits end in
  let found := group0 text <$> finditer EMAIL_RE text in
  match found with
  | [] => extra_hits
  | _ => <["email" := set_order found]> extra_hits
  end.

Definition _process_and_copy_file (src dst : string)
    (findings_for_file : option finding) : io bool :=
  _ ← Fs.mkdir_p (Fs.parent dst);
  match findings_for_file with
  | None => _ ← Fs.copy2 src dst; mret false
  | Some f =>
      if negb (bool_decide (risk_label_of f ∈ ["Medium"; "High"]))
      then _ ← Fs.copy2 src dst; mret false
      else
        is_text ← _is_text_file src;
        if negb is_text then _ ← Fs.copy2 src dst; mret false
        else
          read ← try_except (text ← Fs.read src; mret (Some (decode_ignore text)))
                     (mret None);
          match read with
          | None => _ ← Fs.copy2 src dst; mret false
          | Some text =>
              let hits :=
                if bool_decide (hits f = ∅) then fallback_hits text else hits f in
              new_text ← _encrypt_sensitive_in_text text hits;
              try_except (_ ← Fs.write dst new_text; mret true)
                         (_ ← Fs.copy2 src dst; mret false)
          end
  end.

(** one turn of the loop over the files that [os.walk(source)] yields *)
Definition backup_file (source backup_path : string)
    (findings : gmap string finding) (src_file : string) : io bool :=
  let rel_dest := backup_path +:+ Str.drop (Str.length source) src_file in
  let findings_for_file := findings !! src_file in
  try_except
    (_process_and_copy_file src_file rel_dest findings_for_file)
    (_ ← Fs.mkdir_p (Fs.parent rel_dest);
     _ ← Fs.copy2 src_file rel_dest;
     mret false).

Fixpoint backup_loop (source backup_path : string)
    (findings : gmap string finding) (todo : list string)
    (encrypted_files_count total_copied : nat) : io (nat * nat) :=
  match todo with
  | [] => mret (encrypted_files_count, total_copied)
  | src_file :: todo' =>
      encrypted ← backup_file source backup_path findings src_file;
      backup_loop source backup_path findings todo'
        (if (encrypted : bool) then S encrypted_files_count
         else encrypted_files_count)
        (S total_copied)
  end.

(** the regular files below [source], as [os.walk] lists them when the
    walk starts *)
Definition walk_files (fs : gmap string node) (source : string) : list string :=
  List.filter (is_file fs) (rglob fs source).

(** a payload argument that is absent or empty *)
Definition missing (payload : gmap string string) (key : string) : Prop :=
  payload !! key = None \/ payload !! key = Some EmptyString.

(** truthiness of [payload.get(key)] *)
Definition given (payload : gmap string string) (key : string) : option string :=
  match payload !! key with
  | Some EmptyString | None => None
  | Some v => Some v
  end.

Definition Qsum (l : list Z) : Q := inject_Z (foldr Z.add 0 l).

(** [POST /backup].  [BACKUP_DIR / name] is [data/backups/<name>] for a
    name of one path component, which the model takes every name to be. *)
Definition create_backup (payload : gmap string string) : io entry :=
  match given payload "sourcePath", given payload "backupName" with
  | Some source, Some name =>
      fs ← get_files;
      if negb (exists_ fs source)
      then raise (HTTPException 400 "Source path does not exist")
      else
        let backup_path := BACKUP_DIR +:+ "/" +:+ name in
        if exists_ fs backup_path
        then raise (HTTPException 400 "Backup name already exists")
        else
          (* ensure key exists *)
          _ ← get_or_create_key;
          fs ← get_files;
          findings ← lift (scan_directory M fs source);
          counts ← backup_loop source backup_path findings
                     (walk_files fs source) 0 0;
          let '(encrypted_files_count, total_copied) := counts in
          (* metadata *)
          let total_files := total_copied in
          let sensitive_files := size findings in
          let avg_score :=
            if (0 <? sensitive_files)%nat
            then (Qsum (risk_score <$> (snd <$> map_to_list findings))
                  / inject_Z (Z.of_nat sensitive_files))%Q
            else 0%Q in
          let risk_label :=
            if Qle_bool 70 avg_score then "High"
            else if Qle_bool 35 avg_score then "Medium"
            else "Low" in
          now ← draw;
          let entry :=
            Entry name (abspath source) backup_path (isoformat_now now)
              total_files sensitive_files encrypted_files_count
              (inject_Z (py_round (avg_score * 100)) / 100)%Q risk_label in
          data ← load_metadata;
          _ ← save_metadata (data ++ [entry]);
          mret entry
  | _, _ => raise (HTTPException 400 "sourcePath and backupName required")
  end.

(** the response of [POST /scan] *)
Record scan_response := ScanResponse {
  scanned_path : string;
  total_files_scanned : nat;
  matching_files_count : nat;
  findings_of : gmap string finding
}.

Definition scan_endpoint (payload : gmap string string) : io scan_response :=
  match given payload "rootPath" with
  | None => raise (HTTPException 400 "rootPath not provided")
  | Some root_path =>
      fs ← get_files;
      if negb (exists_ fs root_path)
      then raise (HTTPException 400
                    ("Path '" +:+ root_path +:+ "' does not exist"))
      else
        findings ← lift (scan_directory M fs root_path);
        let total_files := length (walk_files fs root_path) in
        mret (ScanResponse (abspath root_path) total_files (size findings)
                findings)
  end.

End WithEnv.
End Routes.

(** ** The specification's vocabulary *)

Module Spec.







(** the Luhn checksum: from the rightmost digit, every second digit is
    doubled, 9 is subtracted from a double above 9, and the sum is to be a
    multiple of 10 *)
Definition luhn_digit (second : bool) (d : Z) : Z :=
  if second then (if 9 <? 2 * d then 2 * d - 9 else 2 * d) else d.

Fixpoint luhn_sum_from_right (rev_digits : list Z) (second : bool) : Z :=
  match rev_digits with
  | [] => 0
  | d :: ds => luhn_digit second d + luhn_sum_from_right ds (negb second)
  end.

Definition luhn_valid (digits : list Z) : bool :=
  luhn_sum_from_right (rev digits) false mod 10 =? 0.

(** the same sum taken from the left, when it is known whether the first
    digit is one to double *)
Fixpoint luhn_sum_from_left (digits : list Z) (double : bool) : Z :=
  match digits with
  | [] => 0
  | d :: ds => luhn_digit double d + luhn_sum_from_left ds (negb double)
  end.

(** the errors of the interface, as the routes raise them *)
Definition PathNotFound (rootPath : string) : exn :=
  HTTPException 400 ("Path '" +:+ rootPath +:+ "' does not exist").
Definition InvalidInput : exn :=
  HTTPException 400 "sourcePath and backupName required".
Definition SourceNotFound : exn :=
  HTTPException 400 "Source path does not exist".
Definition DestinationExists : exn :=
  HTTPException 400 "Backup name already exists".

(** descending order of length *)
Definition longer_first (a b : string) : Prop :=
  (Str.length b <= Str.length a)%nat.

(** [set_order] lists the distinct elements of its argument, in some order *)
Definition enumerates_sets (set_order : list string -> list string) : Prop :=
  forall l : list string,
    NoDup (set_order l) /\ forall x, x ∈ set_order l <-> x ∈ l.

(** [out] is [s] with every occurrence of [old], found left to right and
    not overlapping an earlier one, replaced by [new] *)
Inductive replaced (old new : string) : string -> string -> Prop :=
| replaced_end : replaced old new EmptyString EmptyString
| replaced_hit s out :
    replaced old new s out ->
    replaced old new (old +:+ s) (new +:+ out)
| replaced_miss a s out :
    Str.starts_with old (String a s) = false ->
    replaced old new s out ->
    replaced old new (String a s) (String a out).

Section Redaction.
Context {F : Fernet}.

(** [redacted toks out w out' w']: going through [toks] in order from the
    text [out] in world [w], each token is replaced throughout by its
    placeholder, or left alone if encrypting it fails. *)
Inductive redacted : list string -> string -> world -> string -> world -> Prop :=
| redacted_nil out w : redacted [] out w out w
| redacted_enc tok toks out w enc w1 mid out' w' :
    Crypto.encrypt_str tok w = (Ok enc, w1) ->
    replaced tok enc out mid ->
    redacted toks mid w1 out' w' ->
    redacted (tok :: toks) out w out' w'
| redacted_skip tok toks out w e w1 out' w' :
    Crypto.encrypt_str tok w = (Err e, w1) ->
    redacted toks out w1 out' w' ->
    redacted (tok :: toks) out w out' w'.

End Redaction.

End Spec.

(** ** Instances for the examples *)

Module Examples.
Import Dlp.

(** no optional model installed *)
Definition no_models : models :=
  Models false false (fun _ => Ok 0%Q) (Ok None).

(** a semantic model that fails on some texts *)
Definition flaky_models : models :=
  Models true false
    (fun text => if Str.contains "card" text then Err ModelError else Ok 0%Q)
    (Ok None).

(** A stand-in for Fernet that satisfies its interface.  A token spells
    the key, a nonce and the data with two letters from [a] to [p] for
    each character. *)
Definition nibble (n : N) : ascii := ascii_of_N (97 + n).

Fixpoint hex (s : string) : string :=
  match s with
  | EmptyString => EmptyString
  | String a s' =>
      String (nibble (Chr.code a / 16)) (String (nibble (Chr.code a mod 16)) (hex s'))
  end.

Definition unnibble (a : ascii) : option N :=
  if Chr.between 97 112 a then Some (Chr.code a - 97)%N else None.

Fixpoint unhex (s : string) : option string :=
  match s with
  | EmptyString => Some EmptyString
  | String _ EmptyString => None
  | String h (String l s') =>
      match unnibble h, unnibble l, unhex s' with
      | Some x, Some y, Some t => Some (String (ascii_of_N (16 * x + y)) t)
      | _, _, _ => None
      end
  end.

Definition nonce (n : nat) : ascii := ascii_of_nat (48 + n mod 10).

#[refine] Instance hex_fernet : Fernet := {|
  generate_key n := "key" +:+ String (nonce n) EmptyString;
  valid_key k := Str.starts_with "key" k && (Str.length k =? 4)%nat;
  fernet_encrypt k n data := hex (k +:+ String (nonce n) data);
  fernet_decrypt k tok :=
    match unhex tok with
    | Some s =>
        if Str.starts_with k s then Some (Str.drop (S (Str.length k)) s) else None
    | None => None
    end
|}.
Proof.
  - intros n. reflexivity.
  - intros key n data _.
    assert (Hhex : forall s, unhex (hex s) = Some s).
    { induction s as [|a s IH]; [reflexivity|].
      cbn [hex unhex]. rewrite IH.
      destruct a as [[] [] [] [] [] [] [] []]; reflexivity. }
    rewrite Hhex. clear Hhex.
    induction key as [|a key IH]; [reflexivity|].
    change (String a key +:+ String (nonce n) data)
      with (String a (key +:+ String (nonce n) data)).
    cbn [Str.starts_with Str.length Str.drop]. rewrite Ascii.eqb_refl.
    cbn [andb]. exact IH.
Defined.

Definition tree : gmap string node :=
  {[ "docs" := Dir;
     "docs/notes.txt" := File (Some "hello world");
     "docs/memo.txt" := File (Some "salary figures: secret and confidential");
     "docs/card.txt" := File (Some "card number 4111 1111 1111 1111, cvv: 432");
     "docs/empty.txt" := File (Some EmptyString);
     "docs/locked.txt" := File None;
     "docs/sub" := Dir;
     "docs/sub/id.txt" := File (Some "aadhaar 123456789012 password: hunter2") ]}.

Definition start : world := World tree 0 [].

(** the same tree without the unreadable file, and with a backup in place *)
Definition readable_tree : gmap string node := delete "docs/locked.txt" tree.

Definition backed_up : world :=
  World (<["data/backups/b1" := Dir]> readable_tree) 0 [].

Definition no_finding : finding := Finding ∅ ∅ EmptyString 0 0 EmptyString.

Definition finding_at (p : string) : finding :=
  match scan_file no_models tree p with
  | Ok (Some f) => f
  | _ => no_finding
  end.

Definition card_finding : finding := Eval vm_compute in finding_at "docs/card.txt".
Definition id_finding : finding := Eval vm_compute in finding_at "docs/sub/id.txt".

Definition abspath (p : string) : string := "/srv/" +:+ p.
Definition isoformat_now (n : nat) : string :=
  "2026-01-01T00:00:0" +:+ String (ascii_of_nat (48 + n mod 10)) EmptyString.

Definition some_hits : gmap string (list string) :=
  {[ "password" := ["pass123"]; "cvv" := ["123"; "123"] ]}.

End Examples.

(** ** The other routes of [app/routes/backup_routes.py] *)

Module BackupRoutes.
Import Dlp Routes.

(** [shutil.rmtree(p)]: the directory and everything below it; anything
    but a directory raises *)
Definition rmtree (p : string) : io unit :=
  fs ← get_files;
  if is_dir fs p
  then put_files (filter (fun kv => kv.1 <> p /\ below p kv.1 = false) fs)
  else raise OSError.

(** [GET /backups] *)
Definition list_backups : io (list entry) := load_metadata.

(** [GET /backup/{name}] *)
Definition get_backup (name : string) : io entry :=
  data ← load_metadata;
  match List.find (fun entry => bool_decide (backupName entry = name)) data with
  | Some entry => mret entry
  | None => raise (HTTPException 404 "Backup not found")
  end.

(** [DELETE /backup/{name}]; the message of the response is returned *)
Definition delete_backup (name : string) : io string :=
  data ← load_metadata;
  match List.find (fun e => bool_decide (backupName e = name)) data with
  | None => raise (HTTPException 404 "Backup not found")
  | Some entry =>
      let backup_path := backupPath entry in
      fs ← get_files;
      _ ← (if exists_ fs backup_path then rmtree backup_path else mret tt);
      let data :=
        List.filter (fun e => negb (bool_decide (backupName e = name))) data in
      _ ← save_metadata data;
      mret ("Backup '" +:+ name +:+ "' deleted successfully")
  end.

End BackupRoutes.

(** ** Risk scoring in binary64

    A Python [float] is an IEEE 754 double.  [SpecFloat] of the Standard
    Library is the arithmetic of that format, with 53 bits of precision and
    the exponent bound 1024: every operation returns the exact result
    rounded to nearest, ties to even.  Here [compute_risk_score] is taken
    with it, operation by operation. *)

Module Binary64.
Import Dlp.

Definition prec : Z := 53.
Definition emax : Z := 1024.

Definition float : Type := spec_float.

Definition add : float -> float -> float := SFadd prec emax.
Definition mul : float -> float -> float := SFmul prec emax.

(** the literal [1.0] *)
Definition one : float := S754_finite false 4503599627370496 (-52).

(** the exact value of a finite float *)
Definition value (x : float) : option Q :=
  match x with
  | S754_zero _ => Some 0%Q
  | S754_finite s m e => Some (inject_Z (cond_Zopp s (Zpos m)) * 2 ^ e)%Q
  | S754_infinity _ | S754_nan => None
  end.

(** [float(n)], as [int * float] converts its left operand: to the nearest
    double, and [OverflowError] for an [int] beyond the doubles *)
Definition of_int (n : Z) : result float :=
  match binary_normalize prec emax n 0 false with
  | S754_infinity _ => Err OverflowError
  | x => Ok x
  end.

(** [round(x)]: the nearest integer, ties to even; [ValueError] for a NaN
    and [OverflowError] for an infinity *)
Definition round (x : float) : result Z :=
  match x with
  | S754_nan => Err ValueError
  | S754_infinity _ => Err OverflowError
  | S754_zero _ => Ok 0
  | S754_finite s m e => Ok (py_round (inject_Z (cond_Zopp s (Zpos m)) * 2 ^ e)%Q)
  end.

Definition compute_risk_score (hits : gmap string (list string))
    (confidence : string) (context_score : float) : result Z :=
  let n_types := Z.of_nat (size hits) in
  let base := 20 * n_types in
  let conf_boost := default 0 (conf_map !! confidence) in
  match of_int (base + conf_boost) with
  | Err e => Err e
  | Ok f =>
      let raw := mul f (add one context_score) in
      match round raw with
      | Err e => Err e
      | Ok r => Ok (Z.max 0 (Z.min 100 r))
      end
  end.

(** *** What the proofs speak of *)








End Binary64.

(** ** The scanner on a disk where the file system can fail

    [Path.exists] and [Path.is_file] ask [os.stat], and pathlib passes on
    the [PermissionError], an [OSError], that it raises for a path in a
    directory that may be listed but not searched.  [denied] holds the
    paths for which [stat] is refused; [rglob] still yields them, since
    listing a directory needs no [stat] of its entries.  The walk of
    [rglob] swallows a [PermissionError] of its own and passes on any other
    error of listing a directory; [faulty] holds the directories whose
    listing fails so.  With nothing denied and nothing faulty this is the
    scanner of [Dlp]. *)

Module Stat.
Import Dlp.

Record disk := Disk {
  nodes : gmap string node;
  denied : gset string;
  faulty : gset string
}.

(** [os.stat(p)], with [None] for a path that is not there *)
Definition stat (d : disk) (p : string) : result (option node) :=
  if decide (p ∈ denied d) then Err OSError else Ok (nodes d !! p).

(** [Path.exists] *)
Definition exists_ (d : disk) (p : string) : result bool :=
  match stat d p with
  | Ok n => Ok (bool_decide (is_Some n))
  | Err e => Err e
  end.

(** [Path.is_file] *)
Definition is_file (d : disk) (p : string) : result bool :=
  match stat d p with
  | Ok (Some (File _)) => Ok true
  | Ok _ => Ok false
  | Err e => Err e
  end.

(** [root] is a directory, and the listing of it or of a directory below
    it fails *)
Definition listing_fails (d : disk) (root : string) : bool :=
  is_dir (nodes d) root &&
  existsb (fun q => (bool_decide (q = root) || below root q) && is_dir (nodes d) q)
          (elements (faulty d)).

(** [root.rglob("*")] *)
Definition rglob (d : disk) (root : string) : result (list string) :=
  if listing_fails d root then Err OSError else Ok (Dlp.rglob (nodes d) root).

(** the loop over [root.rglob("*")]: the test [p.is_file()] stands outside
    the [try], the call of [scan_file] inside it *)
Fixpoint scan_loop (M : models) (d : disk) (todo : list string)
    (results : gmap string finding) : result (gmap string finding) :=
  match todo with
  | [] => Ok results
  | p :: todo =>
      match is_file d p with
      | Err e => Err e
      | Ok false => scan_loop M d todo results
      | Ok true =>
          scan_loop M d todo
            match scan_file M (nodes d) p with
            | Ok (Some res) => <[p := res]> results
            | Ok None => results
            | Err _ => results
            end
      end
  end.

Definition scan_directory (M : models) (d : disk) (root_path : string)
    : result (gmap string finding) :=
  let results : gmap string finding := ∅ in
  match exists_ d root_path with
  | Err e => Err e
  | Ok false => Ok results
  | Ok true =>
      match rglob d root_path with
      | Err e => Err e
      | Ok todo => scan_loop M d todo results
      end
  end.

End Stat.

(** ** Vocabulary of the further properties *)

Module Views.
Import Re Dlp Crypto Routes.
Local Open Scope nat_scope.

(** *** Luhn *)

(** the digits [_luhn_check] works on *)
Definition digits_of (s : string) : list Z :=
  Chr.digit_val <$> Str.to_list (strip_non_digits s).

(** *** The width of a match *)

(** the least and the greatest number of characters a pattern can consume *)
Fixpoint min_width (r : regex) : nat :=
  match r with
  | Eps | WordB => 0
  | Cls _ => 1
  | Cat r1 r2 => min_width r1 + min_width r2
  | Alt r1 r2 => Nat.min (min_width r1) (min_width r2)
  | Rep r' lo _ _ => lo * min_width r'
  | Grp _ r' => min_width r'
  end.

Fixpoint max_width (r : regex) : option nat :=
  match r with
  | Eps | WordB => Some 0%nat
  | Cls _ => Some 1%nat
  | Cat r1 r2 =>
      match max_width r1, max_width r2 with
      | Some a, Some b => Some (a + b)%nat
      | _, _ => None
      end
  | Alt r1 r2 =>
      match max_width r1, max_width r2 with
      | Some a, Some b => Some (Nat.max a b)
      | _, _ => None
      end
  | Rep r' _ (Some h) _ =>
      match max_width r' with
      | Some a => Some (h * a)%nat
      | None => None
      end
  | Rep _ _ None _ => None
  | Grp _ r' => max_width r'
  end.

Definition at_most (hi : option nat) (n : nat) : Prop :=
  match hi with
  | Some h => (n <= h)%nat
  | None => True
  end.

(** [c1] lies ahead of [c], past [lo] to [hi] characters *)
Definition ahead (lo : nat) (hi : option nat) (c c1 : cursor) : Prop :=
  exists w, rest c = w +:+ rest c1 /\ pos c1 = (pos c + Str.length w)%nat
            /\ (lo <= Str.length w)%nat /\ at_most hi (Str.length w).

(** a matcher that only succeeds through its continuation, after
    consuming [lo] to [hi] characters *)
Definition paced (lo : nat) (hi : option nat) (body : kont -> kont) : Prop :=
  forall k c res, body k c = Some res ->
    exists c1, ahead lo hi c c1 /\ k c1 = Some res.

(** the group a pattern ends with *)
Fixpoint tail_group (r : regex) : option (nat * regex) :=
  match r with
  | Cat _ r2 => tail_group r2
  | Grp n R => Some (n, R)
  | _ => None
  end.

(** a pattern that consumes no whitespace *)
Definition solid (r : regex) : Prop :=
  forall a, charset r a = true -> negb (Chr.is_space a) = true.

(** *** The detectors of [scan_file] *)

(** the keys [scan_file] stores hits under, in the order it tries them *)
Definition DETECTORS : list string :=
  ["aadhaar"; "pan"; "email"; "phone"; "passport"; "password";
   "bank_account"; "ifsc"; "cvv"; "credit_card"].

(** the matches each detector keeps, and the token it stores for one *)
Definition detector_matches (text name : string) : list rmatch :=
  if decide (name = "aadhaar") then finditer AADHAAR_RE text
  else if decide (name = "pan") then finditer PAN_RE text
  else if decide (name = "email") then finditer EMAIL_RE text
  else if decide (name = "phone") then finditer PHONE_RE text
  else if decide (name = "passport") then finditer PASSPORT_RE text
  else if decide (name = "password") then finditer PASSWORD_RE text
  else if decide (name = "bank_account") then finditer BANK_AC_RE text
  else if decide (name = "ifsc") then finditer IFSC_RE text
  else if decide (name = "cvv")
    then List.filter (cvv_near_card text) (finditer CVV_RE text)
  else if decide (name = "credit_card")
    then List.filter (fun m => _luhn_check (strip_separators (group0 text m)))
           (finditer CC_RE text)
  else [].

Definition detector_token (text name : string) (m : rmatch) : string :=
  if decide (name = "password") then group 2 text m
  else if decide (name = "credit_card") then strip_separators (group0 text m)
  else group0 text m.

(** the number of characters of a stored token, by detector: what the
    patterns allow *)
Definition token_width (name : string) : nat * option nat :=
  if decide (name = "aadhaar") then (12, Some 12)%nat
  else if decide (name = "pan") then (10, Some 10)%nat
  else if decide (name = "email") then (6%nat, None)
  else if decide (name = "phone") then (10, Some 14)%nat
  else if decide (name = "passport") then (8, Some 8)%nat
  else if decide (name = "password") then (4, Some 40)%nat
  else if decide (name = "bank_account") then (9, Some 18)%nat
  else if decide (name = "ifsc") then (11, Some 11)%nat
  else if decide (name = "cvv") then (3, Some 4)%nat
  else if decide (name = "credit_card") then (13, Some 19)%nat
  else (0, Some 0)%nat.

(** the detectors whose tokens hold no whitespace and are stored as they
    stand in the text *)
Definition SHOWN : list string :=
  ["aadhaar"; "pan"; "email"; "passport"; "password"; "bank_account";
   "ifsc"; "cvv"].

(** hits and snippets go together: a key has both or neither, a hit list
    is not empty, and there is a snippet for each hit *)
Definition paired (names : list string) (acc : found) : Prop :=
  forall k,
    (acc.1 !! k = None /\ acc.2 !! k = None) \/
    (exists l s, acc.1 !! k = Some l /\ acc.2 !! k = Some s /\
       l <> [] /\ length s = length l /\ k ∈ names).

(** one snippet of [_find_snippets] *)
Definition snippet_of (text : string) (se : nat * nat) : string :=
  let '(s, e) := se in
  let start := (s - 40)%nat in
  let end_ := Nat.min (Str.length text) (e + 40) in
  let blank a := if Ascii.eqb a "010" || Ascii.eqb a "013" then " "%char else a in
  Str.strip (Str.map blank (Str.slice start end_ text)).

(** *** What a computation leaves as it was *)

(** a computation whose runs are all related by [R] *)
Definition preserves {A : Type} (R : world -> world -> Prop) (m : io A) : Prop :=
  forall w r w1, m w = (r, w1) -> R w w1.

(** the metadata list is as it was *)
Definition same_metadata (w w1 : world) : Prop := metadata w1 = metadata w.

(** what existed outside [Q] is as it was *)
Definition kept_outside (Q : string -> Prop) (w w1 : world) : Prop :=
  forall p n, files w !! p = Some n -> ~ Q p -> files w1 !! p = Some n.

(** nothing that existed has changed *)
Definition grows (w w1 : world) : Prop := kept_outside (fun _ => False) w w1.

(** nothing has changed but the key file and its directory, and neither
    if it was there *)
Definition key_store_only (w w1 : world) : Prop :=
  metadata w1 = metadata w /\
  (forall p, p <> KEY_PATH -> p <> "data" -> files w1 !! p = files w !! p) /\
  (forall p n, files w !! p = Some n -> files w1 !! p = Some n).

(** a computation that raises nothing but [OSError] *)
Definition raises_only_oserror {A : Type} (m : io A) : Prop :=
  forall w e w1, m w = (Err e, w1) -> e = OSError.

(** *** Paths of the backup routes *)

Definition METADATA_FILE : string := "data/backups/metadata.json".

(** a backup name of one path component: not empty, without [/] and NUL,
    and neither [.] nor [..]; for such a name [BACKUP_DIR / name] is
    [data/backups/<name>] *)
Definition plain_name (name : string) : bool :=
  negb (bool_decide (name = EmptyString))
  && all_chars (fun a => negb (Ascii.eqb a "/") && negb (Ascii.eqb a "000")) name
  && negb (bool_decide (name = "."))
  && negb (bool_decide (name = "..")).

(** the destination of a source file in a backup *)
Definition rel_dest (source backup_path src_file : string) : string :=
  backup_path +:+ Str.drop (Str.length source) src_file.

End Views.

(** ** More instances for the examples *)

Module MoreExamples.
Import Dlp Examples.

(** [n] copies of a string, by doubling *)
Fixpoint copies (n : positive) (s : string) : string :=
  match n with
  | xH => s
  | xO n' => copies n' (s +:+ s)
  | xI n' => s +:+ copies n' (s +:+ s)
  end.

(** a file with a card number after its first 200000 bytes *)
Definition long_file : string :=
  copies 200000 "x" +:+ " card 4111111111111111".

(** a file with one e-mail address and nothing else *)
Definition mail_fs : gmap string node :=
  {[ "mail.txt" := File (Some "contact: bob@example.com") ]}.

(** two backups on record, the first with its directory in place *)
Definition b1_entry : entry :=
  Entry "b1" "/srv/docs" "data/backups/b1" "2026-01-01T00:00:00" 1 0 0 0 "Low".

Definition b3_entry : entry :=
  Entry "b3" "/srv/docs" "data/backups/b3" "2026-01-01T00:00:01" 0 0 0 0 "Low".

Definition archive : world :=
  World (<["data/backups/b1/notes.txt" := File (Some "hello world")]>
           (<["data/backups" := Dir]> (<["data" := Dir]> (files backed_up))))
        2 [b1_entry; b3_entry].

(** a backup on record whose path is a regular file *)
Definition broken_archive : world :=
  World {[ "data/backups/b1" := File (Some "not a directory") ]} 0 [b1_entry].

Definition docs_b2 : gmap string string :=
  {[ "sourcePath" := "docs"; "backupName" := "b2" ]}.

(** the tree with a directory [docs/sub] that may be listed but not
    searched *)
Definition sealed_tree : Stat.disk := Stat.Disk tree {[ "docs/sub/id.txt" ]} ∅.


End MoreExamples.

(** ** The export route of [app/main.py] *)

Module ExportRoute.
Import Dlp Routes.

(** A JSON value as FastAPI hands it to the route: [None], a [bool], a
    number, a [str], a [list] or a [dict] with its keys in order. *)
#[local] Unset Elimination Schemes.
Inductive json :=
| JNull
| JBool (b : bool)
| JNum (q : Q)
| JStr (s : string)
| JArr (l : list json)
| JObj (o : list (string * json)).
#[local] Set Elimination Schemes.

(** what the route can raise: an [HTTPException], or the [AttributeError]
    and [TypeError] of a payload that has not the shape it expects *)
Inductive raised :=
| Http (status : Z) (detail : string)
| AttributeError
| TypeError.

Inductive outcome (A : Type) :=
| Returned (a : A)
| Raised (e : raised).
Arguments Returned {A} a.
Arguments Raised {A} e.

#[global] Instance outcome_ret : MRet outcome := fun _ a => Returned a.
#[global] Instance outcome_bind : MBind outcome := fun _ _ f m =>
  match m with
  | Returned a => f a
  | Raised e => Raised e
  end.

(** [bool(v)] *)
Definition truthy (v : json) : bool :=
  match v with
  | JNull => false
  | JBool b => b
  | JNum q => negb (Qeq_bool q 0)
  | JStr s => negb (bool_decide (s = EmptyString))
  | JArr l => negb (bool_decide (l = []))
  | JObj o => negb (bool_decide (o = []))
  end.

Definition lookup_key (o : list (string * json)) (key : string) : option json :=
  snd <$> List.find (fun kv => bool_decide (kv.1 = key)) o.

(** [v.get(key)] and [v.get(key, default)]: only a [dict] has [get] *)
Definition get (v : json) (key : string) (default : json) : outcome json :=
  match v with
  | JObj o => Returned (match lookup_key o key with Some x => x | None => default end)
  | _ => Raised AttributeError
  end.

(** [v.items()] *)
Definition items (v : json) : outcome (list (string * json)) :=
  match v with
  | JObj o => Returned o
  | _ => Raised AttributeError
  end.

(** [v.lower()] *)
Definition lower (v : json) : outcome string :=
  match v with
  | JStr s => Returned (Str.lower s)
  | _ => Raised AttributeError
  end.

Fixpoint join (sep : string) (l : list string) : string :=
  match l with
  | [] => EmptyString
  | [s] => s
  | s :: l' => s +:+ sep +:+ join sep l'
  end.

Fixpoint strings_of (l : list json) : outcome (list string) :=
  match l with
  | [] => Returned []
  | JStr s :: l' => ss ← strings_of l'; mret (s :: ss)
  | _ :: _ => Raised TypeError
  end.

(** [sep.join(v)]: a list of strings, the characters of a string, or the
    keys of a dict *)
Definition join_value (sep : string) (v : json) : outcome string :=
  match v with
  | JArr l => ss ← strings_of l; mret (join sep ss)
  | JStr s => mret (join sep ((fun a => String a EmptyString) <$> Str.to_list s))
  | JObj o => mret (join sep (fst <$> o))
  | _ => Raised TypeError
  end.

(** a loop body run on every element, stopping at the first exception *)
Fixpoint for_each {A B : Type} (f : A -> outcome (list B)) (l : list A)
    : outcome (list B) :=
  match l with
  | [] => Returned []
  | x :: l' => ys ← f x; zs ← for_each f l'; mret (ys ++ zs)
  end.

(** the body of a download: the value given to [json.dumps], or the rows
    given to [writer.writerow] *)
Inductive content :=
| JsonText (data : json)
| CsvRows (rows : list (list json)).

Record download := Download {
  media_type : string;
  filename : string;
  body : content
}.

Definition header : list json :=
  JStr <$> ["file_path"; "hit_type"; "hit_values"; "confidence";
            "context_score"; "risk_score"; "risk_label"].

(** the rows of one finding *)
Definition rows_of (entry : string * json) : outcome (list (list json)) :=
  let '(fp, info) := entry in
  hits ← get info "hits" (JObj []);
  confidence ← get info "confidence" (JStr EmptyString);
  context_score ← get info "context_score" (JStr EmptyString);
  risk_score ← get info "risk_score" (JStr EmptyString);
  risk_label ← get info "risk_label" (JStr EmptyString);
  if negb (truthy hits)
  then mret [[JStr fp; JStr EmptyString; JStr EmptyString; confidence;
              context_score; risk_score; risk_label]]
  else
    hit_items ← items hits;
    for_each
      (fun '(htype, hvals) =>
         joined ← join_value ";" hvals;
         mret [[JStr fp; JStr htype; JStr joined; confidence; context_score;
                risk_score; risk_label]])
      hit_items.

(** [POST /export]; the payload is a [dict] *)
Definition export_endpoint (payload : list (string * json)) : outcome download :=
  format ← get (JObj payload) "format" JNull;
  fmt ← lower (if truthy format then format else JStr "json");
  data ← get (JObj payload) "data" JNull;
  if negb (truthy data)
  then Raised (Http 400 "No data provided to export")
  else if bool_decide (fmt = "json")
  then mret (Download "application/json" "scan_report.json" (JsonText data))
  else if bool_decide (fmt = "csv")
  then
    findings ← get data "findings" (JObj []);
    entries ← items findings;
    rows ← for_each rows_of entries;
    mret (Download "text/csv" "scan_report.csv" (CsvRows (header :: rows)))
  else Raised (Http 400 "Unsupported format").

(** *** A scan response as JSON *)

(** the hits of a finding, its keys in the order [scan_file] inserts them *)
Definition hits_json (h : gmap string (list string)) : json :=
  JObj (omap (fun name => (fun l => (name, JArr (JStr <$> l))) <$> h !! name)
          ["aadhaar"; "pan"; "email"; "phone"; "passport"; "password";
           "bank_account"; "ifsc"; "cvv"; "credit_card"]).

Definition finding_json (f : finding) : json :=
  JObj [("hits", hits_json (hits f));
        ("snippets", hits_json (snippets f));
        ("confidence", JStr (confidence f));
        ("context_score", JNum (ctx_score f));
        ("risk_score", JNum (inject_Z (risk_score f)));
        ("risk_label", JStr (risk_label_of f))].

(** the response of [POST /scan], its findings in the order they were
    stored *)
Definition response_json (scanned total : json) (findings : list (string * finding))
    : json :=
  JObj [("scanned_path", scanned);
        ("total_files_scanned", total);
        ("matching_files_count", JNum (inject_Z (Z.of_nat (length findings))));
        ("findings", JObj (prod_map id finding_json <$> findings))].

(** the rows a finding is due: one for each detector type with hits, one
    in all when there is none *)
Definition rows_due (f : finding) : nat := Nat.max 1 (size (hits f)).

(** the pairs of [hits_json], and the rows of a finding *)
Definition hit_pairs (h : gmap string (list string)) : list (string * list string) :=
  omap (fun name => (fun l => (name, l)) <$> h !! name) Views.DETECTORS.

Definition rows_for (p : string) (f : finding) : list (list json) :=
  let tail := [JStr (confidence f); JNum (ctx_score f);
               JNum (inject_Z (risk_score f)); JStr (risk_label_of f)] in
  match hit_pairs (hits f) with
  | [] => [[JStr p; JStr EmptyString; JStr EmptyString] ++ tail]
  | pairs =>
      (fun '(htype, l) => [JStr p; JStr htype; JStr (join ";" l)] ++ tail) <$> pairs
  end.

End ExportRoute.

(** * Properties *)

(** ** Strings *)

Module StrFacts.
Local Open Scope nat_scope.

Lemma app_nil (t : string) : EmptyString +:+ t = t.
Proof. reflexivity. Qed.

Lemma app_cons a (s t : string) : String a s +:+ t = String a (s +:+ t).
Proof. reflexivity. Qed.

Lemma app_assoc (a b c : string) : (a +:+ b) +:+ c = a +:+ (b +:+ c).
Proof.
  induction a as [|x a IH]; [reflexivity|]. rewrite !app_cons, IH. reflexivity.
Qed.

Lemma length_app (a b : string) :
  Str.length (a +:+ b) = Str.length a + Str.length b.
Proof.
  induction a as [|x a IH]; [reflexivity|].
  rewrite app_cons. simpl. rewrite IH. reflexivity.
Qed.

Lemma take_app (w s : string) : Str.take (Str.length w) (w +:+ s) = w.
Proof.
  induction w as [|a w IH]; [destruct s; reflexivity|].
  rewrite app_cons. simpl. rewrite IH. reflexivity.
Qed.

Lemma drop_app (w s : string) : Str.drop (Str.length w) (w +:+ s) = s.
Proof. induction w as [|a w IH]; [reflexivity|]. rewrite app_cons. exact IH. Qed.

Lemma drop_succ : forall i text a s,
  Str.drop i text = String a s -> Str.drop (S i) text = s.
Proof.
  induction i as [|i IH]; intros [|b text] a s H; simpl in *; try discriminate.
  - injection H as _ ->. reflexivity.
  - eapply IH, H.
Qed.

Lemma starts_with_app (p s : string) : Str.starts_with p (p +:+ s) = true.
Proof.
  induction p as [|a p IH]; [reflexivity|].
  rewrite app_cons. simpl. rewrite Ascii.eqb_refl. exact IH.
Qed.

Lemma starts_with_split : forall p s,
  Str.starts_with p s = true -> s = p +:+ Str.drop (Str.length p) s.
Proof.
  induction p as [|a p IH]; intros s H; [reflexivity|].
  destruct s as [|b s]; [discriminate|]. simpl in H.
  apply andb_true_iff in H as [Hab H]. apply Ascii.eqb_eq in Hab as ->.
  rewrite app_cons. simpl. f_equal. apply IH, H.
Qed.

Lemma filter_app p (a b : string) :
  Str.filter p (a +:+ b) = Str.filter p a +:+ Str.filter p b.
Proof.
  induction a as [|x a IH]; [reflexivity|].
  rewrite app_cons. simpl. destruct (p x); rewrite IH; reflexivity.
Qed.

End StrFacts.

(** ** The matcher *)

Module ReFacts.
Import Re StrFacts.
Local Open Scope nat_scope.

Lemma all_chars_app P (a b : string) :
  all_chars P (a +:+ b) = all_chars P a && all_chars P b.
Proof.
  induction a as [|x a IH]; [reflexivity|].
  rewrite app_cons. simpl. rewrite IH, andb_assoc. reflexivity.
Qed.

Lemma all_chars_mono (P Q : ascii -> bool) w :
  (forall a, P a = true -> Q a = true) ->
  all_chars P w = true -> all_chars Q w = true.
Proof.
  intros H. induction w as [|a w IH]; simpl; [reflexivity|].
  intros [Ha Hw]%andb_true_iff. rewrite (H _ Ha), (IH Hw). reflexivity.
Qed.

Lemma reach_refl P c : reach P c c.
Proof.
  exists EmptyString. simpl. split; [reflexivity|]. split; [lia|reflexivity].
Qed.

Lemma reach_trans P c1 c2 c3 : reach P c1 c2 -> reach P c2 c3 -> reach P c1 c3.
Proof.
  intros (w1 & E1 & L1 & A1) (w2 & E2 & L2 & A2). exists (w1 +:+ w2).
  rewrite app_assoc, <- E2, E1, length_app, all_chars_app, A1, A2.
  split; [reflexivity|]. split; [lia|reflexivity].
Qed.

Lemma reach_mono (P Q : ascii -> bool) c c1 :
  (forall a, P a = true -> Q a = true) -> reach P c c1 -> reach Q c c1.
Proof. intros H (w & E & L & A). exists w. eauto using all_chars_mono. Qed.

(** A repeat of a sound body is sound, whatever its bounds and mode. *)
Lemma rep_loop_sound P body lo greedy k :
  sound P body ->
  forall fuel count c res,
    rep_loop body lo greedy k fuel count c = Some res ->
    exists c1, reach P c c1 /\ k c1 = Some res.
Proof.
  intros Hb.
  assert (Hstop : forall count c res,
    (if lo <=? count then k c else None) = Some res ->
    exists c1, reach P c c1 /\ k c1 = Some res).
  { intros count c res H. destruct (lo <=? count); [|discriminate].
    exists c. split; [apply reach_refl|exact H]. }
  induction fuel as [|fuel IH]; intros count c res H.
  - destruct greedy; simpl in H.
    + eapply Hstop, H.
    + destruct (if lo <=? count then k c else None) eqn:E; [|discriminate].
      injection H as <-. eapply Hstop, E.
  - assert (Hmore : forall res,
      body (rep_loop body lo greedy k fuel (S count)) c = Some res ->
      exists c1, reach P c c1 /\ k c1 = Some res).
    { intros res' H'. apply Hb in H' as (c1 & R1 & H1).
      apply IH in H1 as (c2 & R2 & H2). exists c2. eauto using reach_trans. }
    destruct greedy; simpl in H.
    + destruct (body _ c) eqn:E.
      * injection H as <-. apply Hmore. reflexivity.
      * eapply Hstop, H.
    + destruct (if lo <=? count then k c else None) eqn:E.
      * injection H as <-. eapply Hstop, E.
      * apply Hmore, H.
Qed.

(** Whatever the matcher returns, it returns through its continuation,
    having consumed only characters of the pattern's classes. *)
Lemma run_sound r : sound (charset r) (run r).
Proof.
  induction r as [|p| |r1 IH1 r2 IH2|r1 IH1 r2 IH2|r IH lo hi g|n r IH];
    intros k c res H; simpl in H.
  - exists c. split; [apply reach_refl|exact H].
  - destruct c as [i pv s cs]. simpl in H. destruct s as [|a s]; [discriminate|].
    destruct (p a) eqn:Hp; [|discriminate].
    eexists. split; [|exact H].
    exists (String a EmptyString). simpl. rewrite Hp.
    split; [reflexivity|]. split; [lia|reflexivity].
  - destruct (at_boundary c); [|discriminate].
    exists c. split; [apply reach_refl|exact H].
  - apply IH1 in H as (c1 & R1 & H1). apply IH2 in H1 as (c2 & R2 & H2).
    exists c2. split; [|exact H2].
    eapply reach_trans; eapply reach_mono; try eassumption; simpl; intros a ->;
      [reflexivity|apply orb_true_r].
  - destruct (run r1 k c) eqn:E.
    + injection H as <-. apply IH1 in E as (c1 & R1 & H1).
      exists c1. split; [|exact H1].
      eapply reach_mono; [|exact R1]. simpl. intros a ->. reflexivity.
    + apply IH2 in H as (c1 & R1 & H1). exists c1. split; [|exact H1].
      eapply reach_mono; [|exact R1]. simpl. intros a ->. apply orb_true_r.
  - eapply rep_loop_sound; [exact IH|exact H].
  - apply IH in H as (c1 & R1 & H1). eexists. split; [|exact H1].
    destruct R1 as (w & E & L & A). exists w. simpl. auto.
Qed.

Lemma match_at_sound r i p s m :
  match_at r i p s = Some m ->
  m_start m = i /\
  exists w s', s = w +:+ s' /\ m_end m = i + Str.length w
               /\ all_chars (charset r) w = true.
Proof.
  unfold match_at. destruct (run r Some _) as [c|] eqn:E; [|discriminate].
  intros [= <-]. simpl. split; [reflexivity|].
  apply run_sound in E as (c1 & (w & E1 & L & A) & [= ->]). simpl in *.
  eauto.
Qed.

(** Every match that [finditer] reports was found by the matcher at its
    own start, on the text from there on. *)
Lemma finditer_from_inv r text : forall s i p skip m,
  Str.drop i text = s -> p = before text i ->
  m ∈ finditer_from r i p s skip ->
  match_at r (m_start m) (before text (m_start m)) (Str.drop (m_start m) text)
    = Some m.
Proof.
  induction s as [|a s IH]; intros i p skip m Hs Hp Hm.
  - destruct skip; simpl in Hm; [|inversion Hm].
    destruct (match_at r i p EmptyString) as [m'|] eqn:E; [|inversion Hm].
    apply list_elem_of_singleton in Hm as ->.
    pose proof (match_at_sound _ _ _ _ _ E) as [-> _].
    rewrite Hs, <- Hp. exact E.
  - assert (Hnext : forall skip', m ∈ finditer_from r (S i) (Some a) s skip' ->
      match_at r (m_start m) (before text (m_start m))
        (Str.drop (m_start m) text) = Some m).
    { intros skip'. apply IH; [eapply drop_succ, Hs|].
      simpl. rewrite Hs. reflexivity. }
    destruct skip; simpl in Hm; [|eapply Hnext, Hm].
    destruct (match_at r i p (String a s)) as [m'|] eqn:E; [|eapply Hnext, Hm].
    apply elem_of_cons in Hm as [->|Hm]; [|eapply Hnext, Hm].
    pose proof (match_at_sound _ _ _ _ _ E) as [-> _].
    rewrite Hs, <- Hp. exact E.
Qed.

Lemma finditer_inv r text m :
  m ∈ finditer r text ->
  match_at r (m_start m) (before text (m_start m)) (Str.drop (m_start m) text)
    = Some m.
Proof. apply finditer_from_inv; reflexivity. Qed.

(** The token of a reported match is what the matcher consumed. *)
Lemma finditer_group0 r text m :
  m ∈ finditer r text ->
  all_chars (charset r) (group0 text m) = true /\
  m_end m = m_start m + Str.length (group0 text m) /\
  exists s', Str.drop (m_start m) text = group0 text m +:+ s'.
Proof.
  intros Hm. apply finditer_inv in Hm.
  apply match_at_sound in Hm as (_ & w & s' & Hs & He & Hw).
  unfold group0, Str.slice. rewrite Hs, He.
  replace (m_start m + Str.length w - m_start m) with (Str.length w) by lia.
  rewrite take_app. eauto.
Qed.

(** An open-ended repeat of a character class never runs out of
    iterations: any bound from the length of the remaining text on gives
    the same result. *)
Lemma open_repeat_fuel p lo greedy k : forall n m count c,
  Str.length (rest c) <= n -> Str.length (rest c) <= m ->
  rep_loop (run (Cls p)) lo greedy k n count c =
  rep_loop (run (Cls p)) lo greedy k m count c.
Proof.
  assert (Hend : forall n count c, rest c = EmptyString ->
    rep_loop (run (Cls p)) lo greedy k n count c =
    if lo <=? count then k c else None).
  { intros n count c Hc. destruct n, greedy; simpl; rewrite ?Hc;
      destruct (if lo <=? count then k c else None); reflexivity. }
  induction n as [|n IH]; intros m count c Hn Hm.
  - assert (Hc : rest c = EmptyString) by (destruct (rest c); [reflexivity|simpl in Hn; lia]).
    rewrite !Hend by exact Hc. reflexivity.
  - destruct m as [|m].
    + assert (Hc : rest c = EmptyString) by (destruct (rest c); [reflexivity|simpl in Hm; lia]).
      rewrite !Hend by exact Hc. reflexivity.
    + assert (Hmore : run (Cls p) (rep_loop (run (Cls p)) lo greedy k n (S count)) c
                    = run (Cls p) (rep_loop (run (Cls p)) lo greedy k m (S count)) c).
      { cbn [run]. destruct (rest c) as [|a s] eqn:Hc; [reflexivity|].
        destruct (p a); [|reflexivity]. simpl in Hn, Hm. apply IH; simpl; lia. }
      destruct greedy; cbn [rep_loop]; rewrite Hmore; reflexivity.
Qed.

(** *** Digit runs *)

Lemma digit_is_word a : Chr.is_digit a = true -> Chr.is_word a = true.
Proof.
  unfold Chr.is_word, Chr.is_alnum. intros ->. rewrite orb_true_r. reflexivity.
Qed.

Lemma rep_loop_greedy body lo k fuel count c :
  rep_loop body lo true k fuel count c =
    match
      match fuel with
      | S fuel' => body (rep_loop body lo true k fuel' (S count)) c
      | O => None
      end
    with
    | Some c' => Some c'
    | None => if (lo <=? count)%nat then k c else None
    end.
Proof. destruct fuel; reflexivity. Qed.

Lemma stop_inside_run lo count i p a s cs :
  count < lo \/ word_at p = true ->
  Chr.is_digit a = true ->
  (if lo <=? count then kB (Cursor i p (String a s) cs) else None) = None.
Proof.
  intros Hp Ha. destruct (lo <=? count) eqn:Hlo; [|reflexivity].
  apply Nat.leb_le in Hlo. destruct Hp as [Hp|Hp]; [lia|].
  unfold kB. simpl. unfold at_boundary. simpl.
  rewrite Hp, (digit_is_word _ Ha). reflexivity.
Qed.

Lemma stop_outside_run lo count c :
  (if lo <=? count then kB c else None) =
  (if (0 <=? 0) && (lo <=? count + 0) && at_boundary c then Some c else None).
Proof.
  rewrite Nat.add_0_r. unfold kB. simpl.
  destruct (lo <=? count), (at_boundary c); reflexivity.
Qed.

Lemma rep_digits lo : forall fuel s count i p cs,
  count < lo \/ word_at p = true ->
  rep_loop (run digit) lo true kB fuel count (Cursor i p s cs) =
    let d := run_len s in
    let c' := eat d (Cursor i p s cs) in
    if (d <=? fuel) && (lo <=? count + d) && at_boundary c'
    then Some c' else None.
Proof.
  induction fuel as [|fuel IH]; intros s count i p cs Hp;
    rewrite rep_loop_greedy; cbn zeta;
    destruct s as [|a s]; cbn [run_len run digit rest pos caps].
  - apply stop_outside_run.
  - destruct (Chr.is_digit a) eqn:Ha.
    + rewrite stop_inside_run by assumption. reflexivity.
    + apply stop_outside_run.
  - apply stop_outside_run.
  - destruct (Chr.is_digit a) eqn:Ha.
    + rewrite IH by (right; apply digit_is_word, Ha). cbn zeta.
      cbn [eat rest pos caps]. rewrite Nat.add_succ_r. cbn [Nat.leb Nat.add].
      destruct (_ && _ && _); [reflexivity|].
      apply stop_inside_run; assumption.
    + apply stop_outside_run.
Qed.

Lemma eat_pos : forall n c, n <= Str.length (rest c) -> pos (eat n c) = pos c + n.
Proof.
  induction n as [|n IH]; intros [i p s cs] Hn; simpl in *.
  - lia.
  - destruct s as [|a s]; simpl in *; [lia|]. rewrite IH; simpl; lia.
Qed.
Lemma eat_caps : forall n c, caps (eat n c) = caps c.
Proof.
  induction n as [|n IH]; intros [i p s cs]; simpl; [reflexivity|].
  destruct s; [reflexivity|]. rewrite IH. reflexivity.
Qed.
Lemma eat_rest : forall n c, rest (eat n c) = Str.drop n (rest c).
Proof.
  induction n as [|n IH]; intros [i p s cs]; simpl; [reflexivity|].
  destruct s; [reflexivity|]. rewrite IH. reflexivity.
Qed.
Lemma run_len_le s : run_len s <= Str.length s.
Proof. induction s as [|a s IH]; simpl; [lia|]. destruct (Chr.is_digit a); lia. Qed.

Lemma eat_run_prev : forall s i p cs, 0 < run_len s ->
  word_at (prev (eat (run_len s) (Cursor i p s cs))) = true.
Proof.
  induction s as [|a s IH]; intros i p cs Hd; simpl in *; [lia|].
  destruct (Chr.is_digit a) eqn:Ha; [|lia]. simpl.
  destruct (decide (run_len s = 0)) as [E|E].
  - rewrite E. simpl. apply digit_is_word, Ha.
  - apply IH. lia.
Qed.

Lemma digit_run_match lo hi i p s :
  0 < lo ->
  match_at (seq [WordB; range digit lo hi; WordB]) i p s = digit_run_at lo hi i p s.
Proof.
  intros Hlo. unfold match_at, digit_run_at. cbn [seq run range].
  fold kB. rewrite rep_digits by (left; lia). cbn zeta.
  unfold at_boundary at 1. cbn [prev rest].
  rewrite Nat.add_0_l.
  destruct (run_len s) as [|d] eqn:Hd.
  - replace (lo <=? 0) with false by (symmetry; apply Nat.leb_gt; lia).
    rewrite !andb_false_r. simpl. destruct (xorb _ _); reflexivity.
  - assert (Hw : word_at (next s) = true).
    { destruct s as [|a s]; simpl in *; [discriminate|].
      destruct (Chr.is_digit a) eqn:Ha; [|discriminate]. apply digit_is_word, Ha. }
    rewrite Hw. rewrite <- Hd. unfold at_boundary.
    rewrite eat_run_prev by lia. rewrite eat_rest. cbn [rest].
    destruct (word_at p); simpl; [reflexivity|].
    destruct (run_len s <=? hi), (lo <=? run_len s),
      (word_at (next (Str.drop (run_len s) s))); simpl; try reflexivity.
    rewrite eat_pos, eat_caps by (simpl; apply run_len_le). reflexivity.
Qed.


Lemma digit_run_at_Some lo hi i p s m :
  digit_run_at lo hi i p s = Some m ->
  word_at p = false /\ lo <= run_len s <= hi /\ m = Match i (i + run_len s) [].
Proof.
  unfold digit_run_at. destruct (word_at p); simpl; [discriminate|].
  destruct (lo <=? run_len s) eqn:E1; simpl; [|discriminate].
  destruct (run_len s <=? hi) eqn:E2; simpl; [|discriminate].
  destruct (word_at _); simpl; [discriminate|]. intros [= <-].
  apply Nat.leb_le in E1, E2. auto.
Qed.






End ReFacts.

(** ** The scanner *)

Module DlpFacts.
Import Re StrFacts ReFacts Dlp.
Local Open Scope nat_scope.

(** *** The hit lists of each detector *)

Lemma record_hits_lookup text name m spans acc k :
  (record_hits text name m spans acc).1 !! k =
    if decide (name = k /\ m <> []) then Some m else acc.1 !! k.
Proof.
  unfold record_hits. destruct m as [|x m]; simpl.
  - case_decide as H; [destruct H; congruence|reflexivity].
  - rewrite lookup_insert. case_decide as H1; case_decide as H2; try reflexivity.
    + exfalso. apply H2. split; [assumption|discriminate].
    + destruct H2. contradiction.
Qed.

Lemma detect_group0_lookup text acc d k :
  (detect_group0 text acc d).1 !! k =
    if decide (d.1 = k /\ group0 text <$> finditer d.2 text <> [])
    then Some (group0 text <$> finditer d.2 text) else acc.1 !! k.
Proof. unfold detect_group0. apply record_hits_lookup. Qed.

Lemma decide_key {A : Type} (name : string) (l : list A) (o : option (list A)) :
  (if decide (name = name /\ l <> []) then Some l else o) =
  match l with [] => o | _ => Some l end.
Proof.
  destruct l; case_decide as H; try reflexivity.
  - destruct H; congruence.
  - exfalso. apply H. split; [reflexivity|discriminate].
Qed.

Ltac other_key :=
  let H := fresh "Hkey" in
  destruct (decide _) as [[H _]|_]; [discriminate H|].

Ltac find_key :=
  unfold detect_all; cbn [foldl];
  repeat first [rewrite record_hits_lookup | rewrite detect_group0_lookup];
  cbn [fst snd];
  repeat other_key; rewrite decide_key; repeat other_key;
  rewrite ?lookup_empty; unfold if_any.



Lemma detect_cvv text :
  (detect_all text).1 !! "cvv" =
    if_any (group0 text <$> List.filter (cvv_near_card text) (finditer CVV_RE text)).
Proof. find_key. reflexivity. Qed.

Lemma detect_credit_card text :
  (detect_all text).1 !! "credit_card" =
    if_any ((fun m => strip_separators (group0 text m)) <$>
            List.filter (fun m => _luhn_check (strip_separators (group0 text m)))
              (finditer CC_RE text)).
Proof. find_key. reflexivity. Qed.

Lemma if_any_Some {A : Type} (l l' : list A) : if_any l = Some l' -> l' = l /\ l <> [].
Proof. destruct l; simpl; [discriminate|]. intros [= <-]. split; [reflexivity|discriminate]. Qed.

(** *** What [scan_text] returns *)
Lemma scan_text_inv M text f :
  scan_text M text = Ok (Some f) ->
  text <> EmptyString /\
  hits f = (detect_all text).1 /\
  snippets f = (detect_all text).2 /\
  exists ctx, context_score M text = Ok ctx /\
    ctx_score f = py_round3 ctx /\
    (hits f = ∅ -> confidence f = "low" /\ risk_score f = 0%Z /\ risk_label_of f = "Low") /\
    (hits f <> ∅ ->
       confidence f = (if 2 <=? keyword_hits text then "high" else "medium") /\
       risk_score f = compute_risk_score (hits f) (confidence f) ctx /\
       risk_label_of f = risk_label (risk_score f)).
Proof.
  unfold scan_text. case_bool_decide as Ht; [discriminate|].
  destruct (detect_all text) as [h sn] eqn:Hd.
  destruct (context_score M text) as [ctx|e] eqn:Hc; simpl; [|discriminate].
  case_bool_decide as Hh; intros [= <-]; simpl;
    (split; [exact Ht|]; split; [reflexivity|]; split; [reflexivity|]);
    exists ctx; (split; [reflexivity|]); (split; [reflexivity|]); split; intros H; try contradiction; auto.
Qed.

Lemma scan_text_ok M text ctx :
  text <> EmptyString -> context_score M text = Ok ctx ->
  exists f, scan_text M text = Ok (Some f).
Proof.
  intros Ht Hc. unfold scan_text. rewrite bool_decide_eq_false_2 by exact Ht.
  destruct (detect_all text) as [h sn]. rewrite Hc. simpl.
  destruct (bool_decide (h = ∅)); eauto.
Qed.



Lemma scan_file_hits M fs path f :
  scan_file M fs path = Ok (Some f) ->
  hits f = (detect_all (_read_file_safe fs path)).1.
Proof. intros H. apply scan_text_inv in H. tauto. Qed.

(** the tokens of the digit-run detectors *)
Lemma digit_run_token lo hi text m :
  0 < lo ->
  m ∈ finditer (seq [WordB; range digit lo hi; WordB]) text ->
  lo <= Str.length (group0 text m) <= hi /\
  all_chars Chr.is_digit (group0 text m) = true /\
  m_end m = m_start m + Str.length (group0 text m).
Proof.
  intros Hlo Hm.
  pose proof (finditer_group0 _ _ _ Hm) as (Hc & He & _).
  apply finditer_inv in Hm. rewrite digit_run_match in Hm by exact Hlo.
  apply digit_run_at_Some in Hm as (_ & Hd & Hm).
  apply (f_equal m_end) in Hm. simpl in Hm.
  split; [lia|]. split; [|exact He].
  eapply all_chars_mono; [|exact Hc]. simpl. intros a.
  destruct (Chr.is_digit a); reflexivity || discriminate.
Qed.

Lemma to_list_length s : length (Str.to_list s) = Str.length s.
Proof. induction s as [|a s IH]; simpl; [reflexivity|]. rewrite IH. reflexivity. Qed.

Lemma luhn_check_length s :
  _luhn_check s = true -> 13 <= Str.length (strip_non_digits s) <= 19.
Proof.
  unfold _luhn_check. rewrite length_fmap, to_list_length.
  destruct (Str.length (strip_non_digits s) <? 13) eqn:E1; [discriminate|].
  destruct (19 <? Str.length (strip_non_digits s)) eqn:E2; [discriminate|].
  apply Nat.ltb_ge in E1, E2. lia.
Qed.

Lemma filter_all p w : all_chars p w = true -> Str.filter p w = w.
Proof.
  induction w as [|a w IH]; simpl; [reflexivity|].
  intros [Ha Hw]%andb_true_iff. rewrite Ha, IH by exact Hw. reflexivity.
Qed.

Lemma all_chars_filter (p q : ascii -> bool) w :
  (forall a, q a = true -> p a = true) -> all_chars p (Str.filter q w) = true.
Proof.
  intros H. induction w as [|a w IH]; simpl; [reflexivity|].
  destruct (q a) eqn:Hq; [|exact IH]. simpl. rewrite (H _ Hq), IH. reflexivity.
Qed.

Lemma filter_filter (p q : ascii -> bool) w :
  (forall a, p a = true -> q a = true) ->
  Str.filter p (Str.filter q w) = Str.filter p w.
Proof.
  intros H. induction w as [|a w IH]; simpl; [reflexivity|].
  destruct (q a) eqn:Hq; simpl.
  - destruct (p a); rewrite IH; reflexivity.
  - destruct (p a) eqn:Hp; [|exact IH]. rewrite (H _ Hp) in Hq. discriminate.
Qed.

Lemma digit_not_separator a : Chr.is_digit a = true -> negb (Chr.one_of " -" a) = true.
Proof.
  destruct a as [[] [] [] [] [] [] [] []]; vm_compute; congruence.
Qed.

Lemma stripped_candidate_digits w :
  all_chars (fun a => Chr.is_digit a || Chr.one_of " -" a) w = true ->
  all_chars Chr.is_digit (strip_separators w) = true.
Proof.
  unfold strip_separators.
  induction w as [|a w IH]; cbn [all_chars Str.filter]; [reflexivity|].
  intros [Ha Hw]%andb_true_iff.
  destruct (Chr.one_of " -" a) eqn:Hs; cbn [negb all_chars]; [apply IH, Hw|].
  rewrite orb_false_r in Ha. rewrite Ha. apply IH, Hw.
Qed.

(** *** The Luhn checksum *)

Section Luhn.
Local Open Scope Z_scope.

Lemma parity_next (i parity : nat) :
  (parity < 2)%nat ->
  (S i mod 2 =? parity)%nat = negb (i mod 2 =? parity)%nat.
Proof.
  intros Hp.
  assert (H : (S i mod 2 = 1 - i mod 2)%nat).
  { replace (S i) with (1 + i)%nat by lia.
    rewrite Nat.Div0.add_mod by lia.
    pose proof (Nat.mod_upper_bound i 2 ltac:(lia)) as Hb.
    destruct (i mod 2)%nat as [|[|n]] eqn:E; simpl; try reflexivity; lia. }
  rewrite H. pose proof (Nat.mod_upper_bound i 2 ltac:(lia)) as Hb.
  destruct (i mod 2)%nat as [|[|n]]; destruct parity as [|[|p]]; simpl; try reflexivity; lia.
Qed.

Lemma luhn_loop_left parity : (parity < 2)%nat ->
  forall digits i checksum,
    luhn_loop parity i digits checksum =
    checksum + Spec.luhn_sum_from_left digits (i mod 2 =? parity)%nat.
Proof.
  intros Hp. induction digits as [|d ds IH]; intros i checksum;
    cbn [luhn_loop Spec.luhn_sum_from_left].
  - lia.
  - cbn zeta. rewrite IH, parity_next by exact Hp.
    unfold Spec.luhn_digit. replace (2 * d) with (d * 2) by lia.
    destruct (i mod 2 =? parity)%nat; cbn [negb]; [destruct (9 <? d * 2)|]; lia.
Qed.

Lemma luhn_right_app : forall xs d second,
  Spec.luhn_sum_from_right (xs ++ [d]) second =
  Spec.luhn_sum_from_right xs second
  + Spec.luhn_digit (xorb second (Nat.odd (length xs))) d.
Proof.
  induction xs as [|x xs IH]; intros d second;
    cbn [app Spec.luhn_sum_from_right length].
  - change (Nat.odd 0) with false. rewrite xorb_false_r. lia.
  - rewrite IH. rewrite Nat.odd_succ, <- Nat.negb_odd.
    replace (xorb (negb second) (Nat.odd (length xs)))
      with (xorb second (negb (Nat.odd (length xs))))
      by (destruct second, (Nat.odd (length xs)); reflexivity).
    lia.
Qed.

Lemma luhn_left_right : forall digits double,
  Spec.luhn_sum_from_left digits double =
  Spec.luhn_sum_from_right (rev digits) (xorb double (Nat.even (length digits))).
Proof.
  induction digits as [|d ds IH]; intros double;
    cbn [Spec.luhn_sum_from_left rev length]; [reflexivity|].
  rewrite luhn_right_app, IH, length_rev.
  rewrite Nat.even_succ.
  replace (xorb (xorb double (Nat.odd (length ds))) (Nat.odd (length ds))) with double
    by (destruct double, (Nat.odd (length ds)); reflexivity).
  rewrite <- Nat.negb_odd.
  replace (xorb (negb double) (negb (Nat.odd (length ds))))
    with (xorb double (Nat.odd (length ds)))
    by (destruct double, (Nat.odd (length ds)); reflexivity).
  lia.
Qed.

Lemma even_mod2 (n : nat) : (0 mod 2 =? n mod 2)%nat = Nat.even n.
Proof.
  rewrite (Nat.div_mod_eq n 2) at 2.
  rewrite Nat.add_comm, Nat.even_add_mul_2.
  pose proof (Nat.mod_upper_bound n 2 ltac:(lia)) as Hb.
  destruct (n mod 2)%nat as [|[|k]]; [reflexivity|reflexivity|lia].
Qed.

Lemma luhn_check_spec number_str :
  let digits := Chr.digit_val <$> Str.to_list (strip_non_digits number_str) in
  _luhn_check number_str =
    (13 <=? length digits)%nat && (length digits <=? 19)%nat && Spec.luhn_valid digits.
Proof.
  cbn zeta. unfold _luhn_check, Spec.luhn_valid.
  set (digits := Chr.digit_val <$> Str.to_list (strip_non_digits number_str)).
  destruct (length digits <? 13)%nat eqn:E1.
  { apply Nat.ltb_lt in E1.
    replace (13 <=? length digits)%nat with false by (symmetry; apply Nat.leb_gt; lia).
    reflexivity. }
  apply Nat.ltb_ge in E1.
  replace (13 <=? length digits)%nat with true by (symmetry; apply Nat.leb_le; lia).
  destruct (19 <? length digits)%nat eqn:E2.
  { apply Nat.ltb_lt in E2.
    replace (length digits <=? 19)%nat with false by (symmetry; apply Nat.leb_gt; lia).
    reflexivity. }
  apply Nat.ltb_ge in E2.
  replace (length digits <=? 19)%nat with true by (symmetry; apply Nat.leb_le; lia).
  cbn [orb andb].
  rewrite luhn_loop_left by (apply Nat.mod_upper_bound; lia).
  rewrite luhn_left_right, even_mod2, Z.add_0_l.
  destruct (Nat.even (length digits)); reflexivity.
Qed.

End Luhn.

(** *** Card numbers in context *)

Lemma rep_loop_lazy body lo k fuel count c :
  rep_loop body lo false k fuel count c =
    match (if (lo <=? count)%nat then k c else None) with
    | Some c' => Some c'
    | None =>
        match fuel with
        | S fuel' => body (rep_loop body lo false k fuel' (S count)) c
        | O => None
        end
    end.
Proof. destruct fuel; reflexivity. Qed.

(** A group of the card pattern takes a digit and, when the rest of the
    pattern can go on from there, no separator. *)
Lemma cc_group_digit k i p a s cs res :
  Chr.is_digit a = true ->
  k (Cursor (S i) (Some a) s cs) = Some res ->
  run cc_group k (Cursor i p (String a s) cs) = Some res.
Proof.
  intros Ha Hk. unfold cc_group, lazy_star. cbn [run digit rest pos caps].
  rewrite Ha. rewrite rep_loop_lazy. cbn [Nat.leb]. rewrite Hk. reflexivity.
Qed.

Lemma cc_group_other k i p s cs :
  Chr.is_digit (default "000"%char (next s)) = false \/ s = EmptyString ->
  run cc_group k (Cursor i p s cs) = None.
Proof.
  intros H. unfold cc_group. cbn [run digit rest].
  destruct s as [|a s]; [reflexivity|].
  destruct H as [H|H]; [|discriminate]. simpl in H. rewrite H. reflexivity.
Qed.

Lemma run_len_0 s : run_len s = 0 ->
  Chr.is_digit (default "000"%char (next s)) = false \/ s = EmptyString.
Proof.
  destruct s as [|a s]; [auto|]. simpl. destruct (Chr.is_digit a); [discriminate|auto].
Qed.

Lemma cc_run lo : forall fuel s count i p cs,
  let d := run_len s in
  let c' := eat d (Cursor i p s cs) in
  d <= fuel -> lo <= count + d -> at_boundary c' = true ->
  rep_loop (run cc_group) lo true kB fuel count (Cursor i p s cs) = Some c'.
Proof.
  induction fuel as [|fuel IH]; intros s count i p cs d c' Hd Hlo Hb;
    rewrite rep_loop_greedy.
  - assert (d = 0) as Hd0 by lia. subst c'. rewrite Hd0 in *. simpl in Hb |- *.
    replace (lo <=? count) with true by (symmetry; apply Nat.leb_le; lia).
    unfold kB. simpl. rewrite Hb. reflexivity.
  - destruct d as [|d'] eqn:Ed; subst c'.
    + rewrite cc_group_other by (apply run_len_0; exact Ed). simpl in Hb |- *.
      replace (lo <=? count) with true by (symmetry; apply Nat.leb_le; lia).
      unfold kB. simpl. rewrite Hb. reflexivity.
    + destruct s as [|a s]; [discriminate|]. unfold d in Ed. simpl in Ed.
      destruct (Chr.is_digit a) eqn:Ha; [|discriminate]. injection Ed as Ed.
      cbn [eat rest pos caps] in Hb |- *.
      rewrite (cc_group_digit _ _ _ _ _ _ (eat d' (Cursor (S i) (Some a) s cs)) Ha).
      * reflexivity.
      * rewrite <- Ed in *. apply IH; [lia|lia|exact Hb].
Qed.

Lemma cc_match_run i p s :
  word_at p = false ->
  13 <= run_len s <= 19 ->
  word_at (next (Str.drop (run_len s) s)) = false ->
  match_at CC_RE i p s = Some (Match i (i + run_len s) []).
Proof.
  intros Hp Hd Hn. unfold match_at, CC_RE. cbn [seq run range]. fold cc_group kB.
  assert (Hw : word_at (next s) = true).
  { destruct s as [|a s]; simpl in *; [lia|].
    destruct (Chr.is_digit a) eqn:Ha; [apply digit_is_word, Ha|lia]. }
  unfold at_boundary at 1. cbn [prev rest]. rewrite Hp, Hw. cbn [xorb].
  rewrite cc_run.
  - rewrite eat_pos, eat_caps by (simpl; apply run_len_le). reflexivity.
  - lia.
  - lia.
  - unfold at_boundary. rewrite eat_run_prev by lia. rewrite eat_rest. cbn [rest].
    rewrite Hn. reflexivity.
Qed.

Lemma cc_no_match_off_digit i p a s :
  Chr.is_digit a = false -> match_at CC_RE i p (String a s) = None.
Proof.
  intros Ha. unfold match_at, CC_RE. cbn [seq run range]. fold cc_group kB.
  destruct (at_boundary _); [|reflexivity].
  rewrite rep_loop_greedy. cbv iota beta.
  rewrite cc_group_other by (left; exact Ha). reflexivity.
Qed.

(** Scanning over a stretch without digits finds nothing. *)
Lemma cc_scan_past : forall pre i p s,
  all_chars (fun a => negb (Chr.is_digit a)) pre = true ->
  finditer_from CC_RE i p (pre +:+ s) 0 =
  finditer_from CC_RE (i + Str.length pre) (last_after p pre) s 0.
Proof.
  induction pre as [|a pre IH]; intros i p s Hpre.
  - rewrite app_nil, Nat.add_0_r. reflexivity.
  - simpl in Hpre. apply andb_true_iff in Hpre as [Ha Hpre]. apply negb_true_iff in Ha.
    rewrite app_cons. cbn [finditer_from].
    rewrite cc_no_match_off_digit by exact Ha.
    rewrite IH by exact Hpre. cbn [Str.length last_after].
    replace (S i + Str.length pre) with (i + S (Str.length pre)) by lia. reflexivity.
Qed.

Lemma run_len_digits num post :
  all_chars Chr.is_digit num = true ->
  Chr.is_digit (default "000"%char (next post)) = false \/ post = EmptyString ->
  run_len (num +:+ post) = Str.length num.
Proof.
  intros Hnum Hpost. induction num as [|a num IH].
  - rewrite app_nil. destruct post as [|b post]; [reflexivity|].
    destruct Hpost as [H|H]; [|discriminate]. simpl in *. rewrite H. reflexivity.
  - simpl in Hnum. apply andb_true_iff in Hnum as [Ha Hnum].
    rewrite app_cons. simpl. rewrite Ha, IH by exact Hnum. reflexivity.
Qed.

Lemma not_word_not_digit o :
  word_at o = false -> Chr.is_digit (default "000"%char o) = false \/ o = None.
Proof.
  destruct o as [a|]; [|auto]. simpl. intros Hw. left.
  destruct (Chr.is_digit a) eqn:Ha; [|reflexivity].
  rewrite (digit_is_word _ Ha) in Hw. discriminate.
Qed.

(** A card number that stands as a word of its own, with no digit before it
    in the text, is the first credit-card hit. *)
Lemma cc_finds_card_number pre num post :
  all_chars (fun a => negb (Chr.is_digit a)) pre = true ->
  word_at (last_after None pre) = false ->
  all_chars Chr.is_digit num = true ->
  _luhn_check num = true ->
  word_at (next post) = false ->
  exists more,
    (detect_all (pre +:+ num +:+ post)).1 !! "credit_card" = Some (num :: more).
Proof.
  intros Hpre Hlast Hnum Hluhn Hpost.
  set (text := pre +:+ num +:+ post).
  assert (Hlen : 13 <= Str.length num <= 19).
  { apply luhn_check_length in Hluhn. unfold strip_non_digits in Hluhn.
    rewrite filter_all in Hluhn by exact Hnum. exact Hluhn. }
  assert (Hrun : run_len (num +:+ post) = Str.length num).
  { apply run_len_digits; [exact Hnum|].
    destruct (not_word_not_digit _ Hpost) as [H|H]; [left; exact H|right].
    destruct post; [reflexivity|discriminate]. }
  assert (Hm : match_at CC_RE (Str.length pre) (last_after None pre) (num +:+ post)
               = Some (Match (Str.length pre) (Str.length pre + Str.length num) [])).
  { rewrite <- Hrun. apply cc_match_run; [exact Hlast|rewrite Hrun; exact Hlen|].
    rewrite Hrun, drop_app. exact Hpost. }
  assert (Hfind : exists ms, finditer CC_RE text
      = Match (Str.length pre) (Str.length pre + Str.length num) [] :: ms).
  { unfold finditer, text. rewrite cc_scan_past by exact Hpre.
    change (0 + Str.length pre) with (Str.length pre).
    clear Hrun. remember (num +:+ post) as body eqn:E in *.
    destruct body; cbn [finditer_from]; rewrite Hm; eauto. }
  destruct Hfind as [ms Hfind].
  assert (Hg : group0 text (Match (Str.length pre) (Str.length pre + Str.length num) []) = num).
  { unfold group0, Str.slice, text. cbn [m_start m_end].
    rewrite drop_app.
    replace (Str.length pre + Str.length num - Str.length pre) with (Str.length num) by lia.
    apply take_app. }
  assert (Hs : strip_separators num = num).
  { unfold strip_separators. apply filter_all.
    eapply all_chars_mono; [|exact Hnum]. apply digit_not_separator. }
  rewrite detect_credit_card. fold text. rewrite Hfind.
  cbn [List.filter]. rewrite Hg, Hs, Hluhn. cbn [fmap list_fmap]. rewrite Hg, Hs.
  eexists. reflexivity.
Qed.

(** *** Scanning a tree *)

Lemma scan_step_stored M fs results p :
  scan_step M fs results p =
    match stored M fs p with
    | Some res => <[p := res]> results
    | None => results
    end.
Proof.
  unfold scan_step, stored. destruct (is_file fs p); simpl; [|reflexivity].
  destruct (scan_file M fs p) as [[res|]|e]; reflexivity.
Qed.

Lemma scan_step_lookup M fs results x p :
  scan_step M fs results x !! p =
    match (if decide (x = p) then stored M fs p else None) with
    | Some res => Some res
    | None => results !! p
    end.
Proof.
  rewrite scan_step_stored. destruct (decide (x = p)) as [->|Hx].
  - destruct (stored M fs p); [apply lookup_insert_eq|reflexivity].
  - destruct (stored M fs x); [apply lookup_insert_ne; exact Hx|reflexivity].
Qed.

Lemma scan_fold_lookup M fs : forall l results p,
  foldl (scan_step M fs) results l !! p =
    match (if decide (p ∈ l) then stored M fs p else None) with
    | Some res => Some res
    | None => results !! p
    end.
Proof.
  induction l as [|x l IH]; intros results p.
  - cbn [foldl]. rewrite decide_False by apply not_elem_of_nil. reflexivity.
  - cbn [foldl]. rewrite IH, scan_step_lookup.
    destruct (decide (p ∈ l)) as [Hl|Hl].
    + rewrite (decide_True (P := p ∈ x :: l)) by (right; exact Hl).
      destruct (stored M fs p); [reflexivity|].
      destruct (decide (x = p)); reflexivity.
    + destruct (decide (x = p)) as [->|Hx].
      * rewrite (decide_True (P := p ∈ p :: l)) by left. reflexivity.
      * rewrite (decide_False (P := p ∈ x :: l))
          by (intros [?|?]%elem_of_cons; congruence).
        reflexivity.
Qed.

Lemma rglob_missing fs root : exists_ fs root = false -> rglob fs root = [].
Proof.
  unfold exists_, rglob, is_dir. intros H%bool_decide_eq_false.
  destruct (fs !! root) as [[]|]; try reflexivity. exfalso. apply H. eauto.
Qed.

Lemma scan_directory_fold M fs root :
  scan_directory M fs root = Ok (foldl (scan_step M fs) ∅ (rglob fs root)).
Proof.
  unfold scan_directory. destruct (exists_ fs root) eqn:E; simpl; [reflexivity|].
  rewrite rglob_missing by exact E. reflexivity.
Qed.

Lemma scan_directory_lookup M fs root results p :
  scan_directory M fs root = Ok results ->
  results !! p = if decide (p ∈ rglob fs root) then stored M fs p else None.
Proof.
  rewrite scan_directory_fold. intros [= <-]. rewrite scan_fold_lookup, lookup_empty.
  case_decide; [|reflexivity]. destruct (stored M fs p); reflexivity.
Qed.

Lemma stored_Some M fs p f :
  stored M fs p = Some f <-> is_file fs p = true /\ scan_file M fs p = Ok (Some f).
Proof.
  unfold stored. destruct (is_file fs p).
  - destruct (scan_file M fs p) as [[res|]|e]; split.
    + intros [= ->]. auto.
    + intros [_ [= ->]]. reflexivity.
    + discriminate.
    + intros [_ [=]].
    + discriminate.
    + intros [_ [=]].
  - split; [discriminate|intros [[=] _]].
Qed.

Lemma unreadable_not_stored M fs p e :
  read_bytes fs p = Err e -> stored M fs p = None.
Proof.
  intros H. unfold stored, scan_file, _read_file_safe. rewrite H.
  destruct (is_file fs p); reflexivity.
Qed.

Lemma failing_not_stored M fs p e :
  scan_file M fs p = Err e -> stored M fs p = None.
Proof. intros H. unfold stored. rewrite H. destruct (is_file fs p); reflexivity. Qed.

Lemma map_empty_lookup {A : Type} (m : gmap string A) : (forall p, m !! p = None) -> m = ∅.
Proof. intros H. apply map_eq. intros p. rewrite H, lookup_empty. reflexivity. Qed.

Lemma rglob_empty_dir fs root : empty_dir fs root -> rglob fs root = [].
Proof.
  intros [Hd He]. unfold rglob. rewrite Hd.
  destruct (List.filter (below root) (map_to_list fs).*1) as [|p l] eqn:E; [reflexivity|].
  assert (Hp : In p (List.filter (below root) (map_to_list fs).*1)) by (rewrite E; left; reflexivity).
  apply filter_In in Hp as [Hp Hb]. apply list_elem_of_In, list_elem_of_fmap in Hp as ([q n] & -> & Hq).
  apply elem_of_map_to_list in Hq. simpl in *. rewrite (He _ Hb) in Hq. discriminate.
Qed.

(** *** Risk scoring *)

Section Risk.
Local Open Scope Z_scope.






Lemma risk_label_cases (score : Z) :
  (risk_label score = "High" <-> 70 <= score) /\
  (risk_label score = "Medium" <-> 35 <= score < 70) /\
  (risk_label score = "Low" <-> score < 35).
Proof.
  unfold risk_label.
  destruct (70 <=? score) eqn:E1; [apply Z.leb_le in E1|apply Z.leb_gt in E1];
    [|destruct (35 <=? score) eqn:E2; [apply Z.leb_le in E2|apply Z.leb_gt in E2]];
    repeat split; intros; try discriminate; try lia.
Qed.

End Risk.

End DlpFacts.

(** ** The key store *)

Module CryptoFacts.
Import StrFacts Dlp Crypto.

Ltac io_inv :=
  let H := fresh in
  intros H; first [discriminate H | injection H as <- <-].

Section WithFernet.
Context {F : Fernet}.

Lemma exists_insert fs p n q :
  exists_ (<[p := n]> fs) q = bool_decide (p = q) || exists_ fs q.
Proof.
  unfold exists_. rewrite lookup_insert. destruct (decide (p = q)) as [->|Hne].
  - rewrite (bool_decide_eq_true_2 (q = q)) by reflexivity. simpl.
    first [reflexivity | apply bool_decide_eq_true_2; eauto].
  - rewrite (bool_decide_eq_false_2 (p = q)) by assumption. reflexivity.
Qed.

Lemma exists_true fs p : exists_ fs p = true <-> is_Some (fs !! p).
Proof. unfold exists_. apply bool_decide_eq_true. Qed.

Lemma is_file_exists fs p : is_file fs p = true -> exists_ fs p = true.
Proof.
  unfold is_file. intros H. apply exists_true.
  destruct (fs !! p) as [[]|]; try discriminate; eauto.
Qed.

(** Once the key is in place, fetching it changes nothing. *)
Lemma get_or_create_key_stable w key :
  holds_key (files w) key -> get_or_create_key w = (Ok key, w).
Proof.
  intros [Hk Hd]. unfold get_or_create_key.
  unfold mbind, io_bind, get_files. rewrite Hd. simpl.
  unfold mret, io_ret, get_files.
  assert (He : exists_ (files w) KEY_PATH = true) by (apply exists_true; rewrite Hk; eauto).
  rewrite He. unfold Fs.read, mbind, io_bind, get_files, lift, read_bytes. rewrite Hk.
  reflexivity.
Qed.

(** A key that was handed out is in place afterwards. *)
Lemma get_or_create_key_holds w key w1 :
  get_or_create_key w = (Ok key, w1) -> holds_key (files w1) key.
Proof.
  unfold get_or_create_key, holds_key, mbind, io_bind, get_files.
  change (Fs.parent KEY_PATH) with "data".
  destruct (exists_ (files w) "data") eqn:Hd; simpl.
  - unfold mret, io_ret.
    destruct (exists_ (files w) KEY_PATH) eqn:He.
    + unfold Fs.read, mbind, io_bind, get_files, lift, read_bytes.
      destruct (files w !! KEY_PATH) as [[|[raw|]]|] eqn:Hk; io_inv.
      split; [exact Hk|exact Hd].
    + unfold draw, Fs.write, mbind, io_bind, get_files, put_files, raise. simpl.
      change (Fs.parent_is_dir (files w) KEY_PATH) with (is_dir (files w) "data").
      destruct (is_dir (files w) KEY_PATH || negb (is_dir (files w) "data"));
        simpl; unfold mret, io_ret; io_inv.
      simpl. split.
      * rewrite lookup_insert_eq. reflexivity.
      * rewrite exists_insert, Hd. destruct (bool_decide _); reflexivity.
  - unfold Fs.mkdir_p, mbind, io_bind, get_files, put_files, raise.
    change (Fs.ancestors "data" ++ ["data"]) with ["data"].
    cbn [existsb foldl]. rewrite orb_false_r.
    destruct (is_file (files w) "data") eqn:Hf; [simpl; io_inv|]. rewrite Hd. simpl.
    set (fs1 := <["data" := Dir]> (files w)).
    assert (Hd1 : exists_ fs1 "data" = true) by (unfold fs1; rewrite exists_insert; reflexivity).
    destruct (exists_ fs1 KEY_PATH) eqn:He.
    + unfold Fs.read, mbind, io_bind, get_files, lift, read_bytes. simpl.
      destruct (fs1 !! KEY_PATH) as [[|[raw|]]|] eqn:Hk; io_inv.
      split; [exact Hk|exact Hd1].
    + unfold draw, Fs.write, mbind, io_bind, get_files, put_files, raise. simpl.
      change (Fs.parent_is_dir fs1 KEY_PATH) with (is_dir fs1 "data").
      destruct (is_dir fs1 KEY_PATH || negb (is_dir fs1 "data"));
        simpl; unfold mret, io_ret; io_inv.
      simpl. split.
      * rewrite lookup_insert_eq. reflexivity.
      * rewrite exists_insert, Hd1. destruct (bool_decide _); reflexivity.
Qed.

(** The key store being ready, a key is handed out, and a valid one. *)
Lemma get_or_create_key_ready w :
  key_store_ready (files w) = true ->
  exists key w1, get_or_create_key w = (Ok key, w1) /\ valid_key key = true.
Proof.
  unfold key_store_ready. intros Hr.
  unfold get_or_create_key, mbind, io_bind, get_files.
  change (Fs.parent KEY_PATH) with "data" in *.
  destruct (files w !! KEY_PATH) as [[|[key|]]|] eqn:Hk; try discriminate.
  - (* the key file is there *)
    assert (Hread : forall w', files w' !! KEY_PATH = Some (File (Some key)) ->
              exists_ (files w') KEY_PATH = true /\ Fs.read KEY_PATH w' = (Ok key, w')).
    { intros w' Hk'. split; [apply exists_true; rewrite Hk'; eauto|].
      unfold Fs.read, mbind, io_bind, get_files, lift, read_bytes. rewrite Hk'. reflexivity. }
    destruct (exists_ (files w) "data") eqn:Hd; simpl.
    + destruct (Hread w Hk) as [-> ->]. eauto.
    + unfold Fs.mkdir_p, mbind, io_bind, get_files, put_files, raise.
      change (Fs.ancestors "data" ++ ["data"]) with ["data"].
      cbn [existsb foldl]. rewrite orb_false_r.
      assert (Hf : is_file (files w) "data" = false).
      { destruct (is_file (files w) "data") eqn:Hf; [|reflexivity].
        apply is_file_exists in Hf. congruence. }
      rewrite Hf, Hd. simpl.
      destruct (Hread (World (<["data" := Dir]> (files w)) (entropy w) (metadata w)))
        as [He' Hrd]; [simpl; rewrite lookup_insert_ne by discriminate; exact Hk|].
      simpl in He'. rewrite He', Hrd. eauto.
  - (* no key file yet *)
    apply negb_true_iff in Hr.
    assert (He : forall w', files w' !! KEY_PATH = None -> exists_ (files w') KEY_PATH = false).
    { intros w' Hk'. unfold exists_. apply bool_decide_eq_false_2. rewrite Hk'. intros [? [=]]. }
    assert (Hwrite : forall w' k, files w' !! KEY_PATH = None -> is_dir (files w') "data" = true ->
              exists w1, Fs.write KEY_PATH k w' = (Ok tt, w1)).
    { intros w' k Hk' Hd'. unfold Fs.write, mbind, io_bind, get_files, put_files, raise.
      change (Fs.parent_is_dir (files w') KEY_PATH) with (is_dir (files w') "data").
      rewrite Hd'.
      unfold is_dir at 1. rewrite Hk'. simpl. eauto. }
    destruct (exists_ (files w) "data") eqn:Hd; simpl.
    + rewrite (He w Hk). unfold draw. simpl.
      assert (Hdir : is_dir (files w) "data" = true).
      { apply exists_true in Hd as [n Hn]. unfold is_dir, is_file in *. rewrite Hn in *.
        destruct n; [reflexivity|discriminate]. }
      edestruct (Hwrite (World (files w) (S (entropy w)) (metadata w))) as [w1 ->];
        [exact Hk|exact Hdir|].
      unfold mret, io_ret. eexists _, _. split; [reflexivity|apply generate_key_valid].
    + unfold Fs.mkdir_p, mbind, io_bind, get_files, put_files, raise.
      change (Fs.ancestors "data" ++ ["data"]) with ["data"].
      cbn [existsb foldl]. rewrite orb_false_r, Hr, Hd. simpl.
      assert (Hk1 : <["data" := Dir]> (files w) !! KEY_PATH = None)
        by (rewrite lookup_insert_ne by discriminate; exact Hk).
      pose proof (He (World (<["data" := Dir]> (files w)) (entropy w) (metadata w)) Hk1) as He'.
      simpl in He'. rewrite He'. unfold draw. simpl.
      edestruct (Hwrite (World (<["data" := Dir]> (files w)) (S (entropy w)) (metadata w)))
        as [w1 ->]; [exact Hk1| |].
      * unfold is_dir. simpl. rewrite lookup_insert_eq. reflexivity.
      * unfold mret, io_ret. eexists _, _. split; [reflexivity|apply generate_key_valid].
Qed.

End WithFernet.
End CryptoFacts.

(** ** Redaction *)

Module RoutesFacts.
Import StrFacts Dlp Crypto Routes Spec.
Local Open Scope nat_scope.

(** *** [str.replace] *)

Lemma replace_from_skip old new : forall n s,
  Str.replace_from old new n s = Str.replace_from old new 0 (Str.drop n s).
Proof.
  induction n as [|n IH]; intros s; [reflexivity|].
  destruct s as [|a s]; [reflexivity|]. simpl. apply IH.
Qed.

Lemma drop_length_le : forall n s, Str.length (Str.drop n s) <= Str.length s.
Proof.
  induction n as [|n IH]; intros [|a s]; simpl; try lia.
  specialize (IH s). lia.
Qed.

Lemma replace_spec old new :
  old <> EmptyString ->
  forall s, replaced old new s (Str.replace old new s).
Proof.
  intros Hold. unfold Str.replace.
  assert (H : forall n s, Str.length s <= n ->
            replaced old new s (Str.replace_from old new 0 s)).
  { induction n as [|n IH]; intros s Hn.
    - destruct s; [constructor|simpl in Hn; lia].
    - destruct s as [|a s]; [constructor|].
      cbn [Str.replace_from].
      destruct (Str.starts_with old (String a s)) eqn:E.
      + rewrite replace_from_skip.
        pose proof (starts_with_split _ _ E) as Hs.
        destruct old as [|b old]; [contradiction|].
        simpl in Hs. injection Hs as Hab Hs. subst b.
        replace (Str.drop (Str.length (String a old) - 1) s)
          with (Str.drop (Str.length old) s) by (simpl; rewrite Nat.sub_0_r; reflexivity).
        rewrite Hs at 1. rewrite <- app_cons.
        apply replaced_hit. apply IH.
        pose proof (drop_length_le (Str.length old) s). simpl in Hn. lia.
      + apply replaced_miss; [exact E|]. apply IH. simpl in Hn. lia. }
  intros s. apply (H (Str.length s)). lia.
Qed.

(** *** [sorted] by descending length *)

Lemma insert_by_len_perm x l : insert_by_len x l ≡ₚ x :: l.
Proof.
  induction l as [|y l IH]; simpl; [reflexivity|].
  destruct (Str.length y <=? Str.length x); [reflexivity|].
  rewrite IH. apply Permutation_swap.
Qed.

Lemma sorted_longest_first_perm l : sorted_longest_first l ≡ₚ l.
Proof.
  induction l as [|x l IH]; simpl; [reflexivity|].
  rewrite insert_by_len_perm, IH. reflexivity.
Qed.

Lemma insert_by_len_sorted x l :
  Sorted longer_first l -> Sorted longer_first (insert_by_len x l).
Proof.
  induction 1 as [|y l Hs IH Hh]; simpl.
  - repeat constructor.
  - destruct (Str.length y <=? Str.length x) eqn:E.
    + apply Nat.leb_le in E. repeat constructor; assumption.
    + apply Nat.leb_gt in E. constructor; [exact IH|].
      destruct l as [|z l]; simpl.
      * constructor. unfold longer_first. lia.
      * destruct (Str.length z <=? Str.length x); constructor.
        -- unfold longer_first. lia.
        -- inversion Hh. assumption.
Qed.

Lemma sorted_longest_first_sorted l : Sorted longer_first (sorted_longest_first l).
Proof.
  induction l as [|x l IH]; simpl; [constructor|]. apply insert_by_len_sorted, IH.
Qed.

Lemma collect_tokens_spec (hits : gmap string (list string)) t :
  t ∈ collect_tokens hits <->
  t <> EmptyString /\ exists name l, hits !! name = Some l /\ t ∈ l.
Proof.
  unfold collect_tokens. rewrite list_elem_of_In, filter_In, in_concat.
  split.
  - intros [(l & Hl & Ht) Hne]. split.
    + intros ->. discriminate.
    + apply list_elem_of_In, list_elem_of_fmap in Hl as ([name l'] & -> & Hin).
      apply elem_of_map_to_list in Hin. exists name, l'.
      split; [exact Hin|]. apply list_elem_of_In, Ht.
  - intros [Hne (name & l & Hl & Ht)]. split.
    + exists l. split; [|apply list_elem_of_In, Ht].
      apply list_elem_of_In, list_elem_of_fmap. exists (name, l).
      split; [reflexivity|]. apply elem_of_map_to_list, Hl.
    + rewrite bool_decide_eq_false_2 by exact Hne. reflexivity.
Qed.

(** *** The redaction loop *)

Section WithFernet.
Context {F : Fernet}.

Lemma redact_loop_spec : forall toks out w,
  (forall t, t ∈ toks -> t <> EmptyString) ->
  exists out' w', redact_loop toks out w = (Ok out', w') /\
    redacted toks out w out' w'.
Proof.
  induction toks as [|tok toks IH]; intros out w Hne.
  - exists out, w. split; [reflexivity|constructor].
  - cbn [redact_loop]. unfold mbind, io_bind at 1. unfold try_except, mbind, io_bind at 1.
    destruct (encrypt_str tok w) as [[enc|e] w1] eqn:E.
    + unfold mret, io_ret at 1.
      destruct (IH (Str.replace tok enc out) w1) as (out' & w' & Hrun & Hred).
      { intros t Ht. apply Hne. right. exact Ht. }
      exists out', w'. split; [exact Hrun|].
      eapply redacted_enc; [exact E| |exact Hred].
      apply replace_spec, Hne. left.
    + unfold mret, io_ret at 1.
      destruct (IH out w1) as (out' & w' & Hrun & Hred).
      { intros t Ht. apply Hne. right. exact Ht. }
      exists out', w'. split; [exact Hrun|].
      eapply redacted_skip; [exact E|exact Hred].
Qed.

End WithFernet.

Lemma given_missing payload key : missing payload key -> given payload key = None.
Proof. unfold given. intros [-> | ->]; reflexivity. Qed.

End RoutesFacts.

(** * Further properties *)

Import Re StrFacts ReFacts Dlp DlpFacts Crypto CryptoFacts Routes RoutesFacts.
Import Examples.
Import BackupRoutes Views MoreExamples.

(** ** Strings *)

Module StrMore.
Import Re StrFacts ReFacts Dlp DlpFacts.
Local Open Scope nat_scope.

Lemma to_list_app (u v : string) : Str.to_list (u +:+ v) = Str.to_list u ++ Str.to_list v.
Proof.
  induction u as [|a u IH]; [reflexivity|]. rewrite app_cons. cbn [Str.to_list app].
  rewrite IH. reflexivity.
Qed.

Lemma drop_add : forall i n s, Str.drop (i + n) s = Str.drop n (Str.drop i s).
Proof.
  induction i as [|i IH]; intros n s; [reflexivity|].
  destruct s as [|a s]; simpl; [destruct n; reflexivity|apply IH].
Qed.

Lemma app_inv_length (w w' s s' : string) :
  w +:+ s = w' +:+ s' -> Str.length w = Str.length w' -> w = w'.
Proof.
  intros H L. rewrite <- (take_app w s), H, L. apply take_app.
Qed.

Lemma app_inv_head (p a b : string) : p +:+ a = p +:+ b -> a = b.
Proof.
  induction p as [|x p IH]; [auto|]. rewrite !app_cons. intros [= H]. auto.
Qed.

Lemma rev_app_spec : forall s t, String.rev_app s t = String.rev s +:+ t.
Proof.
  unfold String.rev. induction s as [|a s IH]; intros t; simpl; [reflexivity|].
  rewrite IH, (IH (String a EmptyString)), app_assoc. reflexivity.
Qed.

Lemma app_nil_r (s : string) : s +:+ EmptyString = s.
Proof. induction s as [|a s IH]; [reflexivity|]. rewrite app_cons, IH. reflexivity. Qed.

Lemma rev_cons a s : String.rev (String a s) = String.rev s +:+ String a EmptyString.
Proof. unfold String.rev at 1. simpl. apply rev_app_spec. Qed.

Lemma rev_app (s t : string) : String.rev (s +:+ t) = String.rev t +:+ String.rev s.
Proof.
  induction s as [|a s IH].
  - rewrite app_nil. change (String.rev EmptyString) with EmptyString.
    rewrite app_nil_r. reflexivity.
  - rewrite app_cons, !rev_cons, IH, app_assoc. reflexivity.
Qed.

Lemma rev_involutive (s : string) : String.rev (String.rev s) = s.
Proof.
  induction s as [|a s IH]; [reflexivity|].
  rewrite rev_cons, rev_app, IH. reflexivity.
Qed.

Lemma all_chars_rev P s : all_chars P (String.rev s) = all_chars P s.
Proof.
  induction s as [|a s IH]; [reflexivity|].
  rewrite rev_cons, all_chars_app, IH. simpl. rewrite andb_true_r, andb_comm. reflexivity.
Qed.

Lemma length_rev s : Str.length (String.rev s) = Str.length s.
Proof.
  induction s as [|a s IH]; [reflexivity|].
  rewrite rev_cons, length_app, IH. simpl. lia.
Qed.

(** [lstrip] only removes a prefix and keeps what follows a solid token *)
Lemma lstrip_keeps (a tok b : string) :
  tok <> EmptyString -> all_chars (fun x => negb (Chr.is_space x)) tok = true ->
  exists a', Str.lstrip (a +:+ (tok +:+ b)) = a' +:+ (tok +:+ b).
Proof.
  intros Hne Hs. induction a as [|x a IH].
  - exists EmptyString. rewrite !app_nil. destruct tok as [|y tok]; [congruence|].
    rewrite app_cons. simpl in *. apply andb_true_iff in Hs as [Hy _].
    apply negb_true_iff in Hy. rewrite Hy. reflexivity.
  - rewrite app_cons. simpl. destruct (Chr.is_space x).
    + exact IH.
    + exists (String x a). reflexivity.
Qed.

Lemma strip_keeps (a tok b : string) :
  tok <> EmptyString -> all_chars (fun x => negb (Chr.is_space x)) tok = true ->
  exists a' b', Str.strip (a +:+ (tok +:+ b)) = a' +:+ (tok +:+ b').
Proof.
  intros Hne Hs. unfold Str.strip, Str.rstrip.
  destruct (lstrip_keeps a tok b Hne Hs) as [a' ->].
  rewrite !rev_app.
  destruct (lstrip_keeps (String.rev b) (String.rev tok) (String.rev a')) as [b' Hb].
  - intros H. apply Hne. rewrite <- (rev_involutive tok), H. reflexivity.
  - rewrite all_chars_rev. exact Hs.
  - rewrite app_assoc, Hb. exists a', (String.rev b').
    rewrite !rev_app, !rev_involutive, app_assoc. reflexivity.
Qed.

Lemma contains_app (a tok b : string) : Str.contains tok (a +:+ (tok +:+ b)) = true.
Proof.
  induction a as [|x a IH].
  - rewrite app_nil. destruct (tok +:+ b) eqn:E; simpl; rewrite <- E, starts_with_app;
      reflexivity.
  - rewrite app_cons. simpl. rewrite IH. apply orb_true_r.
Qed.

Lemma map_app f (a b : string) : Str.map f (a +:+ b) = Str.map f a +:+ Str.map f b.
Proof.
  induction a as [|x a IH]; [reflexivity|]. rewrite app_cons. simpl. rewrite IH. reflexivity.
Qed.

Lemma map_id_on (f : ascii -> ascii) (P : ascii -> bool) w :
  (forall a, P a = true -> f a = a) -> all_chars P w = true -> Str.map f w = w.
Proof.
  intros H. induction w as [|a w IH]; simpl; [reflexivity|].
  intros [Ha Hw]%andb_true_iff. rewrite (H _ Ha), (IH Hw). reflexivity.
Qed.

Lemma take_app_ge (w s : string) n :
  Str.length w <= n -> Str.take n (w +:+ s) = w +:+ Str.take (n - Str.length w) s.
Proof.
  revert n. induction w as [|a w IH]; intros n Hn.
  - rewrite !app_nil. simpl. rewrite Nat.sub_0_r. reflexivity.
  - destruct n as [|n]; [simpl in Hn; lia|]. rewrite !app_cons. simpl.
    rewrite IH by (simpl in Hn; lia). reflexivity.
Qed.

(** a slice that covers a token has it inside *)
Lemma slice_around : forall a text s b tok s',
  Str.drop s text = tok +:+ s' -> tok <> EmptyString ->
  a <= s -> s + Str.length tok <= b ->
  exists pre post, Str.slice a b text = pre +:+ (tok +:+ post).
Proof.
  assert (H0 : forall s text b tok s',
    Str.drop s text = tok +:+ s' -> tok <> EmptyString ->
    s + Str.length tok <= b ->
    exists pre post, Str.take b text = pre +:+ (tok +:+ post)).
  { induction s as [|s IH]; intros text b tok s' Hd Hne Hb.
    - simpl in Hd. subst text. rewrite take_app_ge by lia.
      exists EmptyString. eexists. reflexivity.
    - destruct text as [|x text].
      + simpl in Hd. destruct tok; [congruence|discriminate].
      + simpl in Hd. destruct b as [|b]; [lia|]. simpl.
        destruct (IH text b tok s' Hd Hne ltac:(lia)) as (pre & post & ->).
        exists (String x pre), post. reflexivity. }
  induction a as [|a IH]; intros text s b tok s' Hd Hne Ha Hb.
  - unfold Str.slice. simpl. rewrite Nat.sub_0_r. eapply H0; eassumption.
  - destruct s as [|s]; [lia|]. destruct text as [|x text].
    + simpl in Hd. destruct tok; [congruence|discriminate].
    + destruct b as [|b]; [lia|].
      change (Str.slice (S a) (S b) (String x text)) with (Str.slice a b text).
      apply (IH text s b tok s'); [exact Hd|exact Hne|lia|lia].
Qed.

Lemma drop_length : forall s text u,
  Str.drop s text = u -> u <> EmptyString -> Str.length text = s + Str.length u.
Proof.
  induction s as [|s IH]; intros text u Hd Hne; [simpl in Hd; subst; reflexivity|].
  destruct text as [|x text]; simpl in Hd; [congruence|].
  simpl. rewrite (IH _ _ Hd Hne). reflexivity.
Qed.

Lemma take_N_take : forall s n, Str.take_N n s = Str.take (N.to_nat n) s.
Proof.
  induction s as [|a s IH]; intros n; simpl.
  - destruct (N.to_nat n); reflexivity.
  - destruct (N.eqb_spec n 0) as [->|Hn]; [reflexivity|].
    rewrite IH. replace (N.to_nat n) with (S (N.to_nat (N.pred n))) by lia.
    reflexivity.
Qed.

Lemma length_take : forall n s, Str.length (Str.take n s) <= n.
Proof.
  induction n as [|n IH]; intros [|a s]; simpl; try lia.
  specialize (IH s). lia.
Qed.

Lemma length_filter p s : Str.length (Str.filter p s) <= Str.length s.
Proof. induction s as [|a s IH]; simpl; [lia|]. destruct (p a); simpl; lia. Qed.

End StrMore.

(** ** The Luhn test *)

Module LuhnFacts.
Import Re StrFacts ReFacts Dlp DlpFacts StrMore.
Local Open Scope Z_scope.

Lemma luhn_check_digits s t :
  strip_non_digits s = strip_non_digits t -> _luhn_check s = _luhn_check t.
Proof. unfold _luhn_check. intros ->. reflexivity. Qed.

Lemma luhn_left_app : forall xs ys double,
  Spec.luhn_sum_from_left (xs ++ ys) double =
  Spec.luhn_sum_from_left xs double
  + Spec.luhn_sum_from_left ys (xorb double (Nat.odd (length xs))).
Proof.
  induction xs as [|x xs IH]; intros ys double; cbn [app Spec.luhn_sum_from_left length].
  - change (Nat.odd 0) with false. rewrite xorb_false_r. lia.
  - rewrite IH, Nat.odd_succ, <- Nat.negb_odd.
    replace (xorb (negb double) (Nat.odd (length xs)))
      with (xorb double (negb (Nat.odd (length xs))))
      by (destruct double, (Nat.odd (length xs)); reflexivity).
    lia.
Qed.

Lemma luhn_digit_inj second x y :
  0 <= x <= 9 -> 0 <= y <= 9 ->
  (Spec.luhn_digit second x - Spec.luhn_digit second y) mod 10 = 0 -> x = y.
Proof.
  intros Hx Hy. unfold Spec.luhn_digit.
  destruct second; [|intros H; apply Z.mod_divide in H; [|lia]; destruct H as [k Hk]; lia].
  destruct (9 <? 2 * x) eqn:Ex, (9 <? 2 * y) eqn:Ey;
    [apply Z.ltb_lt in Ex|apply Z.ltb_lt in Ex|apply Z.ltb_ge in Ex|apply Z.ltb_ge in Ex];
    [apply Z.ltb_lt in Ey|apply Z.ltb_ge in Ey|apply Z.ltb_lt in Ey|apply Z.ltb_ge in Ey];
    intros H; apply Z.mod_divide in H; try lia; destruct H as [k Hk]; lia.
Qed.

Lemma digit_val_range a : Chr.is_digit a = true -> 0 <= Chr.digit_val a <= 9.
Proof. destruct a as [[] [] [] [] [] [] [] []]; vm_compute; intuition congruence. Qed.

Lemma digit_val_inj a b :
  Chr.is_digit a = true -> Chr.is_digit b = true ->
  Chr.digit_val a = Chr.digit_val b -> a = b.
Proof.
  unfold Chr.digit_val, Chr.code. intros _ _ H.
  assert (N_of_ascii a = N_of_ascii b) by lia.
  rewrite <- (ascii_N_embedding a), <- (ascii_N_embedding b). congruence.
Qed.

Lemma digits_of_app s t : digits_of (s +:+ t) = digits_of s ++ digits_of t.
Proof.
  unfold digits_of, strip_non_digits. rewrite filter_app, to_list_app, fmap_app. reflexivity.
Qed.

Lemma digits_of_digit a s :
  Chr.is_digit a = true -> digits_of (String a s) = Chr.digit_val a :: digits_of s.
Proof. intros Ha. unfold digits_of, strip_non_digits. simpl. rewrite Ha. reflexivity. Qed.

Lemma luhn_loop_sum digits :
  luhn_loop (length digits mod 2) 0 digits 0 =
  Spec.luhn_sum_from_left digits (Nat.even (length digits)).
Proof.
  rewrite luhn_loop_left by (apply Nat.mod_upper_bound; lia).
  rewrite even_mod2. lia.
Qed.

End LuhnFacts.

(** ** Rounding and the scores *)

Module ScoreFacts.
Import Re StrFacts ReFacts Dlp DlpFacts.
Local Open Scope Z_scope.

Lemma py_round_floor_cases (x : Q) :
  let f := Qfloor x in
  ((x - inject_Z f < 1 # 2)%Q /\ py_round x = f) \/
  ((x - inject_Z f == 1 # 2)%Q /\ py_round x = (if Z.even f then f else f + 1)) \/
  ((1 # 2 < x - inject_Z f)%Q /\ py_round x = f + 1).
Proof.
  cbn zeta. unfold py_round. destruct (x - inject_Z (Qfloor x) ?= 1 # 2)%Q eqn:E.
  - apply Qeq_alt in E. right. left. auto.
  - apply Qlt_alt in E. left. auto.
  - apply Qgt_alt in E. right. right. auto.
Qed.

Lemma py_round_mono (x y : Q) : (x <= y)%Q -> py_round x <= py_round y.
Proof.
  intros Hxy.
  pose proof (Qfloor_resp_le _ _ Hxy) as Hf.
  pose proof (Qfloor_le x) as Hx1. pose proof (Qlt_floor x) as Hx2.
  pose proof (Qfloor_le y) as Hy1. pose proof (Qlt_floor y) as Hy2.
  assert (Hle : forall f, f <= (if Z.even f then f else f + 1) <= f + 1)
    by (intros f; destruct (Z.even f); lia).
  pose proof (Hle (Qfloor x)) as Hex. pose proof (Hle (Qfloor y)) as Hey.
  destruct (Z.eq_dec (Qfloor x) (Qfloor y)) as [Heq|Hne].
  - destruct (py_round_floor_cases x) as [[Hx ->]|[[Hx ->]|[Hx ->]]];
    destruct (py_round_floor_cases y) as [[Hy ->]|[[Hy ->]|[Hy ->]]];
    rewrite <- ?Heq in *; try lia; exfalso; clear - Hx Hy Hxy; lra.
  - assert (Qfloor x + 1 <= Qfloor y) by lia.
    destruct (py_round_floor_cases x) as [[Hx ->]|[[Hx ->]|[Hx ->]]];
    destruct (py_round_floor_cases y) as [[Hy ->]|[[Hy ->]|[Hy ->]]]; lia.
Qed.

Lemma py_round_inject (z : Z) : py_round (inject_Z z) = z.
Proof.
  unfold py_round. rewrite Qfloor_Z.
  replace (inject_Z z - inject_Z z ?= 1 # 2)%Q with Lt; [reflexivity|].
  symmetry. apply Qlt_alt.
  assert (H : (inject_Z z - inject_Z z == 0)%Q) by ring. rewrite H. reflexivity.
Qed.

Lemma conf_boost_nonneg confidence : 0 <= default 0 (conf_map !! confidence) <= 20.
Proof.
  unfold conf_map.
  destruct (decide (confidence = "low")) as [->|H1]; [vm_compute; intuition congruence|].
  rewrite lookup_insert_ne by congruence.
  destruct (decide (confidence = "medium")) as [->|H2]; [vm_compute; intuition congruence|].
  rewrite lookup_insert_ne by congruence.
  destruct (decide (confidence = "high")) as [->|H3]; [vm_compute; intuition congruence|].
  rewrite lookup_singleton_ne by congruence. simpl. lia.
Qed.

Lemma risk_score_floor (hits : gmap string (list string)) confidence (c : Q) :
  (0 <= c)%Q ->
  Z.min 100 (20 * Z.of_nat (size hits) + default 0 (conf_map !! confidence))
    <= compute_risk_score hits confidence c <= 100.
Proof.
  intros Hc. unfold compute_risk_score. cbn zeta.
  pose proof (conf_boost_nonneg confidence) as Hb.
  set (b := default 0 (conf_map !! confidence)) in *.
  set (z := 20 * Z.of_nat (size hits) + b).
  assert (z <= py_round (inject_Z z * (1 + c))).
  { rewrite <- (py_round_inject z) at 1. apply py_round_mono.
    assert (0 <= inject_Z z)%Q by (change 0%Q with (inject_Z 0); rewrite <- Zle_Qle; lia).
    nra. }
  lia.
Qed.

Lemma py_min_le_l a b : (py_min a b <= a)%Q.
Proof.
  unfold py_min, Qltb. destruct (Qle_bool a b) eqn:E; simpl; [lra|].
  destruct (Qlt_le_dec b a) as [H|H]; [lra|]. apply Qle_bool_iff in H. congruence.
Qed.

Lemma py_min_le_r a b : (py_min a b <= b)%Q.
Proof.
  unfold py_min, Qltb. destruct (Qle_bool a b) eqn:E; simpl; [|lra].
  apply Qle_bool_iff in E. exact E.
Qed.

Lemma py_min_glb a b c : (c <= a)%Q -> (c <= b)%Q -> (c <= py_min a b)%Q.
Proof. unfold py_min. destruct (Qltb b a); auto. Qed.

Lemma h_score_range text :
  (0 <= py_min 1 (inject_Z (Z.of_nat (keyword_hits text)) / 6) <= 1)%Q.
Proof.
  split; [|apply py_min_le_l].
  apply py_min_glb; [lra|].
  assert (0 <= inject_Z (Z.of_nat (keyword_hits text)))%Q
    by (change 0%Q with (inject_Z 0); rewrite <- Zle_Qle; lia).
  apply Qle_shift_div_l; lra.
Qed.

Lemma py_round_between (x : Q) (a b : Z) :
  (inject_Z a <= x)%Q -> (x <= inject_Z b)%Q -> a <= py_round x <= b.
Proof.
  intros Ha Hb. split.
  - rewrite <- (py_round_inject a). apply py_round_mono, Ha.
  - rewrite <- (py_round_inject b). apply py_round_mono, Hb.
Qed.

Lemma size_nonempty (h : gmap string (list string)) : (0 < size h)%nat -> h <> ∅.
Proof. intros H ->. rewrite map_size_empty in H. lia. Qed.

Lemma keyword_score_cases text :
  let hs := py_min 1 (inject_Z (Z.of_nat (keyword_hits text)) / 6)%Q in
  ((keyword_hits text < 2)%nat -> (0 <= hs <= 1 # 6)%Q) /\
  ((2 <= keyword_hits text)%nat -> (1 # 3 <= hs <= 1)%Q).
Proof.
  cbn zeta. set (h := keyword_hits text).
  assert (Hq : (inject_Z (Z.of_nat h) / 6 == inject_Z (Z.of_nat h) * (1 # 6))%Q)
    by (unfold Qdiv; reflexivity).
  split; intros Hh.
  - assert (0 <= inject_Z (Z.of_nat h) <= 1)%Q.
    { change 0%Q with (inject_Z 0). change 1%Q with (inject_Z 1).
      rewrite <- !Zle_Qle. lia. }
    split.
    + apply py_min_glb; [lra|]. rewrite Hq. lra.
    + eapply Qle_trans; [apply py_min_le_r|]. rewrite Hq. lra.
  - assert (2 <= inject_Z (Z.of_nat h))%Q.
    { change 2%Q with (inject_Z 2). rewrite <- Zle_Qle. lia. }
    split; [|apply py_min_le_l].
    apply py_min_glb; [lra|]. rewrite Hq. lra.
Qed.

End ScoreFacts.

(** ** The width of a match *)

Module WidthFacts.
Import Re StrFacts ReFacts Dlp DlpFacts StrMore.
Local Open Scope nat_scope.

Lemma ahead_refl c : ahead 0 (Some 0) c c.
Proof. exists EmptyString. simpl. repeat split; lia. Qed.

Lemma ahead_weaken lo hi lo' hi' c c1 :
  lo' <= lo -> (forall n, at_most hi n -> at_most hi' n) ->
  ahead lo hi c c1 -> ahead lo' hi' c c1.
Proof.
  intros Hlo Hhi (w & E & L & A & B). exists w.
  split; [exact E|]. split; [exact L|]. split; [lia|auto].
Qed.

Lemma ahead_trans lo1 hi1 lo2 hi2 lo hi c1 c2 c3 :
  lo <= lo1 + lo2 ->
  (forall n1 n2, at_most hi1 n1 -> at_most hi2 n2 -> at_most hi (n1 + n2)) ->
  ahead lo1 hi1 c1 c2 -> ahead lo2 hi2 c2 c3 -> ahead lo hi c1 c3.
Proof.
  intros Hlo Hhi (w1 & E1 & L1 & A1 & B1) (w2 & E2 & L2 & A2 & B2).
  exists (w1 +:+ w2). rewrite app_assoc, <- E2, E1, length_app.
  split; [reflexivity|]. split; [lia|]. split; [lia|auto].
Qed.

(** A repeat of a paced body: at least the iterations still owed, at
    most the iterations still allowed. *)
Lemma rep_loop_paced m M body lo greedy k :
  paced m M body ->
  forall fuel count c res,
    rep_loop body lo greedy k fuel count c = Some res ->
    exists c1,
      ahead ((lo - count) * m)
            (match M with Some a => Some (fuel * a) | None => None end) c c1
      /\ k c1 = Some res.
Proof.
  intros Hb.
  assert (Hstop : forall fuel count c res,
    (if lo <=? count then k c else None) = Some res ->
    exists c1,
      ahead ((lo - count) * m)
            (match M with Some a => Some (fuel * a) | None => None end) c c1
      /\ k c1 = Some res).
  { intros fuel count c res H. destruct (lo <=? count) eqn:E; [|discriminate].
    apply Nat.leb_le in E. exists c. split; [|exact H].
    eapply ahead_weaken; [| |apply ahead_refl].
    - replace (lo - count) with 0 by lia. lia.
    - intros n Hn. simpl in Hn. destruct M; simpl; [lia|exact I]. }
  induction fuel as [|fuel IH]; intros count c res H.
  - destruct greedy; simpl in H.
    + eapply Hstop, H.
    + destruct (if lo <=? count then k c else None) eqn:E; [|discriminate].
      injection H as <-. eapply Hstop, E.
  - assert (Hmore : forall res,
      body (rep_loop body lo greedy k fuel (S count)) c = Some res ->
      exists c1,
        ahead ((lo - count) * m)
              (match M with Some a => Some (S fuel * a) | None => None end) c c1
        /\ k c1 = Some res).
    { intros res' H'. apply Hb in H' as (c1 & R1 & H1).
      apply IH in H1 as (c2 & R2 & H2). exists c2. split; [|exact H2].
      eapply ahead_trans; [| |exact R1|exact R2].
      - destruct (lo - count) as [|d] eqn:Ed; [lia|].
        replace (lo - S count) with d by lia. lia.
      - intros n1 n2. destruct M; simpl; [lia|auto]. }
    destruct greedy; simpl in H.
    + destruct (body _ c) eqn:E.
      * injection H as <-. apply Hmore. reflexivity.
      * eapply Hstop, H.
    + destruct (if lo <=? count then k c else None) eqn:E.
      * injection H as <-. eapply Hstop, E.
      * apply Hmore, H.
Qed.

(** Whatever the matcher returns, it returns through its continuation,
    having consumed a number of characters within the pattern's widths. *)
Lemma run_paced r : paced (min_width r) (max_width r) (run r).
Proof.
  induction r as [|p| |r1 IH1 r2 IH2|r1 IH1 r2 IH2|r IH lo hi g|n r IH];
    intros k c res H; simpl in H.
  - exists c. split; [apply ahead_refl|exact H].
  - destruct c as [i pv s cs]. simpl in H. destruct s as [|a s]; [discriminate|].
    destruct (p a) eqn:Hp; [|discriminate].
    eexists. split; [|exact H].
    exists (String a EmptyString). simpl. repeat split; lia.
  - destruct (at_boundary c); [|discriminate].
    exists c. split; [apply ahead_refl|exact H].
  - apply IH1 in H as (c1 & R1 & H1). apply IH2 in H1 as (c2 & R2 & H2).
    exists c2. split; [|exact H2].
    eapply ahead_trans; [| |exact R1|exact R2]; simpl; [lia|].
    intros n1 n2. destruct (max_width r1), (max_width r2); simpl; auto; lia.
  - destruct (run r1 k c) eqn:E.
    + injection H as <-. apply IH1 in E as (c1 & R1 & H1).
      exists c1. split; [|exact H1].
      eapply ahead_weaken; [| |exact R1]; simpl; [lia|].
      intros n. destruct (max_width r1), (max_width r2); simpl; auto; lia.
    + apply IH2 in H as (c1 & R1 & H1). exists c1. split; [|exact H1].
      eapply ahead_weaken; [| |exact R1]; simpl; [lia|].
      intros n. destruct (max_width r1), (max_width r2); simpl; auto; lia.
  - eapply rep_loop_paced in H as (c1 & R1 & H1); [|exact IH].
    exists c1. split; [|exact H1].
    eapply ahead_weaken; [| |exact R1]; simpl; [lia|].
    intros n. destruct hi, (max_width r); simpl; auto.
  - apply IH in H as (c1 & R1 & H1). eexists. split; [|exact H1].
    destruct R1 as (w & E & L & A). exists w. simpl. auto.
Qed.

Lemma finditer_width r text m :
  m ∈ finditer r text ->
  min_width r <= Str.length (group0 text m) /\
  at_most (max_width r) (Str.length (group0 text m)).
Proof.
  intros Hm. apply finditer_inv in Hm.
  unfold match_at in Hm. destruct (run r Some _) as [c|] eqn:E; [|discriminate].
  apply run_paced in E as (c1 & (w & E1 & L & A & B) & [= ->]). simpl in *.
  injection Hm as Hm. rewrite <- Hm. unfold group0, Str.slice. simpl.
  rewrite E1, L. replace (m_start m + Str.length w - m_start m) with (Str.length w) by lia.
  rewrite take_app. auto.
Qed.

Lemma run_tail_group : forall r n R c res,
  tail_group r = Some (n, R) ->
  run r Some c = Some res ->
  exists W w c4 c5,
    (rest c = W +:+ rest c4) /\ (pos c4 = pos c + Str.length W) /\
    (rest c4 = w +:+ rest c5) /\ (pos c5 = pos c4 + Str.length w) /\
    (res = set_cap n (pos c4) (pos c5) c5) /\
    min_width R <= Str.length w /\ at_most (max_width R) (Str.length w) /\
    all_chars (charset R) w = true.
Proof.
  induction r as [|p| |r1 IH1 r2 IH2|r1 IH1 r2 IH2|r IH lo hi g|n0 r IH];
    intros n R c res Ht E; simpl in Ht; try discriminate.
  - simpl in E. apply run_sound in E as (c1 & (W1 & EW & LW & _) & E).
    destruct (IH2 _ _ _ _ Ht E) as (W & w & c4 & c5 & H1 & H2 & H3 & H4 & H5 & H6).
    exists (W1 +:+ W), w, c4, c5. rewrite app_assoc, <- H1, length_app.
    split; [exact EW|]. split; [lia|]. auto.
  - injection Ht as -> ->. simpl in E. pose proof E as E'.
    apply run_paced in E as (c5 & (w & Ew & Lw & A & B) & [= Hres]).
    apply run_sound in E' as (c6 & (w' & Ew' & Lw' & C) & [= Hres']).
    assert (Hpos : pos c6 = pos c5 /\ rest c6 = rest c5).
    { rewrite <- Hres in Hres'. unfold set_cap in Hres'.
      injection Hres' as ? ? ? ?. split; congruence. }
    destruct Hpos as [Hp Hr].
    assert (w' = w) as ->.
    { apply (app_inv_length w' w (rest c6) (rest c5)); [|lia].
      rewrite Hr in *. congruence. }
    exists EmptyString, w, c, c5. simpl.
    split; [reflexivity|]. split; [lia|]. split; [exact Ew|]. split; [exact Lw|].
    split; [symmetry; exact Hres|]. auto.
Qed.

(** what the last group of a pattern captures *)
Lemma tail_group_token r n R text m :
  tail_group r = Some (n, R) ->
  m ∈ finditer r text ->
  min_width R <= Str.length (group n text m) /\
  at_most (max_width R) (Str.length (group n text m)) /\
  all_chars (charset R) (group n text m) = true.
Proof.
  intros Ht Hm. apply finditer_inv in Hm. unfold match_at in Hm.
  set (i := m_start m) in *.
  destruct (run _ Some _) as [res|] eqn:E; [|discriminate].
  injection Hm as Hm.
  apply (run_tail_group _ _ _ _ _ Ht) in E
    as (W & w & c4 & c5 & EW & LW & Ew & Lw & -> & A & B & C).
  simpl in EW, LW.
  assert (Hg : group n text m = w).
  { unfold group. rewrite <- Hm. simpl.
    rewrite bool_decide_eq_true_2 by reflexivity. simpl.
    unfold Str.slice. rewrite Lw, LW, drop_add, EW, drop_app, Ew.
    replace (i + Str.length W + Str.length w - (i + Str.length W))
      with (Str.length w) by lia.
    apply take_app. }
  rewrite Hg. auto.
Qed.

End WidthFacts.

(** ** The detectors *)

Module DetectorFacts.
Import Re StrFacts ReFacts Dlp DlpFacts StrMore WidthFacts.
Local Open Scope nat_scope.

Lemma paired_empty names : paired names (∅, ∅).
Proof. intros k. left. simpl. rewrite !lookup_empty. auto. Qed.

Lemma find_snippets_length text spans :
  length (_find_snippets text spans) = length spans.
Proof. unfold _find_snippets. apply length_fmap. Qed.

Lemma record_hits_paired names text name m spans acc :
  name ∈ names -> length m = length spans ->
  paired names acc -> paired names (record_hits text name m spans acc).
Proof.
  intros Hn Hl Hacc. unfold record_hits. destruct m as [|x m]; [exact Hacc|].
  intros k. simpl. destruct (decide (k = name)) as [->|Hk].
  - right. rewrite !lookup_insert_eq. eexists _, _.
    split; [reflexivity|]. split; [reflexivity|].
    split; [discriminate|]. split; [|exact Hn].
    rewrite find_snippets_length. symmetry. exact Hl.
  - rewrite !lookup_insert_ne by congruence. apply Hacc.
Qed.

Lemma detect_group0_paired names text acc d :
  d.1 ∈ names -> paired names acc -> paired names (detect_group0 text acc d).
Proof.
  intros Hn. unfold detect_group0. apply record_hits_paired; [exact Hn|].
  rewrite !length_fmap. reflexivity.
Qed.

Lemma detect_all_paired text : paired DETECTORS (detect_all text).
Proof.
  assert (Hin : forall k, bool_decide (k ∈ DETECTORS) = true -> k ∈ DETECTORS)
    by (intros k; apply bool_decide_eq_true_1).
  unfold detect_all. cbn zeta. cbn [foldl].
  repeat first
    [ apply record_hits_paired; [apply Hin; vm_compute; reflexivity|rewrite !length_fmap; reflexivity|]
    | apply detect_group0_paired; [apply Hin; vm_compute; reflexivity|] ].
  apply paired_empty.
Qed.

Lemma record_hits_snippets text name m spans acc k :
  (record_hits text name m spans acc).2 !! k =
    if decide (name = k /\ m <> []) then Some (_find_snippets text spans)
    else acc.2 !! k.
Proof.
  unfold record_hits. destruct m as [|x m]; simpl.
  - case_decide as H; [destruct H; congruence|reflexivity].
  - rewrite lookup_insert. case_decide as H1; case_decide as H2; try reflexivity.
    + exfalso. apply H2. split; [assumption|discriminate].
    + destruct H2. contradiction.
Qed.

Lemma detect_group0_snippets text acc d k :
  (detect_group0 text acc d).2 !! k =
    if decide (d.1 = k /\ group0 text <$> finditer d.2 text <> [])
    then Some (_find_snippets text (span <$> finditer d.2 text)) else acc.2 !! k.
Proof. unfold detect_group0. apply record_hits_snippets. Qed.

Lemma decide_key2 {A B : Type} (name : string) (l : list A) (v : B) (o : option B) :
  (if decide (name = name /\ l <> []) then Some v else o) =
  match l with [] => o | _ => Some v end.
Proof.
  destruct l; case_decide as H; try reflexivity.
  - destruct H; congruence.
  - exfalso. apply H. split; [reflexivity|discriminate].
Qed.

Ltac find_snippets_key :=
  unfold detect_all; cbn [foldl];
  repeat first [rewrite record_hits_snippets | rewrite detect_group0_snippets];
  cbn [fst snd];
  repeat other_key; rewrite decide_key2; repeat other_key;
  rewrite ?lookup_empty.

Ltac pick_detector :=
  repeat first [rewrite decide_True by reflexivity
               | rewrite decide_False by discriminate].

Lemma detect_all_hits text name :
  (detect_all text).1 !! name =
    if_any (detector_token text name <$> detector_matches text name).
Proof.
  destruct (decide (name ∈ DETECTORS)) as [Hin|Hout].
  - unfold DETECTORS in Hin. rewrite !elem_of_cons, elem_of_nil in Hin.
    unfold detector_matches, detector_token.
    repeat (destruct Hin as [->|Hin]; [pick_detector; find_key; reflexivity|]).
    contradiction.
  - unfold DETECTORS in Hout. rewrite !elem_of_cons, elem_of_nil in Hout.
    unfold detector_matches.
    repeat (rewrite decide_False by tauto). simpl.
    unfold detect_all; cbn [foldl].
    repeat first [rewrite record_hits_lookup | rewrite detect_group0_lookup].
    cbn [fst snd].
    repeat (rewrite decide_False by (intros [<- _]; tauto)).
    apply lookup_empty.
Qed.

Lemma detect_all_snippets text name :
  (detect_all text).2 !! name =
    match detector_matches text name with
    | [] => None
    | ms => Some (_find_snippets text (span <$> ms))
    end.
Proof.
  destruct (decide (name ∈ DETECTORS)) as [Hin|Hout].
  - unfold DETECTORS in Hin. rewrite !elem_of_cons, elem_of_nil in Hin.
    unfold detector_matches.
    repeat (destruct Hin as [->|Hin];
      [pick_detector; find_snippets_key;
       match goal with
       | |- context [List.filter ?f ?l] => destruct (List.filter f l)
       | |- context [finditer ?r ?t] => destruct (finditer r t)
       end; reflexivity|]).
    contradiction.
  - unfold DETECTORS in Hout. rewrite !elem_of_cons, elem_of_nil in Hout.
    unfold detector_matches.
    repeat (rewrite decide_False by tauto).
    unfold detect_all; cbn [foldl].
    repeat first [rewrite record_hits_snippets | rewrite detect_group0_snippets].
    cbn [fst snd].
    repeat (rewrite decide_False by (intros [<- _]; tauto)).
    apply lookup_empty.
Qed.

Lemma password_token text m :
  m ∈ finditer PASSWORD_RE text ->
  4 <= Str.length (group 2 text m) <= 40 /\
  all_chars (fun a => negb (Chr.is_space a || Chr.one_of ",;" a)) (group 2 text m)
    = true.
Proof.
  intros Hm.
  eapply tail_group_token in Hm as (A & B & C); [|reflexivity].
  simpl in A, B, C. split; [lia|exact C].
Qed.

Lemma group0_token r text m lo hi :
  min_width r = lo -> max_width r = hi ->
  m ∈ finditer r text ->
  lo <= Str.length (group0 text m) /\ at_most hi (Str.length (group0 text m)).
Proof. intros <- <-. apply finditer_width. Qed.

Lemma credit_card_token text m :
  m ∈ List.filter (fun m => _luhn_check (strip_separators (group0 text m)))
        (finditer CC_RE text) ->
  13 <= Str.length (strip_separators (group0 text m)) <= 19.
Proof.
  intros [Hm Hl]%list_elem_of_In%filter_In. apply list_elem_of_In in Hm.
  apply luhn_check_length in Hl.
  apply finditer_group0 in Hm as (Hc & _).
  unfold strip_non_digits in Hl. rewrite filter_all in Hl; [exact Hl|].
  apply stripped_candidate_digits.
  eapply all_chars_mono; [|exact Hc].
  simpl. intros a. rewrite orb_false_r. auto.
Qed.

Lemma find_snippets_map text spans :
  _find_snippets text spans = snippet_of text <$> spans.
Proof. reflexivity. Qed.

Lemma space_blank a :
  negb (Chr.is_space a) = true ->
  (if Ascii.eqb a "010" || Ascii.eqb a "013" then " "%char else a) = a.
Proof. destruct a as [[] [] [] [] [] [] [] []]; vm_compute; congruence. Qed.

(** The snippet cut around a token without whitespace shows the token. *)
Lemma snippet_shows text s e j tok s' :
  Str.drop j text = tok +:+ s' -> tok <> EmptyString ->
  all_chars (fun x => negb (Chr.is_space x)) tok = true ->
  s <= j -> j + Str.length tok <= e ->
  Str.contains tok (snippet_of text (s, e)) = true.
Proof.
  intros Hd Hne Hs Hj He. unfold snippet_of.
  set (blank := fun a : ascii => if Ascii.eqb a "010" || Ascii.eqb a "013" then " "%char else a).
  pose proof (drop_length _ _ _ Hd) as Hlen.
  rewrite length_app in Hlen.
  destruct (slice_around (s - 40) text j (Nat.min (Str.length text) (e + 40)) tok s')
    as (pre & post & ->); [exact Hd|exact Hne|lia| |].
  { rewrite Hlen; [lia|]. destruct tok; [congruence|discriminate]. }
  rewrite !map_app.
  rewrite (map_id_on blank _ tok space_blank Hs).
  destruct (strip_keeps (Str.map blank pre) tok (Str.map blank post) Hne Hs)
    as (a' & b' & ->).
  apply contains_app.
Qed.

Lemma solid_by_cases (r : regex) :
  (forall a, implb (charset r a) (negb (Chr.is_space a)) = true) -> solid r.
Proof. intros H a Ha. specialize (H a). rewrite Ha in H. exact H. Qed.

Ltac solid_tac :=
  apply solid_by_cases;
  let a := fresh "a" in
  intros a; destruct a as [[] [] [] [] [] [] [] []]; vm_compute; reflexivity.

Lemma group0_shown r text m :
  solid r -> 0 < min_width r -> m ∈ finditer r text ->
  Str.contains (group0 text m) (snippet_of text (span m)) = true.
Proof.
  intros Hs Hw Hm.
  pose proof (finditer_width _ _ _ Hm) as [Hlen _].
  apply finditer_group0 in Hm as (Hc & He & s' & Hd).
  unfold span. eapply snippet_shows; [exact Hd| | |reflexivity|lia].
  - intros H. rewrite H in Hlen. simpl in Hlen. lia.
  - eapply all_chars_mono; [|exact Hc]. exact Hs.
Qed.

Lemma tail_group_shown r n R text m :
  tail_group r = Some (n, R) -> solid R -> 0 < min_width R ->
  m ∈ finditer r text ->
  Str.contains (group n text m) (snippet_of text (span m)) = true.
Proof.
  intros Ht Hs Hw Hm. apply finditer_inv in Hm. unfold match_at in Hm.
  set (i := m_start m) in *.
  destruct (run _ Some _) as [res|] eqn:E; [|discriminate].
  injection Hm as Hm.
  apply (run_tail_group _ _ _ _ _ Ht) in E
    as (W & w & c4 & c5 & EW & LW & Ew & Lw & -> & A & B & C).
  simpl in EW, LW.
  assert (Hd : Str.drop (pos c4) text = w +:+ rest c5).
  { rewrite LW, drop_add, EW, drop_app. exact Ew. }
  assert (Hg : group n text m = w).
  { unfold group. rewrite <- Hm. simpl.
    rewrite bool_decide_eq_true_2 by reflexivity. simpl.
    unfold Str.slice. rewrite Hd, Lw.
    replace (pos c4 + Str.length w - pos c4) with (Str.length w) by lia.
    apply take_app. }
  rewrite Hg. unfold span. rewrite <- Hm. simpl. fold i.
  eapply snippet_shows; [exact Hd| | |lia|lia].
  - intros H. rewrite H in A. simpl in A. lia.
  - eapply all_chars_mono; [|exact C]. exact Hs.
Qed.

End DetectorFacts.

(** ** The key store, again *)

Module KeyFacts.
Import StrFacts Dlp Crypto CryptoFacts.
Local Open Scope nat_scope.

Section WithFernet.
Context {F : Fernet}.

Lemma key_store_only_refl w : key_store_only w w.
Proof. repeat split; auto. Qed.

Lemma get_or_create_key_footprint w r w1 :
  get_or_create_key w = (r, w1) -> key_store_only w w1.
Proof.
  unfold get_or_create_key, mbind, io_bind, get_files.
  change (Fs.parent KEY_PATH) with "data".
  assert (Hstep : forall w0, key_store_only w w0 ->
    (if exists_ (files w0) KEY_PATH then Fs.read KEY_PATH
     else n ← draw; _ ← Fs.write KEY_PATH (generate_key n); mret (generate_key n)) w0
      = (r, w1) -> key_store_only w w1).
  { intros w0 (Hm & Hother & Hkeep).
    destruct (exists_ (files w0) KEY_PATH) eqn:He.
    - unfold Fs.read, mbind, io_bind, get_files, lift. intros [= _ <-].
      repeat split; auto.
    - unfold draw, Fs.write, mbind, io_bind, get_files, put_files, raise. simpl.
      assert (Hnone : files w0 !! KEY_PATH = None).
      { unfold exists_ in He. apply bool_decide_eq_false in He.
        destruct (files w0 !! KEY_PATH); [exfalso; eauto|reflexivity]. }
      destruct (is_dir (files w0) KEY_PATH || negb _); simpl; unfold mret, io_ret;
        intros [= _ <-]; (split; [exact Hm|]); split.
      + exact Hother.
      + exact Hkeep.
      + intros p Hp1 Hp2. simpl. rewrite lookup_insert_ne by congruence. auto.
      + intros p n Hn. apply Hkeep in Hn. simpl.
        rewrite lookup_insert_ne; [exact Hn|]. intros <-. congruence. }
  destruct (exists_ (files w) "data") eqn:Hd; simpl.
  - apply Hstep, key_store_only_refl.
  - unfold Fs.mkdir_p, mbind, io_bind, get_files, put_files, raise.
    change (Fs.ancestors "data" ++ ["data"]) with ["data"].
    cbn [existsb foldl]. rewrite orb_false_r.
    destruct (is_file (files w) "data") eqn:Hf.
    + simpl. intros [= _ <-]. apply key_store_only_refl.
    + rewrite Hd. simpl. intros H.
      apply (Hstep (World (<["data" := Dir]> (files w)) (entropy w) (metadata w)));
        [|exact H].
      simpl. split; [reflexivity|]. split.
      * intros p _ Hp. simpl. rewrite lookup_insert_ne by congruence. reflexivity.
      * intros p n Hn. simpl. rewrite lookup_insert_ne; [exact Hn|].
        intros <-. unfold exists_ in Hd. apply bool_decide_eq_false in Hd.
        apply Hd. eauto.
Qed.

Lemma key_store_only_draw w w1 :
  key_store_only w w1 ->
  key_store_only w (World (files w1) (S (entropy w1)) (metadata w1)).
Proof. intros (A & B & C). repeat split; auto. Qed.

(** Encrypting succeeds exactly when the key store is ready. *)
Lemma get_or_create_key_needs w key w1 :
  get_or_create_key w = (Ok key, w1) -> valid_key key = true ->
  key_store_ready (files w) = true.
Proof.
  intros Hrun Hv. unfold key_store_ready.
  pose proof (get_or_create_key_footprint _ _ _ Hrun) as (_ & _ & Hkeep).
  pose proof (get_or_create_key_holds _ _ _ Hrun) as [Hk1 _].
  destruct (files w !! KEY_PATH) as [n|] eqn:Hk.
  - apply Hkeep in Hk. rewrite Hk1 in Hk. injection Hk as <-. exact Hv.
  - change (Fs.parent KEY_PATH) with "data".
    destruct (is_file (files w) "data") eqn:Hf; [|reflexivity]. exfalso.
    revert Hrun. unfold get_or_create_key, mbind, io_bind, get_files.
    change (Fs.parent KEY_PATH) with "data".
    rewrite (is_file_exists _ _ Hf). simpl. unfold mret, io_ret.
    assert (He : exists_ (files w) KEY_PATH = false).
    { unfold exists_. apply bool_decide_eq_false_2. rewrite Hk. intros [? [=]]. }
    rewrite He. unfold draw, Fs.write, mbind, io_bind, get_files, put_files, raise. simpl.
    change (Fs.parent_is_dir (files w) KEY_PATH) with (is_dir (files w) "data").
    assert (Hdir : is_dir (files w) "data" = false).
    { unfold is_dir, is_file in *. destruct (files w !! "data") as [[]|]; try discriminate.
      reflexivity. }
    rewrite Hdir, orb_true_r. simpl. discriminate.
Qed.

End WithFernet.
End KeyFacts.

(** ** What the backup leaves as it was *)

Module FrameFacts.
Import Re StrFacts ReFacts Dlp DlpFacts Crypto CryptoFacts Routes RoutesFacts KeyFacts.
Local Open Scope nat_scope.

Section Frame.
Context {F : Fernet}.
Variable set_order : list string -> list string.
Variable R : world -> world -> Prop.
Variable writable : string -> Prop.
Hypothesis R_refl : forall w, R w w.
Hypothesis R_trans : forall w1 w2 w3, R w1 w2 -> R w2 w3 -> R w1 w3.
Hypothesis R_draw : forall w, R w (World (files w) (S (entropy w)) (metadata w)).
Hypothesis R_mkdir : forall p, preserves R (Fs.mkdir_p p).
Hypothesis R_write : forall p data, writable p -> preserves R (Fs.write p data).
Hypothesis R_key : preserves R get_or_create_key.

Lemma pres_ret {A} (a : A) : preserves R (mret a).
Proof. intros w r w1 [= _ <-]. apply R_refl. Qed.

Lemma pres_raise {A} e : preserves R (raise e : io A).
Proof. intros w r w1 [= _ <-]. apply R_refl. Qed.

Lemma pres_lift {A} (x : result A) : preserves R (lift x).
Proof. intros w r w1 [= _ <-]. apply R_refl. Qed.

Lemma pres_get_files : preserves R get_files.
Proof. intros w r w1 [= _ <-]. apply R_refl. Qed.

Lemma pres_draw : preserves R draw.
Proof. intros w r w1 [= _ <-]. apply R_draw. Qed.

Lemma pres_bind {A B} (m : io A) (k : A -> io B) :
  preserves R m -> (forall a, preserves R (k a)) -> preserves R (m ≫= k).
Proof.
  intros Hm Hk w r w1. unfold mbind, io_bind.
  destruct (m w) as [[a|e] w0] eqn:E; intros H.
  - apply Hk in H. apply Hm in E. eauto.
  - injection H as _ <-. apply Hm in E. exact E.
Qed.

Lemma pres_try {A} (body handler : io A) :
  preserves R body -> preserves R handler -> preserves R (try_except body handler).
Proof.
  intros Hb Hh w r w1. unfold try_except.
  destruct (body w) as [[a|e] w0] eqn:E; intros H.
  - injection H as _ <-. apply Hb in E. exact E.
  - apply Hh in H. apply Hb in E. eauto.
Qed.

Lemma pres_if {A} (b : bool) (m1 m2 : io A) :
  preserves R m1 -> preserves R m2 -> preserves R (if b then m1 else m2).
Proof. destruct b; auto. Qed.

Ltac pres :=
  repeat first
    [ solve [auto 2] | apply pres_ret | apply pres_raise | apply pres_lift
    | apply pres_get_files | apply pres_draw
    | apply pres_bind; [|intros ?] | apply pres_try | apply pres_if ].

Lemma pres_read p : preserves R (Fs.read p).
Proof. unfold Fs.read. pres. Qed.

Lemma pres_copy2 src dst : writable dst -> preserves R (Fs.copy2 src dst).
Proof. intros Hd. unfold Fs.copy2. pose proof pres_read. pres. Qed.

Lemma pres_encrypt_str value : preserves R (encrypt_str value).
Proof. unfold encrypt_str, get_fernet. pres. Qed.

Lemma pres_redact_loop toks : forall out, preserves R (redact_loop toks out).
Proof.
  induction toks as [|tok toks IH]; intros out; simpl; [apply pres_ret|].
  apply pres_bind; [|intros ?; apply IH].
  apply pres_try; [|apply pres_ret].
  apply pres_bind; [apply pres_encrypt_str|intros ?; apply pres_ret].
Qed.

Lemma pres_encrypt_sensitive content hits :
  preserves R (_encrypt_sensitive_in_text set_order content hits).
Proof.
  unfold _encrypt_sensitive_in_text. apply pres_if; [apply pres_ret|].
  apply pres_redact_loop.
Qed.

Lemma pres_is_text_file path : preserves R (_is_text_file path).
Proof. unfold _is_text_file. pose proof pres_read. pres. Qed.

Lemma pres_process src dst ff :
  writable dst -> preserves R (_process_and_copy_file set_order src dst ff).
Proof.
  intros Hd. unfold _process_and_copy_file.
  pose proof pres_read. pose proof (pres_copy2 src dst Hd).
  pose proof pres_is_text_file. pose proof pres_encrypt_sensitive.
  apply pres_bind; [auto|intros _].
  destruct ff as [f|]; [|pres].
  apply pres_if; [pres|].
  apply pres_bind; [auto|intros is_text].
  apply pres_if; [pres|].
  apply pres_bind; [pres|intros [text|]]; pres.
Qed.

Lemma pres_backup_file source backup_path findings src_file :
  writable (rel_dest source backup_path src_file) ->
  preserves R (backup_file set_order source backup_path findings src_file).
Proof.
  intros Hd. unfold backup_file. fold (rel_dest source backup_path src_file).
  pose proof (pres_process src_file _ (findings !! src_file) Hd).
  pose proof (pres_copy2 src_file _ Hd). pres.
Qed.

Lemma pres_backup_loop source backup_path findings :
  forall todo enc total,
    (forall src_file, src_file ∈ todo ->
       writable (rel_dest source backup_path src_file)) ->
    preserves R (backup_loop set_order source backup_path findings todo enc total).
Proof.
  induction todo as [|src todo IH]; intros enc total Hw; simpl; [apply pres_ret|].
  apply pres_bind.
  - apply pres_backup_file, Hw. left.
  - intros b. apply IH. intros s Hs. apply Hw. right. exact Hs.
Qed.

End Frame.

Section Frames.
Context {F : Fernet}.
Variable set_order : list string -> list string.

Lemma same_metadata_mkdir p : preserves same_metadata (Fs.mkdir_p p).
Proof.
  intros w r w1. unfold Fs.mkdir_p, mbind, io_bind, get_files, put_files, raise.
  destruct (existsb _ _); intros [= _ <-]; reflexivity.
Qed.

Lemma same_metadata_write p data : preserves same_metadata (Fs.write p data).
Proof.
  intros w r w1. unfold Fs.write, mbind, io_bind, get_files, put_files, raise.
  destruct (_ || _); intros [= _ <-]; reflexivity.
Qed.

Lemma same_metadata_key : preserves same_metadata get_or_create_key.
Proof. intros w r w1 H. apply get_or_create_key_footprint in H as [H _]. exact H. Qed.

Lemma mkdir_fold_keeps (l : list string) : forall fs p n,
  fs !! p = Some n ->
  foldl (fun fs d => if exists_ fs d then fs else <[d := Dir]> fs) fs l !! p = Some n.
Proof.
  induction l as [|d l IH]; intros fs p n Hp; simpl; [exact Hp|].
  apply IH. destruct (exists_ fs d) eqn:E; [exact Hp|].
  rewrite lookup_insert_ne; [exact Hp|]. intros <-.
  unfold exists_ in E. apply bool_decide_eq_false in E. apply E. eauto.
Qed.

Lemma kept_outside_mkdir Q p : preserves (kept_outside Q) (Fs.mkdir_p p).
Proof.
  intros w r w1. unfold Fs.mkdir_p, mbind, io_bind, get_files, put_files, raise.
  destruct (existsb _ _); intros [= _ <-]; intros q n Hq _; [exact Hq|].
  simpl. apply mkdir_fold_keeps, Hq.
Qed.

Lemma kept_outside_write (Q : string -> Prop) p data :
  Q p -> preserves (kept_outside Q) (Fs.write p data).
Proof.
  intros HQ w r w1. unfold Fs.write, mbind, io_bind, get_files, put_files, raise.
  destruct (_ || _); intros [= _ <-]; intros q n Hq Hn; [exact Hq|].
  simpl. rewrite lookup_insert_ne; [exact Hq|]. intros <-. contradiction.
Qed.

Lemma kept_outside_key Q : preserves (kept_outside Q) get_or_create_key.
Proof.
  intros w r w1 H. apply get_or_create_key_footprint in H as (_ & _ & H).
  intros p n Hp _. apply H, Hp.
Qed.

Lemma grows_refl w : grows w w.
Proof. intros ? ? ? ?. assumption. Qed.

Lemma grows_trans w1 w2 w3 : grows w1 w2 -> grows w2 w3 -> grows w1 w3.
Proof. intros A B q m Hq Hn. apply B; [apply A|]; assumption. Qed.

Lemma grows_encrypt_sensitive content hits :
  preserves grows (_encrypt_sensitive_in_text set_order content hits).
Proof.
  apply (pres_encrypt_sensitive set_order grows).
  - apply grows_refl.
  - apply grows_trans.
  - intros ? ? ? ? ?. assumption.
  - apply kept_outside_key.
Qed.

Lemma grows_process src dst ff :
  preserves (kept_outside (fun p => p = dst))
    (_process_and_copy_file set_order src dst ff).
Proof.
  apply (pres_process set_order _ (fun p => p = dst)).
  - intros ? ? ? ? ?. assumption.
  - intros ? ? ? A B q m Hq Hn. apply B; [apply A|]; assumption.
  - intros ? ? ? ? ?. assumption.
  - apply kept_outside_mkdir.
  - intros q data Hq. apply kept_outside_write, Hq.
  - apply kept_outside_key.
  - reflexivity.
Qed.

Lemma grows_backup_file source backup_path findings src :
  preserves (kept_outside (fun p => p = rel_dest source backup_path src))
    (backup_file set_order source backup_path findings src).
Proof.
  apply (pres_backup_file set_order _ (fun p => p = rel_dest source backup_path src)).
  - intros ? ? ? ? ?. assumption.
  - intros ? ? ? A B q m Hq Hn. apply B; [apply A|]; assumption.
  - intros ? ? ? ? ?. assumption.
  - apply kept_outside_mkdir.
  - intros q data Hq. apply kept_outside_write, Hq.
  - apply kept_outside_key.
  - reflexivity.
Qed.

Lemma grows_backup_loop source backup_path findings todo enc total :
  preserves (kept_outside (fun p => exists s, s ∈ todo /\ p = rel_dest source backup_path s))
    (backup_loop set_order source backup_path findings todo enc total).
Proof.
  apply (pres_backup_loop set_order _
    (fun p => exists s, s ∈ todo /\ p = rel_dest source backup_path s)).
  - intros ? ? ? ? ?. assumption.
  - intros ? ? ? A B q m Hq Hn. apply B; [apply A|]; assumption.
  - intros ? ? ? ? ?. assumption.
  - apply kept_outside_mkdir.
  - intros q data Hq. apply kept_outside_write, Hq.
  - apply kept_outside_key.
  - intros s Hs. eauto.
Qed.

End Frames.
End FrameFacts.

(** ** The backup routes *)

Module BackupFacts.
Import Re StrFacts ReFacts Dlp DlpFacts Crypto CryptoFacts Routes RoutesFacts.
Import StrMore KeyFacts FrameFacts.
Local Open Scope nat_scope.

Lemma find_none_filter name (data : list entry) :
  List.find (fun e => bool_decide (backupName e = name))
    (List.filter (fun e => negb (bool_decide (backupName e = name))) data) = None.
Proof.
  induction data as [|e data IH]; [reflexivity|]. simpl.
  destruct (bool_decide (backupName e = name)) eqn:E; simpl; [exact IH|].
  rewrite E. exact IH.
Qed.

Lemma find_other_filter name other (data : list entry) :
  other <> name ->
  List.find (fun e => bool_decide (backupName e = other))
    (List.filter (fun e => negb (bool_decide (backupName e = name))) data)
  = List.find (fun e => bool_decide (backupName e = other)) data.
Proof.
  intros Hne. induction data as [|e data IH]; [reflexivity|]. simpl.
  destruct (bool_decide (backupName e = name)) eqn:E; simpl.
  - apply bool_decide_eq_true in E.
    rewrite (bool_decide_eq_false_2 (backupName e = other)) by congruence. exact IH.
  - destruct (bool_decide (backupName e = other)); [reflexivity|exact IH].
Qed.

(** what [delete_backup] leaves behind *)
Lemma delete_backup_inv name w msg w1 :
  delete_backup name w = (Ok msg, w1) ->
  exists e,
    List.find (fun e => bool_decide (backupName e = name)) (metadata w) = Some e /\
    metadata w1 =
      List.filter (fun e => negb (bool_decide (backupName e = name))) (metadata w) /\
    entropy w1 = entropy w /\
    files w1 =
      (if exists_ (files w) (backupPath e)
       then filter (fun kv => kv.1 <> backupPath e /\ below (backupPath e) kv.1 = false)
              (files w)
       else files w) /\
    (exists_ (files w) (backupPath e) = true -> is_dir (files w) (backupPath e) = true).
Proof.
  unfold delete_backup, mbind, io_bind, load_metadata, save_metadata.
  destruct (List.find _ (metadata w)) as [e|] eqn:Hfind; [|intros [=]].
  unfold get_files. destruct (exists_ (files w) (backupPath e)) eqn:He.
  - unfold rmtree, mbind, io_bind, get_files, put_files, raise.
    destruct (is_dir (files w) (backupPath e)) eqn:Hd; [|intros [=]].
    unfold mret, io_ret. intros [= <- <-]. exists e. simpl. rewrite He.
    repeat split; auto.
  - unfold mret, io_ret. intros [= <- <-]. exists e. simpl. rewrite He.
    repeat split; auto. discriminate.
Qed.

Lemma rglob_below fs root p : p ∈ rglob fs root -> below root p = true.
Proof.
  unfold rglob. destruct (is_dir fs root); [|intros H; inversion H].
  intros H. apply list_elem_of_In, filter_In in H as [_ H]. exact H.
Qed.

Lemma rel_dest_below source backup_path src_file :
  below source src_file = true ->
  below backup_path (rel_dest source backup_path src_file) = true.
Proof.
  unfold below, rel_dest. intros H. apply starts_with_split in H.
  set (x := Str.drop _ src_file) in H. rewrite H, app_assoc, drop_app.
  rewrite <- app_assoc. apply starts_with_app.
Qed.

Lemma walk_files_below fs source src_file :
  src_file ∈ walk_files fs source -> below source src_file = true.
Proof.
  unfold walk_files. intros H. apply list_elem_of_In, filter_In in H as [H _].
  apply list_elem_of_In in H. eapply rglob_below, H.
Qed.

Lemma rglob_NoDup fs root : NoDup (rglob fs root).
Proof.
  unfold rglob. destruct (is_dir fs root); [|constructor].
  apply NoDup_ListNoDup, List.NoDup_filter, NoDup_ListNoDup, NoDup_fst_map_to_list.
Qed.

Lemma walk_files_NoDup fs root : NoDup (walk_files fs root).
Proof.
  unfold walk_files. apply NoDup_ListNoDup, List.NoDup_filter, NoDup_ListNoDup, rglob_NoDup.
Qed.

(** The findings of a directory scan are findings of regular files below
    the root, so there are no more of them than files. *)
Lemma scan_directory_size M fs root findings :
  scan_directory M fs root = Ok findings ->
  size findings <= length (walk_files fs root).
Proof.
  intros H. rewrite <- length_map_to_list, <- (length_fmap fst).
  apply submseteq_length, NoDup_submseteq; [apply NoDup_fst_map_to_list|].
  intros p [[q f] [-> Hq]]%list_elem_of_fmap. simpl.
  apply elem_of_map_to_list in Hq.
  rewrite (scan_directory_lookup _ _ _ _ _ H) in Hq.
  case_decide as Hp; [|discriminate]. apply stored_Some in Hq as [Hf _].
  unfold walk_files. apply list_elem_of_In, filter_In. split; [|exact Hf].
  apply list_elem_of_In, Hp.
Qed.

Lemma read_inv p w r w1 : Fs.read p w = (r, w1) -> w1 = w /\ r = read_bytes (files w) p.
Proof. unfold Fs.read, mbind, io_bind, get_files, lift. intros [= <- <-]. auto. Qed.

Lemma write_inv p data w r w1 :
  Fs.write p data w = (r, w1) ->
  (exists e, r = Err e /\ w1 = w) \/
  (r = Ok tt /\ files w1 = <[p := File (Some data)]> (files w)).
Proof.
  unfold Fs.write, mbind, io_bind, get_files, put_files, raise.
  destruct (_ || _); intros [= <- <-]; [left; eauto|right; auto].
Qed.

Lemma copy2_inv src dst w w1 :
  Fs.copy2 src dst w = (Ok tt, w1) ->
  exists data, files w !! src = Some (File (Some data)) /\
    files w1 !! dst = Some (File (Some data)).
Proof.
  unfold Fs.copy2, mbind, io_bind.
  destruct (Fs.read src w) as [[data|e] w0] eqn:Hr; [|intros [=]].
  apply read_inv in Hr as [-> Hr]. intros Hw.
  apply write_inv in Hw as [(e & [=] & _)|[_ Hw]].
  exists data. split.
  - unfold read_bytes in Hr. destruct (files w !! src) as [[|[raw|]]|]; congruence.
  - rewrite Hw. apply lookup_insert_eq.
Qed.

Lemma is_text_file_inv path w r w1 :
  _is_text_file path w = (r, w1) -> w1 = w /\ exists b, r = Ok b.
Proof.
  unfold _is_text_file, try_except, mbind, io_bind.
  destruct (Fs.read path w) as [[data|e] w0] eqn:Hr; apply read_inv in Hr as [-> _].
  - destruct (Str.contains _ _); [intros [= <- <-]; eauto|].
    destruct (bool_decide _); intros [= <- <-]; eauto.
  - intros [= <- <-]. eauto.
Qed.

Lemma rel_dest_inj source backup_path s1 s2 :
  below source s1 = true -> below source s2 = true ->
  rel_dest source backup_path s1 = rel_dest source backup_path s2 -> s1 = s2.
Proof.
  unfold below, rel_dest. intros H1 H2 H. apply app_inv_head in H.
  apply starts_with_split in H1, H2. rewrite app_assoc in H1, H2.
  assert (E : forall s x, s = source +:+ x -> Str.drop (Str.length source) s = x)
    by (intros s x ->; apply drop_app).
  rewrite (E _ _ H1), (E _ _ H2) in H. congruence.
Qed.

Lemma scan_file_same M' fs fs' p :
  fs' !! p = fs !! p -> scan_file M' fs' p = scan_file M' fs p.
Proof.
  intros H. unfold scan_file, _read_file_safe, read_bytes. rewrite H. reflexivity.
Qed.

Section WithEnv.
Context {F : Fernet}.
Variable M : models.
Variable set_order : list string -> list string.
Variable abspath : string -> string.
Variable isoformat_now : nat -> string.


(** what the route does between the checks and the metadata *)
Lemma create_backup_run payload w r w1 :
  create_backup M set_order abspath isoformat_now payload w = (r, w1) ->
  (exists e, r = Err e /\ w1 = w /\
     (given payload "sourcePath" = None \/ given payload "backupName" = None \/
      (exists source, given payload "sourcePath" = Some source /\
         exists_ (files w) source = false) \/
      (exists name, given payload "backupName" = Some name /\
         exists_ (files w) (BACKUP_DIR +:+ "/" +:+ name) = true))) \/
  exists source name,
    given payload "sourcePath" = Some source /\
    given payload "backupName" = Some name /\
    exists_ (files w) source = true /\
    exists_ (files w) (BACKUP_DIR +:+ "/" +:+ name) = false /\
    ((exists e w0, get_or_create_key w = (Err e, w0) /\ r = Err e /\ w1 = w0) \/
     exists key w0 findings,
       get_or_create_key w = (Ok key, w0) /\
       scan_directory M (files w0) source = Ok findings /\
       ((exists e, r = Err e /\
           backup_loop set_order source (BACKUP_DIR +:+ "/" +:+ name) findings
             (walk_files (files w0) source) 0 0 w0 = (Err e, w1)) \/
        exists enc total w2 e,
          backup_loop set_order source (BACKUP_DIR +:+ "/" +:+ name) findings
            (walk_files (files w0) source) 0 0 w0 = (Ok (enc, total), w2) /\
          r = Ok e /\
          w1 = World (files w2) (S (entropy w2)) (metadata w2 ++ [e]) /\
          backupName e = name /\ sourcePath e = abspath source /\
          backupPath e = BACKUP_DIR +:+ "/" +:+ name /\
          createdAt e = isoformat_now (entropy w2) /\
          totalFiles e = total /\ encryptedFiles e = enc /\
          sensitiveFiles e = size findings)).
Proof.
  unfold create_backup.
  destruct (given payload "sourcePath") as [source|];
    [|intros [= <- <-]; left; eauto 7].
  destruct (given payload "backupName") as [name|];
    [|intros [= <- <-]; left; eauto 7].
  unfold mbind at 1, io_bind at 1, get_files at 1.
  destruct (exists_ (files w) source) eqn:Hs; simpl;
    [|intros [= <- <-]; left; eauto 9].
  destruct (exists_ (files w) (BACKUP_DIR +:+ "/" +:+ name)) eqn:Hb;
    [intros [= <- <-]; left; eauto 10|].
  intros H. right. exists source, name.
  split; [reflexivity|]. split; [reflexivity|]. split; [exact Hs|]. split; [exact Hb|].
  revert H. unfold mbind at 1, io_bind at 1.
  destruct (get_or_create_key w) as [[key|e] w0] eqn:Hk;
    [|intros [= <- <-]; left; eauto].
  cbv beta iota. intros H. right. exists key, w0.
  revert H. unfold mbind at 1, io_bind at 1, get_files at 1.
  unfold mbind at 1, io_bind at 1, lift at 1.
  rewrite scan_directory_fold.
  set (findings := foldl _ _ _).
  intros H. exists findings. split; [reflexivity|]. split; [reflexivity|].
  revert H. unfold mbind at 1, io_bind at 1.
  destruct (backup_loop _ _ _ _ _ _ _ w0) as [[[enc total]|e] w2] eqn:Hl;
    [|intros [= <- <-]; left; eauto].
  unfold mbind, io_bind, draw, load_metadata, save_metadata, mret, io_ret. simpl.
  intros [= <- <-]. right. exists enc, total, w2. eexists.
  split; [reflexivity|]. split; [reflexivity|]. simpl. repeat split.
Qed.

(** The copy loop leaves the metadata as it was. *)
Lemma backup_loop_same_metadata source backup_path findings todo enc total w r w1 :
  backup_loop set_order source backup_path findings todo enc total w = (r, w1) ->
  metadata w1 = metadata w.
Proof.
  intros Hl.
  apply (pres_backup_loop set_order same_metadata (fun _ => True)) in Hl.
  - exact Hl.
  - intros ?. reflexivity.
  - intros ? ? ? A B. unfold same_metadata in *. congruence.
  - intros ?. reflexivity.
  - apply same_metadata_mkdir.
  - intros p data _. apply same_metadata_write.
  - apply same_metadata_key.
  - intros ? _. exact I.
Qed.

(** A backup that succeeds appends its entry to the metadata. *)
Lemma create_backup_appends payload w e w1 :
  create_backup M set_order abspath isoformat_now payload w = (Ok e, w1) ->
  metadata w1 = metadata w ++ [e].
Proof.
  intros H. apply create_backup_run in H
    as [(e0 & [=] & _)|(source & name & _ & _ & _ & _ & H)].
  destruct H as [(e0 & w0 & _ & [=] & _)|(key & w0 & findings & Hk & _ & H)].
  destruct H as [(e0 & [=] & _)|(enc & total & w2 & e' & Hl & [= <-] & -> & _)].
  apply same_metadata_key in Hk. apply backup_loop_same_metadata in Hl.
  simpl. unfold same_metadata in Hk. congruence.
Qed.

(** A file that is not encrypted is copied as it is; only a text file
    with a Medium or High finding is encrypted. *)
Lemma process_and_copy_file_copy src dst ff w b w1 data :
  files w !! src = Some (File (Some data)) ->
  _process_and_copy_file set_order src dst ff w = (Ok b, w1) ->
  (b = false -> files w1 !! dst = Some (File (Some data))) /\
  (b = true ->
     exists f, ff = Some f /\ risk_label_of f ∈ ["Medium"; "High"]).
Proof.
  intros Hsrc. unfold _process_and_copy_file. unfold mbind at 1, io_bind at 1.
  destruct (Fs.mkdir_p _ w) as [[[]|e] w0] eqn:Hmk; [|intros [=]].
  apply (kept_outside_mkdir (fun _ => False)) in Hmk.
  assert (Hsrc0 : files w0 !! src = Some (File (Some data))) by (apply Hmk; auto).
  assert (Hcopy : forall w', files w' !! src = Some (File (Some data)) ->
    (_ ← Fs.copy2 src dst; mret false) w' = (Ok b, w1) ->
    (b = false -> files w1 !! dst = Some (File (Some data))) /\
    (b = true -> exists f, ff = Some f /\ risk_label_of f ∈ ["Medium"; "High"])).
  { intros w' Hs'. unfold mbind, io_bind.
    destruct (Fs.copy2 src dst w') as [[[]|e] w''] eqn:Hc; [|intros [=]].
    intros [= <- <-]. split; [|discriminate]. intros _.
    apply copy2_inv in Hc as (data' & Hd1 & Hd2). congruence. }
  destruct ff as [f|]; [|apply Hcopy, Hsrc0].
  case_bool_decide as Hlab; cbn [negb]; [|apply Hcopy, Hsrc0].
  unfold mbind at 1, io_bind at 1.
  destruct (_is_text_file src w0) as [r' w0'] eqn:Ht.
  apply is_text_file_inv in Ht as [-> [is_text ->]].
  destruct is_text; cbn [negb]; [|apply Hcopy, Hsrc0].
  unfold mbind at 1, io_bind at 1, try_except at 1.
  unfold mbind at 1, io_bind at 1.
  destruct (Fs.read src w0) as [r' w0'] eqn:Hrd. apply read_inv in Hrd as [-> ->].
  unfold read_bytes. rewrite Hsrc0. unfold mret at 1, io_ret at 1.
  unfold mbind at 1, io_bind at 1.
  destruct (_encrypt_sensitive_in_text _ _ _ w0) as [[new_text|e] w2] eqn:Henc;
    [|intros [=]].
  apply grows_encrypt_sensitive in Henc.
  assert (Hsrc2 : files w2 !! src = Some (File (Some data))) by (apply Henc; auto).
  unfold try_except, mbind at 1, io_bind at 1.
  destruct (Fs.write dst new_text w2) as [[[]|e] w3] eqn:Hw.
  - intros [= <- <-]. split; [discriminate|]. eauto.
  - apply write_inv in Hw as [(e' & _ & ->)|[[=] _]]. apply Hcopy, Hsrc2.
Qed.

Lemma backup_file_copy source backup_path findings src w b w1 data :
  files w !! src = Some (File (Some data)) ->
  src <> rel_dest source backup_path src ->
  backup_file set_order source backup_path findings src w = (Ok b, w1) ->
  (b = false ->
     files w1 !! rel_dest source backup_path src = Some (File (Some data))) /\
  (b = true ->
     exists f, findings !! src = Some f /\ risk_label_of f ∈ ["Medium"; "High"]).
Proof.
  intros Hsrc Hne. unfold backup_file. fold (rel_dest source backup_path src).
  unfold try_except.
  destruct (_process_and_copy_file _ _ _ _ w) as [[b'|e] w0] eqn:Hp.
  - intros [= <- <-]. eapply process_and_copy_file_copy; eassumption.
  - apply grows_process in Hp.
    assert (Hsrc0 : files w0 !! src = Some (File (Some data))) by (apply Hp; auto).
    unfold mbind at 1, io_bind at 1.
    destruct (Fs.mkdir_p _ w0) as [[[]|e'] w2] eqn:Hmk; [|intros [=]].
    apply (kept_outside_mkdir (fun _ => False)) in Hmk.
    assert (Hsrc2 : files w2 !! src = Some (File (Some data))) by (apply Hmk; auto).
    unfold mbind, io_bind.
    destruct (Fs.copy2 _ _ w2) as [[[]|e'] w3] eqn:Hc; [|intros [=]].
    intros [= <- <-]. split; [|discriminate]. intros _.
    apply copy2_inv in Hc as (data' & Hd1 & Hd2). congruence.
Qed.

(** The copy loop leaves a copy as it is of every file whose finding is
    not Medium or High. *)
Lemma backup_loop_copy source backup_path findings :
  forall todo enc total w c w1,
    NoDup todo ->
    (forall s, s ∈ todo -> below source s = true /\ below backup_path s = false) ->
    backup_loop set_order source backup_path findings todo enc total w = (Ok c, w1) ->
    forall src data,
      src ∈ todo -> files w !! src = Some (File (Some data)) ->
      (forall f, findings !! src = Some f -> risk_label_of f ∉ ["Medium"; "High"]) ->
      files w1 !! rel_dest source backup_path src = Some (File (Some data)).
Proof.
  induction todo as [|x todo IH]; intros enc total w c w1 Hnd Hall Hrun src data Hin Hsrc Hlow;
    [inversion Hin|].
  apply NoDup_cons in Hnd as [Hx Hnd].
  simpl in Hrun. unfold mbind, io_bind in Hrun.
  destruct (backup_file _ _ _ _ _ w) as [[b|e] w0] eqn:Hb; [|discriminate].
  assert (Hdiff : forall s, s ∈ x :: todo -> s <> rel_dest source backup_path x).
  { intros s Hs Heq. destruct (Hall s Hs) as [_ Hout].
    destruct (Hall x ltac:(left)) as [Hbx _].
    apply (rel_dest_below _ backup_path) in Hbx. congruence. }
  apply elem_of_cons in Hin as [->|Hin].
  - pose proof (backup_file_copy _ _ _ _ _ _ _ _ Hsrc (Hdiff x ltac:(left)) Hb) as [Hf Ht].
    destruct b.
    + destruct (Ht eq_refl) as (f & Hfx & Hlab). exfalso. eapply Hlow; eassumption.
    + apply grows_backup_loop in Hrun. apply Hrun; [auto|].
      intros (s & Hs & Heq). apply rel_dest_inj in Heq.
      * congruence.
      * apply Hall. left.
      * apply Hall. right. exact Hs.
  - apply grows_backup_file in Hb.
    eapply IH; [exact Hnd| |exact Hrun|exact Hin| |exact Hlow].
    + intros s Hs. apply Hall. right. exact Hs.
    + apply Hb; [exact Hsrc|]. apply Hdiff. right. exact Hin.
Qed.

End WithEnv.
End BackupFacts.

(** ** The export route *)

Module ExportFacts.
Import Re StrFacts ReFacts Dlp DlpFacts DetectorFacts ExportRoute.
Local Open Scope nat_scope.

Lemma strings_of_strs (l : list string) : strings_of (JStr <$> l) = Returned l.
Proof.
  induction l as [|s l IH]; [reflexivity|].
  cbn [fmap list_fmap strings_of]. change (list_fmap _ _ JStr l) with (JStr <$> l).
  rewrite IH. reflexivity.
Qed.

Lemma for_each_map {A B : Type} (f : A -> outcome (list B)) (g : A -> list B) l :
  (forall x, x ∈ l -> f x = Returned (g x)) ->
  for_each f l = Returned (concat (g <$> l)).
Proof.
  induction l as [|x l IH]; intros H; [reflexivity|].
  cbn [for_each]. rewrite (H x) by left.
  rewrite IH by (intros y Hy; apply H; right; exact Hy). reflexivity.
Qed.

Lemma hits_json_pairs h :
  hits_json h = JObj (prod_map id (fun l => JArr (JStr <$> l)) <$> hit_pairs h).
Proof.
  unfold hits_json, hit_pairs. fold DETECTORS. f_equal.
  induction DETECTORS as [|name names IH]; [reflexivity|].
  cbn [omap list_omap]. destruct (h !! name) as [l|]; cbn [fmap option_fmap option_map].
  - cbn [list_fmap]. f_equal. exact IH.
  - exact IH.
Qed.

Lemma for_each_fmap {A A' B : Type} (f : A' -> outcome (list B)) (c : A -> A')
    (g : A -> list B) (l : list A) :
  (forall x, x ∈ l -> f (c x) = Returned (g x)) ->
  for_each f (c <$> l) = Returned (concat (g <$> l)).
Proof.
  induction l as [|x l IH]; intros H; [reflexivity|].
  cbn [fmap list_fmap for_each]. rewrite (H x) by left.
  change (list_fmap _ _ c l) with (c <$> l).
  rewrite IH by (intros y Hy; apply H; right; exact Hy). reflexivity.
Qed.

Lemma concat_singletons {A B : Type} (r : A -> B) (l : list A) :
  concat ((fun x => [r x]) <$> l) = r <$> l.
Proof. induction l as [|x l IH]; [reflexivity|]. simpl. f_equal. exact IH. Qed.

Lemma truthy_obj_map {A} (g : A -> string * json) (l : list A) :
  truthy (JObj (g <$> l)) = negb (bool_decide (l = [])).
Proof. destruct l; reflexivity. Qed.

Lemma rows_of_finding p f : rows_of (p, finding_json f) = Returned (rows_for p f).
Proof.
  unfold rows_of, finding_json, rows_for.
  cbn [get lookup_key List.find fst snd bool_decide mbind outcome_bind fmap option_fmap option_map].
  rewrite hits_json_pairs.
  repeat (rewrite ?bool_decide_eq_false_2 by discriminate;
          rewrite ?bool_decide_eq_true_2 by reflexivity;
          cbn [fmap option_fmap option_map snd mbind outcome_bind]).
  rewrite truthy_obj_map.
  destruct (hit_pairs (hits f)) as [|pr prs] eqn:E; [reflexivity|].
  rewrite bool_decide_eq_false_2 by discriminate. cbn [negb items mbind outcome_bind].
  rewrite (for_each_fmap _ _ (fun x : string * list string =>
     [[JStr p; JStr x.1; JStr (join ";" x.2)] ++
       [JStr (confidence f); JNum (ctx_score f); JNum (inject_Z (risk_score f));
        JStr (risk_label_of f)]])).
  - rewrite concat_singletons. unfold mret, outcome_ret. f_equal.
    apply list_fmap_ext. intros _ [htype l] _. reflexivity.
  - intros [htype l] _.
    cbn [prod_map id fst snd join_value mbind outcome_bind].
    rewrite strings_of_strs. reflexivity.
Qed.

(** A finding of a scan has as many pairs as detector types with hits. *)
Lemma hit_pairs_length (h : gmap string (list string)) :
  (forall k, is_Some (h !! k) -> k ∈ DETECTORS) ->
  length (hit_pairs h) = size h.
Proof.
  intros Hkeys. rewrite <- length_map_to_list.
  apply Permutation_length, NoDup_Permutation.
  - unfold hit_pairs. apply (NoDup_fmap_1 fst).
    assert (Hsub : forall L, NoDup L ->
      NoDup (fst <$> omap (fun name => (fun l => (name, l)) <$> h !! name) L) /\
      forall k, k ∈ (fst <$> omap (fun name => (fun l => (name, l)) <$> h !! name) L) -> k ∈ L).
    { induction L as [|name L IH]; intros Hnd.
      - split; [constructor|]. intros k Hk. inversion Hk.
      - apply NoDup_cons in Hnd as [Hname Hnd]. destruct (IH Hnd) as [IH1 IH2].
        cbn [omap list_omap]. destruct (h !! name) as [l|]; cbn [fmap option_fmap option_map].
        + cbn [list_fmap fst]. split.
          * apply NoDup_cons. split; [|exact IH1]. intros Hin. apply Hname, IH2, Hin.
          * intros k [->|Hk]%elem_of_cons; [left|right; apply IH2, Hk].
        + split; [exact IH1|]. intros k Hk. right. apply IH2, Hk. }
    apply Hsub. unfold DETECTORS. apply NoDup_ListNoDup.
    repeat (constructor; [cbn; intuition discriminate|]). constructor.
  - apply NoDup_map_to_list.
  - intros [k l]. rewrite elem_of_map_to_list. unfold hit_pairs.
    rewrite list_elem_of_omap. split.
    + intros (name & _ & Hl). destruct (h !! name) as [l'|] eqn:E; [|discriminate].
      simpl in Hl. injection Hl as <- <-. exact E.
    + intros Hl. exists k. split; [apply Hkeys; eauto|]. rewrite Hl. reflexivity.
Qed.

Lemma rows_for_spec p f :
  length (rows_for p f) = Nat.max 1 (length (hit_pairs (hits f))) /\
  forall row, row ∈ rows_for p f -> length row = 7 /\ row !! 0 = Some (JStr p).
Proof.
  unfold rows_for. destruct (hit_pairs (hits f)) as [|pr prs].
  - split; [reflexivity|]. intros row ->%list_elem_of_singleton. split; reflexivity.
  - split; [rewrite length_fmap; simpl; lia|].
    intros row ([htype l] & -> & _)%list_elem_of_fmap. split; reflexivity.
Qed.

Lemma scan_hit_keys M fs p f :
  scan_file M fs p = Ok (Some f) -> forall k, is_Some (hits f !! k) -> k ∈ DETECTORS.
Proof.
  unfold scan_file. intros (_ & -> & _)%scan_text_inv k [l Hl].
  destruct (detect_all_paired (_read_file_safe fs p) k) as [[Hnone _]|(l' & s & _ & _ & _ & _ & Hin)];
    [congruence|exact Hin].
Qed.

End ExportFacts.

(** ** What the backup raises *)

Module AbortFacts.
Import Re StrFacts ReFacts Dlp DlpFacts Crypto CryptoFacts Routes RoutesFacts.
Import StrMore KeyFacts FrameFacts BackupFacts.
Local Open Scope nat_scope.

Section WithEnv.
Context {F : Fernet}.
Variable set_order : list string -> list string.

Lemma only_ret {A} (a : A) : raises_only_oserror (mret a).
Proof. intros w e w1 [=]. Qed.

Lemma only_bind {A B} (m : io A) (k : A -> io B) :
  raises_only_oserror m -> (forall a, raises_only_oserror (k a)) ->
  raises_only_oserror (m ≫= k).
Proof.
  intros Hm Hk w e w1. unfold mbind, io_bind.
  destruct (m w) as [[a|e'] w0] eqn:E; intros H.
  - eapply Hk, H.
  - injection H as <- <-. eapply Hm, E.
Qed.

Lemma only_try {A} (body handler : io A) :
  raises_only_oserror handler -> raises_only_oserror (try_except body handler).
Proof.
  intros Hh w e w1. unfold try_except.
  destruct (body w) as [[a|e'] w0]; intros H; [discriminate|eapply Hh, H].
Qed.

Lemma only_mkdir_p p : raises_only_oserror (Fs.mkdir_p p).
Proof.
  intros w e w1. unfold Fs.mkdir_p, mbind, io_bind, get_files, put_files, raise.
  destruct (existsb _ _); intros [= <- _]; reflexivity.
Qed.

Lemma only_write p data : raises_only_oserror (Fs.write p data).
Proof.
  intros w e w1. unfold Fs.write, mbind, io_bind, get_files, put_files, raise.
  destruct (_ || _); intros [= <- _]; reflexivity.
Qed.

Lemma only_read p : raises_only_oserror (Fs.read p).
Proof.
  intros w e w1 H. apply read_inv in H as [_ H]. unfold read_bytes in H.
  destruct (files w !! p) as [[|[raw|]]|]; congruence.
Qed.

Lemma only_copy2 src dst : raises_only_oserror (Fs.copy2 src dst).
Proof.
  unfold Fs.copy2. apply only_bind; [apply only_read|intros ?; apply only_write].
Qed.


Lemma only_redact_loop toks : forall out, raises_only_oserror (redact_loop toks out).
Proof.
  induction toks as [|tok toks IH]; intros out; simpl; [apply only_ret|].
  apply only_bind; [apply only_try, only_ret|intros ?; apply IH].
Qed.

Lemma only_process src dst ff :
  raises_only_oserror (_process_and_copy_file set_order src dst ff).
Proof.
  assert (Hcopy : raises_only_oserror (_ ← Fs.copy2 src dst; mret false)).
  { apply only_bind; [apply only_copy2|intros _; apply only_ret]. }
  unfold _process_and_copy_file. apply only_bind; [apply only_mkdir_p|intros _].
  destruct ff as [f|]; [|exact Hcopy].
  destruct (negb (bool_decide _)); [exact Hcopy|].
  apply only_bind; [apply only_try, only_ret|intros is_text].
  destruct (negb is_text); [exact Hcopy|].
  apply only_bind; [apply only_try, only_ret|intros [text|]]; [|exact Hcopy].
  apply only_bind; [|intros new_text; apply only_try, Hcopy].
  unfold _encrypt_sensitive_in_text. destruct (bool_decide _); [apply only_ret|].
  apply only_redact_loop.
Qed.







End WithEnv.
End AbortFacts.

(** ** Binary64 arithmetic and the risk score *)

Module Binary64Facts.
Import Dlp DlpFacts ScoreFacts Binary64.
Local Open Scope Z_scope.

(** *** The digits of a mantissa *)



(** *** Shifting to the right *)






(** *** Rounding a mantissa to the format *)





(** *** Values *)












(** *** Aligning, and the operations *)















(** *** From the operations to the score *)


Lemma py_round_wd (x y : Q) : (x == y)%Q -> py_round x = py_round y.
Proof.
  intros H. unfold py_round. rewrite (Qfloor_comp _ _ H).
  assert (Hc : (x - inject_Z (Qfloor y) ?= 1 # 2)%Q = (y - inject_Z (Qfloor y) ?= 1 # 2)%Q).
  { apply Qcompare_comp; [rewrite H|]; reflexivity. }
  rewrite Hc. reflexivity.
Qed.









End Binary64Facts.

(** ** The scanner when the file system fails *)

Module StatFacts.
Import Dlp DlpFacts.

Lemma scan_loop_open M d : forall todo results,
  (forall p, p ∈ todo -> p ∉ Stat.denied d) ->
  Stat.scan_loop M d todo results
    = Ok (foldl (scan_step M (Stat.nodes d)) results todo).
Proof.
  induction todo as [|p todo IH]; intros results Hopen; [reflexivity|].
  cbn [Stat.scan_loop foldl]. unfold Stat.is_file, Stat.stat.
  rewrite decide_False by (apply Hopen; left).
  assert (Hrest : forall q, q ∈ todo -> q ∉ Stat.denied d)
    by (intros q Hq; apply Hopen; right; exact Hq).
  unfold scan_step, is_file.
  destruct (Stat.nodes d !! p) as [[|data]|]; cbn [negb]; rewrite IH by exact Hrest;
    reflexivity.
Qed.

Lemma scan_loop_denied M d : forall todo results p,
  p ∈ todo -> p ∈ Stat.denied d -> Stat.scan_loop M d todo results = Err OSError.
Proof.
  induction todo as [|x todo IH]; intros results p Hin Hp; [inversion Hin|].
  cbn [Stat.scan_loop]. unfold Stat.is_file, Stat.stat.
  destruct (decide (x ∈ Stat.denied d)) as [Hx|Hx]; [reflexivity|].
  apply elem_of_cons in Hin as [->|Hin]; [contradiction|].
  destruct (Stat.nodes d !! x) as [[|data]|]; eapply IH; eassumption.
Qed.

Lemma listing_works d root :
  (forall q, q ∈ Stat.faulty d -> q <> root /\ below root q = false) ->
  Stat.rglob d root = Ok (rglob (Stat.nodes d) root).
Proof.
  intros Hok. unfold Stat.rglob, Stat.listing_fails.
  replace (existsb _ _) with false; [rewrite andb_false_r; reflexivity|].
  symmetry. apply not_true_is_false. intros (q & Hq & Hb)%existsb_exists.
  apply list_elem_of_In, elem_of_elements, Hok in Hq as [Hne Hbelow].
  rewrite Hbelow, bool_decide_eq_false_2 in Hb by exact Hne. discriminate Hb.
Qed.

(** With nothing denied and no listing that fails, the scan is the scan
    of [Dlp]. *)
Lemma scan_directory_open M d root :
  root ∉ Stat.denied d ->
  (forall q, q ∈ Stat.faulty d -> q <> root /\ below root q = false) ->
  (forall p, p ∈ rglob (Stat.nodes d) root -> p ∉ Stat.denied d) ->
  Stat.scan_directory M d root = scan_directory M (Stat.nodes d) root.
Proof.
  intros Hroot Hlist Hopen. unfold Stat.scan_directory, Stat.exists_, Stat.stat.
  rewrite decide_False by exact Hroot. rewrite scan_directory_fold.
  fold (exists_ (Stat.nodes d) root).
  destruct (exists_ (Stat.nodes d) root) eqn:E.
  - rewrite listing_works by exact Hlist. apply scan_loop_open, Hopen.
  - rewrite rglob_missing by exact E. reflexivity.
Qed.

End StatFacts.

(** * The claims *)

(** ** Risk scoring *)

Section RiskClaims.
Import ScoreFacts Binary64Facts.
Local Open Scope Z_scope.


End RiskClaims.



(** ** The file scanner *)

Section ScanClaims.
Local Open Scope nat_scope.

(** C1. A file whose text is not empty and in which no detector found
    anything is reported with risk score 0 and label Low, whatever context
    score was computed for it. *)
Theorem C1_no_hits_forces_low M fs path ctx :
  _read_file_safe fs path <> EmptyString ->
  (detect_all (_read_file_safe fs path)).1 = ∅ ->
  context_score M (_read_file_safe fs path) = Ok ctx ->
  exists f, scan_file M fs path = Ok (Some f) /\
    hits f = ∅ /\ ctx_score f = py_round3 ctx /\
    risk_score f = 0%Z /\ risk_label_of f = "Low".
Proof.
  intros Ht Hh Hc. unfold scan_file.
  destruct (scan_text_ok M _ ctx Ht Hc) as [f Hf]. exists f. split; [exact Hf|].
  apply scan_text_inv in Hf as (_ & Hhits & _ & ctx' & Hc' & Hcs & Hlow & _).
  rewrite Hc in Hc'. injection Hc' as <-. rewrite Hh in Hhits.
  destruct (Hlow Hhits) as (_ & ? & ?). auto.
Qed.

Lemma C1_witness :
  exists f, scan_file no_models tree "docs/memo.txt" = Ok (Some f) /\
    hits f = ∅ /\ (0 < ctx_score f)%Q /\
    risk_score f = 0%Z /\ risk_label_of f = "Low".
Proof.
  destruct (C1_no_hits_forces_low no_models tree "docs/memo.txt" (900 # 6000))
    as (f & Hf & Hh & Hc & Hr & Hl).
  - vm_compute. discriminate.
  - vm_compute. reflexivity.
  - vm_compute. reflexivity.
  - exists f. rewrite Hc.
    split; [exact Hf|]. split; [exact Hh|]. split; [reflexivity|].
    split; assumption.
Defined.

(** C5, as the code has it.  Every hit stored under [credit_card] comes
    from a candidate matched by [CC_RE], made of digits, spaces and hyphens
    with 13 to 19 digits; the
    hit is that candidate with the separators stripped, a string of 13 to 19
    digits that passes [_luhn_check], which is the Luhn checksum taken from
    the rightmost digit.  A valid card number goes through unchanged: where
    it stands as a word of its own with no digit before it, and so where it
    is the whole text, it is the credit-card hit; for 4111111111111111 that
    is the only one. *)
Theorem C5_credit_card_hits_pass_luhn :
  (forall M fs path f l h,
     scan_file M fs path = Ok (Some f) ->
     hits f !! "credit_card" = Some l -> h ∈ l ->
     let text := _read_file_safe fs path in
     exists m, m ∈ finditer CC_RE text /\
       let candidate := group0 text m in
       all_chars (fun a => Chr.is_digit a || Chr.one_of " -" a) candidate = true /\
       13 <= Str.length (strip_non_digits candidate) <= 19 /\
       h = strip_separators candidate /\
       all_chars Chr.is_digit h = true /\
       13 <= Str.length h <= 19 /\
       _luhn_check h = true /\
       Spec.luhn_valid (Chr.digit_val <$> Str.to_list h) = true) /\
  (forall pre num post,
     all_chars (fun a => negb (Chr.is_digit a)) pre = true ->
     word_at (last_after None pre) = false ->
     all_chars Chr.is_digit num = true ->
     _luhn_check num = true ->
     word_at (next post) = false ->
     exists more,
       (detect_all (pre +:+ num +:+ post)).1 !! "credit_card"
         = Some (num :: more)) /\
  (detect_all "4111111111111111").1 !! "credit_card" = Some ["4111111111111111"] /\
  (forall M fs path ctx,
     _read_file_safe fs path = "4111111111111111" ->
     context_score M "4111111111111111" = Ok ctx ->
     exists f, scan_file M fs path = Ok (Some f) /\
       hits f !! "credit_card" = Some ["4111111111111111"]).
Proof.
  split; [|split; [|split]].
  - intros M fs path f l h Hscan Hl Hh text.
    rewrite (scan_file_hits _ _ _ _ Hscan), detect_credit_card in Hl. fold text in Hl.
    apply if_any_Some in Hl as [-> _].
    apply list_elem_of_fmap in Hh as (m & -> & Hm).
    apply list_elem_of_In, filter_In in Hm as [Hm Hluhn]. apply list_elem_of_In in Hm.
    exists m. split; [exact Hm|]. cbn zeta.
    pose proof (finditer_group0 _ _ _ Hm) as (Hc & _ & _).
    assert (Hcs : all_chars (fun a => Chr.is_digit a || Chr.one_of " -" a)
                    (group0 text m) = true).
    { eapply all_chars_mono; [|exact Hc]. simpl. intros a.
      rewrite orb_false_r. auto. }
    pose proof (stripped_candidate_digits _ Hcs) as Hd.
    pose proof (luhn_check_length _ Hluhn) as Hlen.
    split; [exact Hcs|]. split.
    { unfold strip_non_digits, strip_separators in *.
      rewrite filter_filter in Hlen by apply digit_not_separator. exact Hlen. }
    split; [reflexivity|]. split; [exact Hd|].
    unfold strip_non_digits in Hlen. rewrite filter_all in Hlen by exact Hd.
    split; [exact Hlen|]. split; [exact Hluhn|].
    pose proof (luhn_check_spec (strip_separators (group0 text m))) as Hspec.
    cbn zeta in Hspec. rewrite Hluhn in Hspec.
    unfold strip_non_digits in Hspec. rewrite filter_all in Hspec by exact Hd.
    symmetry in Hspec. apply andb_true_iff in Hspec as [_ Hspec]. exact Hspec.
  - apply cc_finds_card_number.
  - vm_compute. reflexivity.
  - intros M fs path ctx Hread Hctx.
    destruct (scan_text_ok M "4111111111111111" ctx) as [f Hf];
      [discriminate|exact Hctx|].
    exists f. unfold scan_file. rewrite Hread. split; [exact Hf|].
    apply scan_text_inv in Hf as (_ & -> & _). vm_compute. reflexivity.
Qed.

Lemma C5_witness :
  exists m, m ∈ finditer CC_RE (_read_file_safe tree "docs/card.txt") /\
    "4111111111111111"
      = strip_separators (group0 (_read_file_safe tree "docs/card.txt") m) /\
    _luhn_check "4111111111111111" = true.
Proof.
  destruct C5_credit_card_hits_pass_luhn as (H & _ & _).
  destruct (H no_models tree "docs/card.txt" card_finding
              ["4111111111111111"] "4111111111111111")
    as (m & Hm & _ & _ & Hh & _ & _ & Hl & _).
  - vm_compute. reflexivity.
  - vm_compute. reflexivity.
  - left.
  - exists m. auto.
Defined.

(** C5 as stated fails in its last clause: a text that contains
    4111111111111111 after another digit yields no credit-card hit, since
    the candidate is then the whole run of 17 digits, which fails the
    checksum. *)
Lemma C5_counterexample :
  Str.contains "4111111111111111" "1 4111111111111111" = true /\
  _luhn_check "4111111111111111" = true /\
  (detect_all "1 4111111111111111").1 !! "credit_card" = None /\
  exists f,
    scan_file no_models {[ "n.txt" := File (Some "1 4111111111111111") ]} "n.txt"
      = Ok (Some f) /\
    hits f !! "credit_card" = None.
Proof.
  split; [vm_compute; reflexivity|]. split; [vm_compute; reflexivity|].
  split; [vm_compute; reflexivity|].
  eexists. split; [vm_compute; reflexivity|]. vm_compute. reflexivity.
Qed.

(** C6. Every hit stored under [cvv] is a run of 3 or 4 digits matched by
    [CVV_RE] whose window, the text from 10 characters before the match to
    10 characters after it, lowercased, contains [cvv] or [card].  The text
    4321 on its own yields no CVV hit; the text [cvv: 432] yields the hit
    432. *)
Theorem C6_cvv_hit_needs_nearby_keyword :
  (forall M fs path f l h,
     scan_file M fs path = Ok (Some f) ->
     hits f !! "cvv" = Some l -> h ∈ l ->
     let text := _read_file_safe fs path in
     exists x, x ∈ finditer CVV_RE text /\ h = group0 text x /\
       3 <= Str.length h <= 4 /\ all_chars Chr.is_digit h = true /\
       let window := Str.lower (Str.slice (m_start x - 10) (m_end x + 10) text) in
       Str.contains "cvv" window || Str.contains "card" window = true) /\
  (detect_all "4321").1 !! "cvv" = None /\
  (detect_all "cvv: 432").1 !! "cvv" = Some ["432"].
Proof.
  split; [|split; vm_compute; reflexivity].
  intros M fs path f l h Hscan Hl Hh text.
  rewrite (scan_file_hits _ _ _ _ Hscan), detect_cvv in Hl. fold text in Hl.
  apply if_any_Some in Hl as [-> _].
  apply list_elem_of_fmap in Hh as (x & -> & Hx).
  apply list_elem_of_In, filter_In in Hx as [Hx Hnear]. apply list_elem_of_In in Hx.
  exists x. split; [exact Hx|]. split; [reflexivity|].
  pose proof (digit_run_token 3 4 text x) as Ht.
  destruct Ht as (? & ? & _); [lia|exact Hx|].
  split; [assumption|]. split; [assumption|]. exact Hnear.
Qed.

Lemma C6_witness :
  exists x, x ∈ finditer CVV_RE (_read_file_safe tree "docs/card.txt") /\
    "432" = group0 (_read_file_safe tree "docs/card.txt") x.
Proof.
  destruct C6_cvv_hit_needs_nearby_keyword as (H & _ & _).
  destruct (H no_models tree "docs/card.txt" card_finding
              ["1111"; "1111"; "432"] "432") as (x & Hx & Hh & _).
  - vm_compute. reflexivity.
  - vm_compute. reflexivity.
  - right. right. left.
  - exists x. auto.
Defined.



End ScanClaims.

(** ** The directory scanner *)

Section TreeClaims.
Local Open Scope nat_scope.

(** C7, as the code has it.  For a root that does not exist
    [scan_directory] returns the empty result; the failure for a missing
    root is raised by the scan route, before [scan_directory] is called.
    When the tests [root.exists()] and [p.is_file()] and the listing
    themselves go through, the scan does not fail: it holds the findings of
    the files whose scan returned one, a file that cannot be read or whose
    scan raises is left out, and an existing directory with nothing below
    it gives the empty result. *)
Theorem C7_scan_directory_swallows_scan_errors
    (M : models) (abspath : string -> string)
    (d : Stat.disk) (root : string) :
  (Stat.exists_ d root = Ok false -> Stat.scan_directory M d root = Ok ∅) /\
  (root ∉ Stat.denied d ->
   (forall q, q ∈ Stat.faulty d -> q <> root /\ below root q = false) ->
   (forall p, p ∈ rglob (Stat.nodes d) root -> p ∉ Stat.denied d) ->
   exists results, Stat.scan_directory M d root = Ok results /\
     (forall p f, results !! p = Some f <->
        p ∈ rglob (Stat.nodes d) root /\ is_file (Stat.nodes d) p = true /\
        scan_file M (Stat.nodes d) p = Ok (Some f)) /\
     (forall p e, read_bytes (Stat.nodes d) p = Err e -> results !! p = None) /\
     (forall p e, scan_file M (Stat.nodes d) p = Err e -> results !! p = None) /\
     (empty_dir (Stat.nodes d) root -> results = ∅)) /\
  (forall payload w,
     given payload "rootPath" = Some root ->
     exists_ (files w) root = false ->
     scan_endpoint M abspath payload w = (Err (Spec.PathNotFound root), w)).
Proof.
  split; [|split].
  - unfold Stat.scan_directory. intros ->. reflexivity.
  - intros Hroot Hlist Hopen. rewrite StatFacts.scan_directory_open by assumption.
    set (fs := Stat.nodes d).
    eexists. split; [apply scan_directory_fold|].
    pose proof (fun p => scan_directory_lookup M fs root _ p
                           (scan_directory_fold M fs root)) as Hl.
    split; [|split; [|split]].
    + intros p f. rewrite Hl. case_decide as Hin.
      * rewrite stored_Some. tauto.
      * split; [discriminate|tauto].
    + intros p e Hr. rewrite Hl. case_decide; [|reflexivity].
      eapply unreadable_not_stored, Hr.
    + intros p e Hr. rewrite Hl. case_decide; [|reflexivity].
      eapply failing_not_stored, Hr.
    + intros E. rewrite rglob_empty_dir by exact E. reflexivity.
  - intros payload w Hp He. unfold scan_endpoint. rewrite Hp.
    unfold mbind, io_bind, get_files. rewrite He. reflexivity.
Qed.

Lemma C7_witness :
  (exists results,
     Stat.scan_directory flaky_models (Stat.Disk tree ∅ ∅) "docs" = Ok results /\
     results !! "docs/locked.txt" = None /\
     results !! "docs/card.txt" = None /\
     is_Some (results !! "docs/notes.txt")) /\
  scan_endpoint no_models abspath {[ "rootPath" := "nowhere" ]} start
    = (Err (Spec.PathNotFound "nowhere"), start).
Proof.
  split.
  - destruct (C7_scan_directory_swallows_scan_errors flaky_models abspath
                (Stat.Disk tree ∅ ∅) "docs") as (_ & H & _).
    destruct H as (results & Hs & Hiff & Hr & Hf & _).
    + apply not_elem_of_empty.
    + intros q Hq. apply not_elem_of_empty in Hq. contradiction.
    + intros p _. apply not_elem_of_empty.
    + exists results. split; [exact Hs|]. split; [|split].
      * apply (Hr "docs/locked.txt" OSError). vm_compute. reflexivity.
      * apply (Hf "docs/card.txt" ModelError). vm_compute. reflexivity.
      * destruct (scan_file flaky_models tree "docs/notes.txt") as [[f|]|e] eqn:E;
          try (vm_compute in E; discriminate E).
        exists f. apply Hiff.
        split; [vm_compute; repeat first [left | right]|].
        split; [vm_compute; reflexivity|exact E].
  - destruct (C7_scan_directory_swallows_scan_errors no_models abspath
                (Stat.Disk tree ∅ ∅) "nowhere") as (_ & _ & H).
    apply H; vm_compute; reflexivity.
Defined.

(** C7 as stated fails: on a root that does not exist [scan_directory]
    returns, it does not fail; and on an existing root it fails when
    [p.is_file()], which stands outside the [try], is refused for an entry. *)
Lemma C7_counterexample :
  (exists_ tree "nowhere" = false /\
   Stat.scan_directory no_models (Stat.Disk tree ∅ ∅) "nowhere" = Ok ∅) /\
  (exists_ tree "docs" = true /\
   "docs/sub/id.txt" ∈ rglob tree "docs" /\
   Stat.scan_directory no_models sealed_tree "docs" = Err OSError).
Proof.
  split; [split; vm_compute; reflexivity|].
  split; [vm_compute; reflexivity|].
  assert (Hin : "docs/sub/id.txt" ∈ rglob tree "docs")
    by (vm_compute; repeat first [left | right]).
  split; [exact Hin|].
  unfold Stat.scan_directory, Stat.exists_, Stat.stat.
  rewrite decide_False by (vm_compute; set_solver).
  replace (bool_decide (is_Some (Stat.nodes sealed_tree !! "docs"))) with true
    by (vm_compute; reflexivity).
  rewrite StatFacts.listing_works
    by (intros q Hq; apply not_elem_of_empty in Hq; contradiction).
  apply (StatFacts.scan_loop_denied _ _ _ _ "docs/sub/id.txt"); [exact Hin|].
  vm_compute. reflexivity.
Qed.

(** C8, as the code has it.  The result of [scan_directory] holds exactly
    the regular files below the root whose scan returned a finding, and
    these are the ones whose text is not empty: a readable file with text
    in which no detector found anything is stored too, with no hits, risk
    score 0 and label Low. *)
Theorem C8_scan_directory_keeps_files_without_hits
    (M : models) (fs : gmap string node) (root : string) :
  exists results, scan_directory M fs root = Ok results /\
    (forall p f, results !! p = Some f <->
       p ∈ rglob fs root /\ is_file fs p = true /\
       scan_file M fs p = Ok (Some f)) /\
    (forall p f, results !! p = Some f -> _read_file_safe fs p <> EmptyString) /\
    (forall p ctx,
       p ∈ rglob fs root -> is_file fs p = true ->
       _read_file_safe fs p <> EmptyString ->
       (detect_all (_read_file_safe fs p)).1 = ∅ ->
       context_score M (_read_file_safe fs p) = Ok ctx ->
       exists f, results !! p = Some f /\
         hits f = ∅ /\ risk_score f = 0%Z /\ risk_label_of f = "Low").
Proof.
  eexists. split; [apply scan_directory_fold|].
  pose proof (fun p => scan_directory_lookup M fs root _ p
                         (scan_directory_fold M fs root)) as Hl.
  assert (Hiff : forall p f,
       foldl (scan_step M fs) ∅ (rglob fs root) !! p = Some f <->
       p ∈ rglob fs root /\ is_file fs p = true /\
       scan_file M fs p = Ok (Some f)).
  { intros p f. rewrite Hl. case_decide as Hin.
    - rewrite stored_Some. tauto.
    - split; [discriminate|tauto]. }
  split; [exact Hiff|]. split.
  - intros p f (_ & _ & Hs)%Hiff. apply scan_text_inv in Hs. tauto.
  - intros p ctx Hin Hf Ht Hh Hc.
    destruct (scan_text_ok M _ ctx Ht Hc) as [f Hs]. exists f.
    split; [apply Hiff; auto|].
    apply scan_text_inv in Hs as (_ & Hhits & _ & ctx' & _ & _ & Hlow & _).
    rewrite Hh in Hhits. destruct (Hlow Hhits) as (_ & ? & ?). auto.
Qed.

Lemma C8_witness :
  exists results f, scan_directory no_models tree "docs" = Ok results /\
    results !! "docs/notes.txt" = Some f /\ hits f = ∅ /\
    results !! "docs/empty.txt" = None.
Proof.
  destruct (C8_scan_directory_keeps_files_without_hits no_models tree "docs")
    as (results & Hs & Hiff & Hne & Hclean).
  destruct (Hclean "docs/notes.txt" (0 # 6000)) as (f & Hf & Hh & _).
  - vm_compute. repeat first [left | right].
  - vm_compute. reflexivity.
  - vm_compute. discriminate.
  - vm_compute. reflexivity.
  - vm_compute. reflexivity.
  - exists results, f. split; [exact Hs|]. split; [exact Hf|]. split; [exact Hh|].
    destruct (results !! "docs/empty.txt") as [g|] eqn:E; [|reflexivity].
    apply Hne in E. exfalso. apply E. vm_compute. reflexivity.
Defined.

(** C8 as stated fails: a readable file in which no detector matches is
    stored in the result. *)
Lemma C8_counterexample :
  ~ (forall results p,
       scan_directory no_models tree "docs" = Ok results ->
       read_bytes tree p <> Err OSError ->
       (detect_all (_read_file_safe tree p)).1 = ∅ ->
       results !! p = None).
Proof.
  intros H.
  specialize (H _ "docs/notes.txt" (scan_directory_fold no_models tree "docs")).
  rewrite (scan_directory_lookup no_models tree "docs" _ "docs/notes.txt"
             (scan_directory_fold no_models tree "docs")) in H.
  rewrite decide_True in H by (vm_compute; repeat first [left | right]).
  assert (Hs : is_Some (stored no_models tree "docs/notes.txt")).
  { vm_compute. eauto. }
  rewrite H in Hs.
  - destruct Hs as [? [=]].
  - vm_compute. discriminate.
  - vm_compute. reflexivity.
Qed.

End TreeClaims.

(** ** Encryption and redaction *)

Section CryptoClaims.
Context {F : Fernet}.
Local Open Scope nat_scope.

(** C3. Encrypting a token gives the marker [<ENC>] immediately followed by
    the Fernet token of it, and decrypting that placeholder gives the token
    back.  Encrypting succeeds whenever the key file holds a valid key or
    can be created. *)
Theorem C3_decrypt_inverts_encrypt (T : string) (w : world) :
  (key_store_ready (files w) = true ->
   exists p w1, encrypt_str T w = (Ok p, w1)) /\
  (forall p w1, encrypt_str T w = (Ok p, w1) ->
     (exists key n, valid_key key = true /\
                    p = "<ENC>" +:+ fernet_encrypt key n T) /\
     decrypt_str p w1 = (Ok T, w1)).
Proof.
  split.
  - intros Hr. destruct (get_or_create_key_ready w Hr) as (key & w1 & Hk & Hv).
    unfold encrypt_str, get_fernet, mbind, io_bind. rewrite Hk, Hv.
    unfold mret, io_ret, draw. eauto.
  - intros p w1. unfold encrypt_str, get_fernet, mbind, io_bind.
    destruct (get_or_create_key w) as [[key|e] w0] eqn:Hk; [|intros [=]].
    destruct (valid_key key) eqn:Hv; [|intros [=]].
    unfold mret, io_ret, draw. intros [= <- <-].
    split; [eauto|].
    apply get_or_create_key_holds in Hk.
    unfold decrypt_str. rewrite starts_with_app, drop_app. cbn [negb].
    unfold get_fernet, mbind, io_bind.
    rewrite (get_or_create_key_stable _ key) by exact Hk.
    rewrite Hv. unfold mret, io_ret.
    rewrite fernet_decrypt_encrypt by exact Hv. reflexivity.
Qed.

(** C4. The redaction pass works on the tokens of all hit lists, each
    once, longest first; it replaces each throughout the text by its
    placeholder, leaves a token alone when encrypting it fails and goes on
    with the rest, and always returns a text. *)
Theorem C4_redaction_is_longest_first_and_total
    (set_order : list string -> list string)
    (content : string) (hits : gmap string (list string)) (w : world) :
  Spec.enumerates_sets set_order ->
  exists toks out w',
    (forall t, t ∈ toks <->
       t <> EmptyString /\ exists name l, hits !! name = Some l /\ t ∈ l) /\
    NoDup toks /\
    Sorted Spec.longer_first toks /\
    _encrypt_sensitive_in_text set_order content hits w = (Ok out, w') /\
    Spec.redacted toks content w out w'.
Proof.
  intros Hset.
  set (toks := sorted_longest_first (set_order (collect_tokens hits))).
  assert (Hin : forall t, t ∈ toks <->
       t <> EmptyString /\ exists name l, hits !! name = Some l /\ t ∈ l).
  { intros t. unfold toks. rewrite sorted_longest_first_perm.
    rewrite (proj2 (Hset _)). apply collect_tokens_spec. }
  destruct (redact_loop_spec toks content w) as (out & w' & Hrun & Hred).
  { intros t Ht. apply Hin in Ht. tauto. }
  exists toks, out, w'. split; [exact Hin|]. split.
  { unfold toks. rewrite sorted_longest_first_perm. apply Hset. }
  split; [apply sorted_longest_first_sorted|]. split; [|exact Hred].
  unfold _encrypt_sensitive_in_text. case_bool_decide as Hempty; [|exact Hrun].
  assert (Hnil : toks = []).
  { destruct toks as [|t ts] eqn:Et; [reflexivity|]. exfalso.
    assert (Ht : t ∈ t :: ts) by left.
    apply Hin in Ht as (_ & name & l & Hl & _).
    rewrite Hempty, lookup_empty in Hl. discriminate. }
  rewrite Hnil in Hrun. simpl in Hrun. unfold mret, io_ret in *. exact Hrun.
Qed.

End CryptoClaims.

Lemma C3_witness :
  exists p w1, encrypt_str "hunter2" start = (Ok p, w1) /\
    decrypt_str p w1 = (Ok "hunter2", w1).
Proof.
  destruct (C3_decrypt_inverts_encrypt (F := hex_fernet) "hunter2" start)
    as [Hready Hinv].
  destruct Hready as (p & w1 & He); [vm_compute; reflexivity|].
  exists p, w1. split; [exact He|]. apply Hinv, He.
Defined.

Lemma remove_dups_enumerates : Spec.enumerates_sets remove_dups.
Proof.
  intros l. split; [apply NoDup_remove_dups|]. intros x. apply elem_of_remove_dups.
Qed.

Lemma C4_witness :
  exists w',
    _encrypt_sensitive_in_text (F := hex_fernet) remove_dups
      "pass123 leaked, 123 too" some_hits start
    = (Ok "<ENC>glgfhjdadbhagbhdhddbdcdd leaked, <ENC>glgfhjdadcdbdcdd too", w').
Proof.
  destruct (C4_redaction_is_longest_first_and_total (F := hex_fernet)
              remove_dups "pass123 leaked, 123 too" some_hits start
              remove_dups_enumerates)
    as (toks & out & w' & _ & _ & _ & Hrun & _).
  exists w'. rewrite Hrun. vm_compute in Hrun. injection Hrun as <- _.
  reflexivity.
Defined.

(** ** The backup route *)

Section BackupClaims.
Context {F : Fernet}.
Variable M : models.
Variable set_order : list string -> list string.
Variable abspath : string -> string.
Variable isoformat_now : nat -> string.

(** C9. The backup route fails with InvalidInput when the source path or
    the backup name is absent or empty, with SourceNotFound when the source
    path does not exist, and with DestinationExists when the backup
    directory of that name exists; in each case the world is left as it
    was, so nothing has been copied. *)
Theorem C9_backup_rejects_before_copying
    (payload : gmap string string) (w : world) :
  let backup := create_backup M set_order abspath isoformat_now payload w in
  (missing payload "sourcePath" \/ missing payload "backupName" ->
   backup = (Err Spec.InvalidInput, w)) /\
  (forall source name,
     given payload "sourcePath" = Some source ->
     given payload "backupName" = Some name ->
     (exists_ (files w) source = false ->
      backup = (Err Spec.SourceNotFound, w)) /\
     (exists_ (files w) source = true ->
      exists_ (files w) (BACKUP_DIR +:+ "/" +:+ name) = true ->
      backup = (Err Spec.DestinationExists, w))).
Proof.
  cbn zeta. split.
  - intros [H|H]; apply given_missing in H; unfold create_backup; rewrite H;
      [reflexivity|]. destruct (given payload "sourcePath"); reflexivity.
  - intros source name Hs Hn. unfold create_backup. rewrite Hs, Hn.
    unfold mbind, io_bind, get_files. split.
    + intros ->. reflexivity.
    + intros -> ->. reflexivity.
Qed.

End BackupClaims.

Lemma C9_witness :
  create_backup (F := hex_fernet) no_models remove_dups abspath isoformat_now
    {[ "sourcePath" := "docs"; "backupName" := "b1" ]} backed_up
  = (Err Spec.DestinationExists, backed_up) /\
  create_backup (F := hex_fernet) no_models remove_dups abspath isoformat_now
    {[ "sourcePath" := "docs" ]} backed_up
  = (Err Spec.InvalidInput, backed_up).
Proof.
  split.
  - destruct (C9_backup_rejects_before_copying (F := hex_fernet) no_models
                remove_dups abspath isoformat_now
                {[ "sourcePath" := "docs"; "backupName" := "b1" ]} backed_up)
      as [_ H].
    destruct (H "docs" "b1") as [_ Hd]; [vm_compute; reflexivity..|].
    apply Hd; vm_compute; reflexivity.
  - destruct (C9_backup_rejects_before_copying (F := hex_fernet) no_models
                remove_dups abspath isoformat_now
                {[ "sourcePath" := "docs" ]} backed_up) as [H _].
    apply H. right. left. vm_compute. reflexivity.
Defined.

(** A backup that is accepted does copy: here every file of the source
    arrives below the new backup directory, the ones with findings
    redacted. *)
Example backup_copies :
  let '(r, w) :=
    create_backup (F := hex_fernet) no_models remove_dups abspath isoformat_now
      {[ "sourcePath" := "docs"; "backupName" := "b2" ]} backed_up in
  (totalFiles <$> (match r with Ok e => Some e | Err _ => None end)) = Some 5%nat /\
  files w !! "data/backups/b2/notes.txt" = Some (File (Some "hello world")) /\
  files w !! "data/backups/b2/sub/id.txt"
    = Some (File (Some
        ("aadhaar <ENC>glgfhjdadbdbdcdddedfdgdhdidjdadbdc "
         +:+ "password: <ENC>glgfhjdadcgihfgohegfhcdc"))).
Proof. vm_compute. repeat split; reflexivity. Qed.


(** * Further results *)

Import StrMore LuhnFacts ScoreFacts WidthFacts DetectorFacts KeyFacts FrameFacts
  BackupFacts.

(** ** The Luhn test *)

Section LuhnResults.
Local Open Scope Z_scope.

(** X1. [_luhn_check] accepts a string exactly when it holds 13 to 19
    digits, whatever else it holds, and these digits pass the Luhn test
    taken from the rightmost digit. *)
Theorem luhn_check_is_the_luhn_test (number_str : string) :
  _luhn_check number_str = true <->
  (13 <= length (digits_of number_str) <= 19)%nat /\
  Spec.luhn_valid (digits_of number_str) = true.
Proof.
  pose proof (luhn_check_spec number_str) as H. cbn zeta in H.
  fold (digits_of number_str) in H.
  rewrite H. rewrite !andb_true_iff, !Nat.leb_le. tauto.
Qed.

(** X2. Stripping the separators, or everything that is not a digit,
    before the check does not change its answer: checking a candidate as
    matched and checking it stripped agree. *)
Theorem luhn_check_ignores_separators (number_str : string) :
  _luhn_check (strip_separators number_str) = _luhn_check number_str /\
  _luhn_check (strip_non_digits number_str) = _luhn_check number_str.
Proof.
  split; apply luhn_check_digits; unfold strip_non_digits, strip_separators.
  - apply filter_filter, digit_not_separator.
  - apply filter_filter. auto.
Qed.

(** X3. The check catches every single wrong digit: a number that passes
    fails once one of its digits is replaced by another digit. *)
Theorem luhn_check_detects_a_wrong_digit (pre post : string) (a b : ascii) :
  Chr.is_digit a = true -> Chr.is_digit b = true -> a <> b ->
  _luhn_check (pre +:+ String a post) = true ->
  _luhn_check (pre +:+ String b post) = false.
Proof.
  intros Ha Hb Hab H1.
  destruct (_luhn_check (pre +:+ String b post)) eqn:H2; [|reflexivity]. exfalso. apply Hab.
  unfold _luhn_check in H1, H2. fold (digits_of (pre +:+ String a post)) in H1.
  fold (digits_of (pre +:+ String b post)) in H2.
  rewrite digits_of_app, digits_of_digit in H1, H2 by assumption.
  destruct (_ || _) in H1; [discriminate|]. destruct (_ || _) in H2; [discriminate|].
  apply Z.eqb_eq in H1, H2.
  rewrite luhn_loop_sum in H1, H2.
  rewrite !List.length_app in H1, H2. cbn [length] in H1, H2.
  rewrite !luhn_left_app in H1, H2. cbn [Spec.luhn_sum_from_left] in H1, H2.
  set (e := Nat.even _) in *. set (o := xorb e _) in *.
  set (A := Spec.luhn_sum_from_left (digits_of pre) e) in *.
  set (B := Spec.luhn_sum_from_left (digits_of post) (negb o)) in *.
  apply digit_val_inj; [assumption..|].
  apply (luhn_digit_inj o); [apply digit_val_range; assumption..|].
  replace (Spec.luhn_digit o (Chr.digit_val a) - Spec.luhn_digit o (Chr.digit_val b))
    with ((A + (Spec.luhn_digit o (Chr.digit_val a) + B))
          - (A + (Spec.luhn_digit o (Chr.digit_val b) + B))) by lia.
  rewrite Zminus_mod, H1, H2. reflexivity.
Qed.

End LuhnResults.

Lemma luhn_check_detects_a_wrong_digit_witness :
  _luhn_check "4111 1111 1111 1111" = true /\
  _luhn_check "4111 1171 1111 1111" = false.
Proof.
  split; [vm_compute; reflexivity|].
  apply (luhn_check_detects_a_wrong_digit "4111 11" "1 1111 1111" "1" "7").
  - vm_compute. reflexivity.
  - vm_compute. reflexivity.
  - discriminate.
  - vm_compute. reflexivity.
Defined.

(** ** The scores *)

Section ScoreResults.
Local Open Scope Z_scope.

(** X4. The context score never exceeds 1.  Without the optional models
    it is computed without raising and lies between 0 and 0.3: the
    keyword share alone. *)
Theorem context_score_range (M : models) (text : string) :
  (forall c, context_score M text = Ok c -> (c <= 1)%Q) /\
  (HAS_AI M = false -> HAS_ML M = false ->
   exists c, context_score M text = Ok c /\ (0 <= c <= 3 # 10)%Q).
Proof.
  unfold context_score. cbn zeta. pose proof (h_score_range text) as Hh.
  set (h := py_min 1 _) in *.
  unfold compute_context_score_ai, predict_context_ml. split.
  - intros c H.
    destruct (if negb (HAS_AI M) then _ else _) as [a|]; [|discriminate]. simpl in H.
    destruct (if negb (HAS_ML M) then _ else _) as [m|]; [|discriminate]. simpl in H.
    injection H as <-. apply py_min_le_r.
  - intros Ha Hm. rewrite Ha, Hm. simpl. eexists. split; [reflexivity|]. split.
    + apply py_min_glb; lra.
    + eapply Qle_trans; [apply py_min_le_l|]. lra.
Qed.

(** X5. The risk score never falls when the context score rises or when
    hits of more detector types are found, as long as the context score
    is at least -1. *)
Theorem risk_score_monotone (hits1 hits2 : gmap string (list string))
    (confidence : string) (c1 c2 : Q) :
  (size hits1 <= size hits2)%nat -> (-1 <= c1)%Q -> (c1 <= c2)%Q ->
  compute_risk_score hits1 confidence c1 <= compute_risk_score hits2 confidence c2.
Proof.
  intros Hn H0 Hc. unfold compute_risk_score. cbn zeta.
  pose proof (conf_boost_nonneg confidence) as Hb.
  set (b := default 0 (conf_map !! confidence)) in *.
  apply Z.max_le_compat_l, Z.min_le_compat_l, py_round_mono.
  assert (H1 : (0 <= inject_Z (20 * Z.of_nat (size hits1) + b))%Q).
  { change 0%Q with (inject_Z 0). rewrite <- Zle_Qle. lia. }
  assert (H2 : (inject_Z (20 * Z.of_nat (size hits1) + b)
                <= inject_Z (20 * Z.of_nat (size hits2) + b))%Q).
  { rewrite <- Zle_Qle. lia. }
  nra.
Qed.

(** X6. With a context score that is not negative, a file with hits of
    two detector types scores at least 50 and is not Low, and a file with
    hits of three or more scores at least 70 and is High. *)
Theorem several_types_raise_the_label M fs path f c :
  scan_file M fs path = Ok (Some f) ->
  context_score M (_read_file_safe fs path) = Ok c -> (0 <= c)%Q ->
  ((2 <= size (hits f))%nat -> 50 <= risk_score f /\ risk_label_of f <> "Low") /\
  ((3 <= size (hits f))%nat -> 70 <= risk_score f /\ risk_label_of f = "High").
Proof.
  intros Hf Hc H0. apply scan_text_inv in Hf as (_ & _ & _ & c' & Hc' & _ & _ & Hhit).
  rewrite Hc in Hc'. injection Hc' as <-.
  assert (Hgen : (2 <= size (hits f))%nat ->
    Z.min 100 (20 * Z.of_nat (size (hits f)) + 10) <= risk_score f /\
    risk_label_of f = risk_label (risk_score f)).
  { intros Hn. destruct (Hhit (size_nonempty (hits f) ltac:(lia))) as (Hconf & Hr & Hl).
    split; [|exact Hl]. rewrite Hr.
    pose proof (risk_score_floor (hits f) (confidence f) c H0) as [Hlo _].
    etransitivity; [|exact Hlo]. apply Z.min_le_compat_l.
    rewrite Hconf. destruct (2 <=? keyword_hits _)%nat;
      [change (default 0 (conf_map !! "high")) with 20
      |change (default 0 (conf_map !! "medium")) with 10]; lia. }
  split; intros Hn; destruct Hgen as [Hlo Hl]; try lia.
  - split; [lia|]. rewrite Hl. pose proof (risk_label_cases (risk_score f)) as (_ & _ & HL).
    rewrite HL. lia.
  - split; [lia|]. rewrite Hl. apply risk_label_cases. lia.
Qed.

(** X7. Without the optional models a file with hits of one detector
    type is never High: it is Medium when its text holds two or more of
    the sensitive keywords, and Low otherwise. *)
Theorem one_type_without_models M fs path f :
  HAS_AI M = false -> HAS_ML M = false ->
  scan_file M fs path = Ok (Some f) -> size (hits f) = 1%nat ->
  risk_label_of f =
    if (2 <=? keyword_hits (_read_file_safe fs path))%nat then "Medium" else "Low".
Proof.
  intros Ha Hm Hf Hn. apply scan_text_inv in Hf as (_ & _ & _ & c & Hc & _ & _ & Hhit).
  destruct (Hhit (size_nonempty (hits f) ltac:(lia))) as (Hconf & Hr & Hl).
  set (text := _read_file_safe fs path) in *.
  unfold context_score, compute_context_score_ai, predict_context_ml in Hc.
  rewrite Ha, Hm in Hc. simpl in Hc. injection Hc as Hc.
  pose proof (keyword_score_cases text) as [Hlow Hhigh]. cbn zeta in Hlow, Hhigh.
  set (hs := py_min 1 _) in *.
  rewrite Hl, Hr. unfold compute_risk_score. cbn zeta. rewrite Hn, Hconf.
  destruct (2 <=? keyword_hits text)%nat eqn:E;
    [apply Nat.leb_le in E; specialize (Hhigh E)
    |apply Nat.leb_gt in E; specialize (Hlow E)].
  - assert (Hcq : (1 # 10 <= c <= 3 # 10)%Q).
    { rewrite <- Hc. split.
      - apply py_min_glb; lra.
      - eapply Qle_trans; [apply py_min_le_l|]. lra. }
    change (default 0 (conf_map !! "high")) with 20.
    destruct (py_round_between (inject_Z (20 * Z.of_nat 1 + 20) * (1 + c)) 44 52) as [A B].
    { change (inject_Z 44) with (44 # 1)%Q.
      change (inject_Z (20 * Z.of_nat 1 + 20)) with (40 # 1)%Q.
      clear - Hcq. lra. }
    { change (inject_Z 52) with (52 # 1)%Q.
      change (inject_Z (20 * Z.of_nat 1 + 20)) with (40 # 1)%Q.
      clear - Hcq. lra. }
    apply risk_label_cases. lia.
  - assert (Hcq : (0 <= c <= 1 # 20)%Q).
    { rewrite <- Hc. split.
      - apply py_min_glb; lra.
      - eapply Qle_trans; [apply py_min_le_l|]. lra. }
    change (default 0 (conf_map !! "medium")) with 10.
    destruct (py_round_between (inject_Z (20 * Z.of_nat 1 + 10) * (1 + c)) 30 32) as [A B].
    { change (inject_Z 30) with (30 # 1)%Q.
      change (inject_Z (20 * Z.of_nat 1 + 10)) with (30 # 1)%Q.
      clear - Hcq. lra. }
    { change (inject_Z 32) with (32 # 1)%Q.
      change (inject_Z (20 * Z.of_nat 1 + 10)) with (30 # 1)%Q.
      clear - Hcq. lra. }
    apply risk_label_cases. lia.
Qed.

End ScoreResults.

Lemma risk_score_monotone_witness :
  (compute_risk_score {[ "email" := ["a@b.io"] ]} "medium" (1 # 10)
   <= compute_risk_score {[ "email" := ["a@b.io"]; "pan" := ["ABCDE1234F"] ]}
        "medium" (1 # 2))%Z /\
  compute_risk_score {[ "email" := ["a@b.io"] ]} "medium" (1 # 10) = 33%Z /\
  compute_risk_score {[ "email" := ["a@b.io"]; "pan" := ["ABCDE1234F"] ]}
    "medium" (1 # 2) = 75%Z.
Proof.
  split; [|split; vm_compute; reflexivity].
  apply (risk_score_monotone {[ "email" := ["a@b.io"] ]}
           {[ "email" := ["a@b.io"]; "pan" := ["ABCDE1234F"] ]} "medium" (1 # 10) (1 # 2)).
  - vm_compute. lia.
  - vm_compute. discriminate.
  - vm_compute. discriminate.
Defined.

Lemma several_types_raise_the_label_witness :
  (70 <= risk_score id_finding)%Z /\ risk_label_of id_finding = "High".
Proof.
  destruct (several_types_raise_the_label no_models tree "docs/sub/id.txt"
              id_finding (600 # 6000)) as [_ H].
  - vm_compute. reflexivity.
  - vm_compute. reflexivity.
  - vm_compute. discriminate.
  - apply H. vm_compute. lia.
Defined.

Lemma one_type_without_models_witness :
  exists f, scan_file no_models mail_fs "mail.txt" = Ok (Some f) /\
    hits f = {[ "email" := ["bob@example.com"] ]} /\ risk_label_of f = "Low".
Proof.
  destruct (scan_file no_models mail_fs "mail.txt") as [[f|]|] eqn:E;
    [|vm_compute in E; discriminate..].
  exists f. split; [reflexivity|].
  assert (Hh : hits f = {[ "email" := ["bob@example.com"] ]}).
  { vm_compute in E. injection E as <-. reflexivity. }
  split; [exact Hh|].
  rewrite (one_type_without_models no_models mail_fs "mail.txt" f eq_refl eq_refl E).
  - vm_compute. reflexivity.
  - rewrite Hh. vm_compute. reflexivity.
Defined.

(** ** The file scanner *)

Section ScanResults.
Local Open Scope nat_scope.

(** X8. In a finding the hits and the snippets go together: a key has
    both or neither, it is one of the ten detector names, its hit list is
    not empty, and there is one snippet for each hit. *)
Theorem scan_file_hits_have_snippets M fs path f :
  scan_file M fs path = Ok (Some f) ->
  forall k,
    (hits f !! k = None /\ snippets f !! k = None) \/
    (exists l s, hits f !! k = Some l /\ snippets f !! k = Some s /\
       l <> [] /\ length s = length l /\ k ∈ DETECTORS).
Proof.
  unfold scan_file. intros (_ & -> & -> & _)%scan_text_inv. apply detect_all_paired.
Qed.

(** X9. A stored token is never empty and has the number of characters
    its detector's pattern allows: 12 for aadhaar, 10 for pan, 8 for
    passport, 11 for ifsc, 9 to 18 for bank_account, 3 to 4 for cvv, 10 to
    14 for phone, 4 to 40 for password, 13 to 19 for credit_card, at least
    6 for email. *)
Theorem stored_token_widths M fs path f name l tok :
  scan_file M fs path = Ok (Some f) ->
  hits f !! name = Some l -> tok ∈ l ->
  tok <> EmptyString /\
  (token_width name).1 <= Str.length tok /\
  at_most (token_width name).2 (Str.length tok).
Proof.
  intros Hf Hl Ht. rewrite (scan_file_hits _ _ _ _ Hf), detect_all_hits in Hl.
  apply if_any_Some in Hl as [-> _].
  apply list_elem_of_fmap in Ht as (m & -> & Hm).
  assert (Hpos : forall s n, 0 < n -> n <= Str.length s -> s <> EmptyString).
  { intros s n Hn Hs ->. simpl in Hs. lia. }
  destruct (decide (name ∈ DETECTORS)) as [Hin|Hout].
  - unfold DETECTORS in Hin. rewrite !elem_of_cons, elem_of_nil in Hin.
    revert Hm. unfold detector_matches, detector_token, token_width.
    repeat (destruct Hin as [->|Hin]; [pick_detector; cbn [fst snd]; intros Hm|]);
      [..|contradiction].
    all: try (apply (group0_token _ _ _ _ _ eq_refl eq_refl) in Hm;
              split; [intros Hempty; rewrite Hempty in Hm; destruct Hm as [Hm _];
                      vm_compute in Hm; lia|exact Hm]).
    + apply password_token in Hm as [Hm _].
      split; [eapply (Hpos _ 4); lia|]. simpl. lia.
    + apply list_elem_of_In, filter_In in Hm as [Hm _]. apply list_elem_of_In in Hm.
      apply (group0_token _ _ _ _ _ eq_refl eq_refl) in Hm.
      split; [intros Hempty; rewrite Hempty in Hm; destruct Hm as [Hm _];
              vm_compute in Hm; lia|exact Hm].
    + apply credit_card_token in Hm.
      split; [eapply (Hpos _ 13); lia|]. simpl. lia.
  - exfalso. unfold DETECTORS in Hout. rewrite !elem_of_cons, elem_of_nil in Hout.
    unfold detector_matches in Hm.
    repeat (rewrite decide_False in Hm by tauto). inversion Hm.
Qed.

(** X10. For the detectors whose tokens hold no whitespace and are stored
    as they stand (all but phone and credit_card), the snippet of a hit
    shows the hit: the i-th snippet contains the i-th token. *)
Theorem snippets_show_hits M fs path f name l i tok :
  scan_file M fs path = Ok (Some f) -> name ∈ SHOWN ->
  hits f !! name = Some l -> l !! i = Some tok ->
  exists sn snip, snippets f !! name = Some sn /\ sn !! i = Some snip /\
    Str.contains tok snip = true.
Proof.
  intros Hf Hin Hl Hi.
  apply scan_text_inv in Hf as (_ & Hh & Hsn & _).
  rewrite Hh, detect_all_hits in Hl. rewrite Hsn, detect_all_snippets.
  set (text := _read_file_safe fs path) in *.
  apply if_any_Some in Hl as [-> Hne].
  apply list_lookup_fmap_Some in Hi as (m & -> & Hm).
  assert (Hms : detector_matches text name <> []) by (intros H; rewrite H in Hne; auto).
  destruct (detector_matches text name) as [|m0 ms] eqn:E; [congruence|]. rewrite <- E in *.
  eexists _, (snippet_of text (span m)). split; [reflexivity|].
  split; [rewrite find_snippets_map, !list_lookup_fmap, Hm; reflexivity|].
  apply list_elem_of_lookup_2 in Hm. clear E Hms Hne Hh Hsn.
  revert Hm. unfold SHOWN in Hin. rewrite !elem_of_cons, elem_of_nil in Hin.
  unfold detector_matches, detector_token.
  repeat (destruct Hin as [->|Hin]; [pick_detector; intros Hm|]); [..|contradiction].
  all: try (match type of Hm with
            | _ ∈ finditer ?r _ =>
                apply (group0_shown r); [solid_tac|vm_compute; lia|exact Hm]
            end).
  - eapply (tail_group_shown PASSWORD_RE); [reflexivity|solid_tac|vm_compute; lia|exact Hm].
  - apply list_elem_of_In, filter_In in Hm as [Hm _]. apply list_elem_of_In in Hm.
    apply (group0_shown CVV_RE); [solid_tac|vm_compute; lia|exact Hm].
Qed.

(** X11. Only the first 200000 bytes of a file are scanned: what follows
    them has no part in the result, and the text scanned is never longer.
    A path that cannot be read gives the empty result, whatever the models
    would do. *)
Theorem scan_file_reads_a_prefix M fs path :
  (forall head tail,
     fs !! path = Some (File (Some (head +:+ tail))) ->
     N.of_nat (Str.length head) = 200000%N ->
     scan_file M fs path = scan_text M (decode_ignore head)) /\
  (N.of_nat (Str.length (_read_file_safe fs path)) <= 200000)%N /\
  (read_bytes fs path = Err OSError -> scan_file M fs path = Ok None).
Proof.
  unfold scan_file, _read_file_safe, read_bytes. split; [|split].
  - intros head tail -> Hlen. rewrite take_N_take, <- Hlen, Nat2N.id, take_app.
    reflexivity.
  - destruct (fs !! path) as [[|[raw|]]|]; simpl; try lia.
    unfold decode_ignore.
    pose proof (length_filter (Chr.between 0 127) (Str.take_N 200000 raw)) as H1.
    rewrite take_N_take in *.
    pose proof (length_take (N.to_nat 200000) raw) as H2. lia.
  - destruct (fs !! path) as [[|[raw|]]|]; try discriminate; reflexivity.
Qed.

End ScanResults.

Lemma scan_file_hits_have_snippets_witness :
  exists l s, hits card_finding !! "cvv" = Some l /\
    snippets card_finding !! "cvv" = Some s /\ length s = length l.
Proof.
  destruct (scan_file_hits_have_snippets no_models tree "docs/card.txt" card_finding)
    with (k := "cvv") as [[Hnone _]|(l & s & Hl & Hs & _ & Hlen & _)].
  - vm_compute. reflexivity.
  - vm_compute in Hnone. discriminate.
  - eauto.
Defined.

Lemma stored_token_widths_witness :
  scan_file no_models tree "docs/sub/id.txt" = Ok (Some id_finding) /\
  hits id_finding !! "password" = Some ["hunter2"] /\
  (4 <= Str.length "hunter2")%nat /\ (Str.length "hunter2" <= 40)%nat.
Proof.
  assert (Hscan : scan_file no_models tree "docs/sub/id.txt" = Ok (Some id_finding))
    by (vm_compute; reflexivity).
  assert (Hhits : hits id_finding !! "password" = Some ["hunter2"])
    by (vm_compute; reflexivity).
  split; [exact Hscan|]. split; [exact Hhits|].
  destruct (stored_token_widths no_models tree "docs/sub/id.txt" id_finding
              "password" ["hunter2"] "hunter2" Hscan Hhits) as (_ & Hlo & Hhi).
  - left.
  - split; [exact Hlo|exact Hhi].
Defined.

Lemma snippets_show_hits_witness :
  exists sn snip, snippets id_finding !! "aadhaar" = Some sn /\
    sn !! 0%nat = Some snip /\ Str.contains "123456789012" snip = true.
Proof.
  apply (snippets_show_hits no_models tree "docs/sub/id.txt" id_finding
           "aadhaar" ["123456789012"] 0 "123456789012").
  - vm_compute. reflexivity.
  - left.
  - vm_compute. reflexivity.
  - reflexivity.
Defined.

Lemma scan_file_reads_a_prefix_witness :
  scan_file no_models {[ "big.txt" := File (Some long_file) ]} "big.txt"
  = scan_text no_models (decode_ignore (copies 200000 "x")).
Proof.
  apply (proj1 (scan_file_reads_a_prefix no_models
           {[ "big.txt" := File (Some long_file) ]} "big.txt")
          (copies 200000 "x") " card 4111111111111111").
  - reflexivity.
  - vm_compute. reflexivity.
Defined.

(** ** The key store and the placeholders *)

Section CryptoResults.
Context {F : Fernet}.
Local Open Scope nat_scope.

(** X12. The key is created once: after a call that handed out a key,
    another call hands out the same key and changes nothing. *)
Theorem key_is_created_once (w w1 : world) (key : string) :
  get_or_create_key w = (Ok key, w1) -> get_or_create_key w1 = (Ok key, w1).
Proof.
  intros H. apply get_or_create_key_stable. eapply get_or_create_key_holds, H.
Qed.

(** X13. A placeholder can be decrypted later: in every state that has
    the key file as it was when the placeholder was made, whatever else has
    changed, decrypting gives the token back and changes nothing. *)
Theorem placeholder_outlives (value : string) (w w1 w2 : world) (p : string) :
  encrypt_str value w = (Ok p, w1) ->
  files w2 !! KEY_PATH = files w1 !! KEY_PATH ->
  exists_ (files w2) "data" = true ->
  decrypt_str p w2 = (Ok value, w2).
Proof.
  unfold encrypt_str, get_fernet, mbind, io_bind.
  destruct (get_or_create_key w) as [[key|e] w0] eqn:Hk; [|intros [=]].
  destruct (valid_key key) eqn:Hv; [|intros [=]].
  unfold mret, io_ret, draw. intros [= <- <-]. simpl. intros Hsame Hd.
  apply get_or_create_key_holds in Hk as [Hk _].
  unfold decrypt_str. rewrite starts_with_app, drop_app. cbn [negb].
  unfold get_fernet, mbind, io_bind.
  rewrite (get_or_create_key_stable _ key) by (split; [congruence|exact Hd]).
  rewrite Hv. unfold mret, io_ret.
  rewrite fernet_decrypt_encrypt by exact Hv. reflexivity.
Qed.

(** X14. Encrypting a token, whether it succeeds or fails, touches
    nothing but the key store: the metadata is as it was, every path other
    than the key file and its directory is as it was, and nothing that
    existed, the key file included, is overwritten or removed. *)
Theorem encrypt_str_footprint (value : string) (w w1 : world) r :
  encrypt_str value w = (r, w1) ->
  metadata w1 = metadata w /\
  (forall p, p <> "data/backup_key.key" -> p <> "data" ->
     files w1 !! p = files w !! p) /\
  (forall p n, files w !! p = Some n -> files w1 !! p = Some n).
Proof.
  unfold encrypt_str, get_fernet, mbind, io_bind.
  destruct (get_or_create_key w) as [[key|e] w0] eqn:Hk;
    apply get_or_create_key_footprint in Hk.
  - destruct (valid_key key); unfold mret, io_ret, raise, draw; intros [= _ <-];
      [apply key_store_only_draw|]; exact Hk.
  - intros [= _ <-]. exact Hk.
Qed.

(** X15. Encrypting succeeds exactly when the key store is ready: the
    key file holds a valid key, or it is absent and its directory is not a
    regular file. *)
Theorem encrypt_str_succeeds_iff (value : string) (w : world) :
  (exists p w1, encrypt_str value w = (Ok p, w1)) <->
  key_store_ready (files w) = true.
Proof.
  split.
  - intros (p & w1 & H). revert H. unfold encrypt_str, get_fernet, mbind, io_bind.
    destruct (get_or_create_key w) as [[key|e] w0] eqn:Hk; [|intros [=]].
    destruct (valid_key key) eqn:Hv; [|intros [=]]. intros _.
    eapply get_or_create_key_needs; eassumption.
  - intros Hr. destruct (get_or_create_key_ready w Hr) as (key & w1 & Hk & Hv).
    unfold encrypt_str, get_fernet, mbind, io_bind. rewrite Hk, Hv.
    unfold mret, io_ret, draw. eauto.
Qed.

End CryptoResults.

Lemma key_is_created_once_witness :
  exists key w1,
    get_or_create_key (F := hex_fernet) start = (Ok key, w1) /\
    get_or_create_key (F := hex_fernet) w1 = (Ok key, w1).
Proof.
  destruct (get_or_create_key_ready (F := hex_fernet) start) as (key & w1 & Hk & _);
    [vm_compute; reflexivity|].
  exists key, w1. split; [exact Hk|].
  apply (key_is_created_once (F := hex_fernet) start w1 key Hk).
Defined.

Lemma placeholder_outlives_witness :
  exists p w1,
    encrypt_str (F := hex_fernet) "hunter2" start = (Ok p, w1) /\
    decrypt_str (F := hex_fernet) p
      (World (<["later.txt" := File (Some "new")]> (files w1)) 7 [b1_entry])
    = (Ok "hunter2",
       World (<["later.txt" := File (Some "new")]> (files w1)) 7 [b1_entry]).
Proof.
  destruct (encrypt_str (F := hex_fernet) "hunter2" start) as [[p|e] w1] eqn:E;
    [|vm_compute in E; discriminate].
  exists p, w1. split; [reflexivity|].
  apply (placeholder_outlives (F := hex_fernet) "hunter2" start w1 _ p E).
  - simpl. rewrite lookup_insert_ne by discriminate. reflexivity.
  - vm_compute in E. injection E as _ <-. vm_compute. reflexivity.
Defined.

Lemma encrypt_str_footprint_witness :
  exists r w1,
    encrypt_str (F := hex_fernet) "hunter2" start = (r, w1) /\
    metadata w1 = [] /\
    files w1 !! "docs/notes.txt" = Some (File (Some "hello world")).
Proof.
  destruct (encrypt_str (F := hex_fernet) "hunter2" start) as [r w1] eqn:E.
  exists r, w1. split; [reflexivity|].
  destruct (encrypt_str_footprint (F := hex_fernet) "hunter2" start w1 r E)
    as (Hm & _ & Hkeep).
  split; [exact Hm|]. apply Hkeep. vm_compute. reflexivity.
Defined.

(** ** Listing, fetching and deleting backups *)

Section ManageResults.
Local Open Scope nat_scope.

(** X16. Fetching a backup changes nothing and returns an entry on record
    with the name asked for; it answers 404 exactly when no entry on record
    has that name. *)
Theorem get_backup_finds (name : string) (w : world) :
  (forall e w1, get_backup name w = (Ok e, w1) ->
     w1 = w /\ e ∈ metadata w /\ backupName e = name) /\
  ((forall e, e ∈ metadata w -> backupName e <> name) <->
     get_backup name w = (Err (HTTPException 404 "Backup not found"), w)).
Proof.
  unfold get_backup, mbind, io_bind, mret, io_ret, raise, load_metadata.
  destruct (List.find _ (metadata w)) as [e|] eqn:Hfind.
  - apply find_some in Hfind as [Hin Hn]. apply bool_decide_eq_true in Hn.
    apply list_elem_of_In in Hin.
    split; [intros e' w1 [= <- <-]; auto|].
    split; [|discriminate]. intros H. exfalso. eapply H; eassumption.
  - split; [intros e w1 [=]|]. split; [reflexivity|]. intros _ e He Hn.
    apply list_elem_of_In in He. eapply find_none in Hfind; [|exact He].
    apply bool_decide_eq_false in Hfind. contradiction.
Qed.

(** X17. A backup that was deleted is gone from the record: fetching it
    and deleting it again answer 404, while every other name is fetched as
    before. *)
Theorem deleted_backup_is_gone (name : string) (w w1 : world) (msg : string) :
  delete_backup name w = (Ok msg, w1) ->
  get_backup name w1 = (Err (HTTPException 404 "Backup not found"), w1) /\
  delete_backup name w1 = (Err (HTTPException 404 "Backup not found"), w1) /\
  (forall other, other <> name ->
     fst (get_backup other w1) = fst (get_backup other w)).
Proof.
  intros (e & Hfind & Hmeta & _)%delete_backup_inv.
  split; [|split].
  - unfold get_backup, mbind, io_bind, load_metadata.
    rewrite Hmeta, find_none_filter. reflexivity.
  - unfold delete_backup, mbind, io_bind, load_metadata.
    rewrite Hmeta, find_none_filter. reflexivity.
  - intros other Hne. unfold get_backup, mbind, io_bind, load_metadata.
    rewrite Hmeta, find_other_filter by exact Hne. clear Hfind.
    destruct (List.find _ (metadata w)); reflexivity.
Qed.

(** X18. Deleting a backup removes the directory named by the first
    entry of that name, with everything below it when it was there, and
    leaves every other path as it was, the metadata file apart: that is
    written anew, with the entries of the other names. *)
Theorem delete_backup_removes_the_tree (name : string) (w w1 : world) (msg : string) :
  delete_backup name w = (Ok msg, w1) ->
  exists e,
    List.find (fun e => bool_decide (backupName e = name)) (metadata w) = Some e /\
    files w1 !! backupPath e = None /\
    (exists_ (files w) (backupPath e) = true ->
       forall q, below (backupPath e) q = true -> files w1 !! q = None) /\
    (forall q, q <> backupPath e -> below (backupPath e) q = false ->
       q <> METADATA_FILE -> files w1 !! q = files w !! q) /\
    metadata w1
      = List.filter (fun e => negb (bool_decide (backupName e = name))) (metadata w).
Proof.
  intros (e & Hfind & Hmeta & _ & Hfiles & Hdir)%delete_backup_inv.
  exists e. split; [exact Hfind|].
  cut (files w1 !! backupPath e = None /\
       (exists_ (files w) (backupPath e) = true ->
        forall q, below (backupPath e) q = true -> files w1 !! q = None) /\
       (forall q, q <> backupPath e -> below (backupPath e) q = false ->
          files w1 !! q = files w !! q)).
  { intros (H1 & H2 & H3). split; [exact H1|]. split; [exact H2|].
    split; [|exact Hmeta]. intros q Hq Hb _. apply H3; assumption. }
  rewrite Hfiles.
  destruct (exists_ (files w) (backupPath e)) eqn:He.
  - split; [|split].
    + apply map_lookup_filter_None. right. intros n _ [H _]. apply H. reflexivity.
    + intros _ q Hq. apply map_lookup_filter_None. right. intros n _ [_ H].
      simpl in H. congruence.
    + intros q Hq Hb. destruct (files w !! q) as [n|] eqn:Hn.
      * apply map_lookup_filter_Some. split; [exact Hn|]. simpl. auto.
      * apply map_lookup_filter_None. left. exact Hn.
  - split; [|split].
    + unfold exists_ in He. apply bool_decide_eq_false in He.
      destruct (files w !! backupPath e); [exfalso; eauto|reflexivity].
    + discriminate.
    + reflexivity.
Qed.

(** X19. A deletion that fails changes nothing: neither for an unknown
    name nor when the path on record is not a directory is an entry or a
    file removed. *)
Theorem delete_backup_fails_closed (name : string) (w w1 : world) (e : exn) :
  delete_backup name w = (Err e, w1) -> w1 = w.
Proof.
  unfold delete_backup, mbind, io_bind, load_metadata, save_metadata.
  destruct (List.find _ (metadata w)) as [en|] eqn:Hfind; [|intros [= _ <-]; reflexivity].
  unfold get_files. destruct (exists_ (files w) (backupPath en)) eqn:He.
  - unfold rmtree, mbind, io_bind, get_files, put_files, raise.
    destruct (is_dir (files w) (backupPath en)) eqn:Hd; [intros [=]|].
    intros [= _ <-]. reflexivity.
  - intros [=].
Qed.

End ManageResults.

Lemma deleted_backup_is_gone_witness :
  exists msg w1,
    delete_backup "b1" archive = (Ok msg, w1) /\
    get_backup "b1" w1 = (Err (HTTPException 404 "Backup not found"), w1) /\
    fst (get_backup "b3" w1) = Ok b3_entry.
Proof.
  destruct (delete_backup "b1" archive) as [[msg|e] w1] eqn:E;
    [|vm_compute in E; discriminate].
  exists msg, w1. split; [reflexivity|].
  destruct (deleted_backup_is_gone "b1" archive w1 msg E) as (Hget & _ & Hother).
  split; [exact Hget|]. rewrite Hother by discriminate. reflexivity.
Defined.

Lemma delete_backup_removes_the_tree_witness :
  exists msg w1,
    delete_backup "b1" archive = (Ok msg, w1) /\
    files w1 !! "data/backups/b1" = None /\
    files w1 !! "data/backups/b1/notes.txt" = None /\
    files w1 !! "docs/notes.txt" = Some (File (Some "hello world")).
Proof.
  destruct (delete_backup "b1" archive) as [[msg|e] w1] eqn:E;
    [|vm_compute in E; discriminate].
  exists msg, w1. split; [reflexivity|].
  destruct (delete_backup_removes_the_tree "b1" archive w1 msg E)
    as (e & Hfind & Hgone & Hbelow & Hother & _).
  injection Hfind as <-.
  split; [exact Hgone|]. split.
  - apply Hbelow; vm_compute; reflexivity.
  - rewrite Hother;
      [vm_compute; reflexivity|discriminate|vm_compute; reflexivity|discriminate].
Defined.

Lemma delete_backup_fails_closed_witness :
  delete_backup "b1" broken_archive = (Err OSError, broken_archive).
Proof.
  destruct (delete_backup "b1" broken_archive) as [[msg|e] w1] eqn:E;
    [vm_compute in E; discriminate|].
  rewrite (delete_backup_fails_closed "b1" broken_archive w1 e E).
  vm_compute in E. injection E as <- _. reflexivity.
Defined.

(** ** Creating a backup, and the scan route *)

Section BackupResults.
Context {F : Fernet}.
Variable M : models.
Variable set_order : list string -> list string.
Variable abspath : string -> string.
Variable isoformat_now : nat -> string.
Local Open Scope nat_scope.


(** X21. A backup under a name of one path component, whether it
    succeeds or fails, leaves alone what existed outside its own directory,
    the metadata file apart, which a backup that succeeds writes anew:
    every other path that existed and does not lie below
    [data/backups/<name>] holds what it held, the source files among
    them. *)
Theorem create_backup_keeps_outside payload w r w1 name p n :
  create_backup M set_order abspath isoformat_now payload w = (r, w1) ->
  given payload "backupName" = Some name -> plain_name name = true ->
  files w !! p = Some n -> below ("data/backups/" +:+ name) p = false ->
  p <> METADATA_FILE ->
  files w1 !! p = Some n.
Proof.
  intros H Hname _ Hp Hout _. apply create_backup_run in H
    as [(e & Hr & Hw & _)|(source & name' & Hs & Hn & _ & _ & H)];
    [subst w1; exact Hp|].
  rewrite Hname in Hn. injection Hn as <-.
  set (Q := fun q => below ("data/backups/" +:+ name) q = true).
  assert (HQ : ~ Q p) by (unfold Q; congruence).
  destruct H as [(e & w0 & Hk & Hr & Hw)|(key & w0 & findings & Hk & _ & H)].
  { subst w1. apply (kept_outside_key Q) in Hk. apply Hk; assumption. }
  apply (kept_outside_key Q) in Hk.
  assert (Hloop : forall r' w', backup_loop set_order source (BACKUP_DIR +:+ "/" +:+ name)
            findings (walk_files (files w0) source) 0 0 w0 = (r', w') ->
            files w' !! p = Some n).
  { intros r' w' Hl.
    apply (pres_backup_loop set_order (kept_outside Q) Q) in Hl.
    - apply Hl; [apply Hk; assumption|exact HQ].
    - intros ? ? ? ? ?. assumption.
    - intros ? ? ? A B q m Hq Hnq. apply B; [apply A|]; assumption.
    - intros ? ? ? ? ?. assumption.
    - apply kept_outside_mkdir.
    - intros q data Hq. apply kept_outside_write, Hq.
    - apply kept_outside_key.
    - intros src Hsrc. apply walk_files_below in Hsrc.
      unfold Q. apply (rel_dest_below source (BACKUP_DIR +:+ "/" +:+ name)), Hsrc. }
  destruct H as [(e & Hr & Hl)|(enc & total & w2 & e & Hl & Hr & Hw & _)].
  - eapply Hloop, Hl.
  - subst w1. simpl. eapply Hloop, Hl.
Qed.

(** X22. After a backup the list of backups is the former list with the
    new entry at its end, and the entry is what fetching its name returns,
    provided no entry of that name was on record before. *)
Theorem created_backup_is_listed payload w e w1 :
  create_backup M set_order abspath isoformat_now payload w = (Ok e, w1) ->
  list_backups w1 = (Ok (metadata w ++ [e]), w1) /\
  ((forall e0, e0 ∈ metadata w -> backupName e0 <> backupName e) ->
   get_backup (backupName e) w1 = (Ok e, w1)).
Proof.
  intros H. apply create_backup_appends in H as Hm.
  unfold list_backups, get_backup, mbind, io_bind, load_metadata. rewrite Hm.
  split; [reflexivity|]. intros Hfresh.
  assert (Hfind : forall l, (forall e0, e0 ∈ l -> backupName e0 <> backupName e) ->
    List.find (fun e0 => bool_decide (backupName e0 = backupName e)) (l ++ [e]) = Some e).
  { induction l as [|x l IH]; intros Hl; simpl.
    - rewrite bool_decide_eq_true_2 by reflexivity. reflexivity.
    - rewrite bool_decide_eq_false_2 by (apply Hl; left).
      apply IH. intros e0 He0. apply Hl. right. exact He0. }
  rewrite Hfind by exact Hfresh. reflexivity.
Qed.

(** X23. A backup under a name of one path component that succeeds
    holds a copy as it is of every readable file below the source directory
    whose finding is not Medium or High (or that has none), at the same
    relative path, when no path below the source lies below the backup
    directory. *)
Theorem backup_copies_verbatim payload w e w1 source name src data :
  create_backup M set_order abspath isoformat_now payload w = (Ok e, w1) ->
  given payload "sourcePath" = Some source ->
  given payload "backupName" = Some name -> plain_name name = true ->
  is_dir (files w) source = true ->
  (forall p, below source p = true -> below ("data/backups/" +:+ name) p = false) ->
  files w !! src = Some (File (Some data)) -> below source src = true ->
  (forall f, scan_file M (files w) src = Ok (Some f) ->
     risk_label_of f ∉ ["Medium"; "High"]) ->
  files w1 !! ("data/backups/" +:+ name +:+ Str.drop (Str.length source) src)
    = Some (File (Some data)).
Proof.
  intros H Hs Hn _ Hdir Hdisj Hsrc Hbelow Hlow.
  apply create_backup_run in H
    as [(e0 & [=] & _)|(source' & name' & Hs' & Hn' & _ & _ & H)].
  rewrite Hs in Hs'. rewrite Hn in Hn'. injection Hs' as <-. injection Hn' as <-.
  destruct H as [(e0 & w0 & _ & [=] & _)|(key & w0 & findings & Hk & Hscan & H)].
  destruct H as [(e0 & [=] & _)|(enc & total & w2 & e' & Hl & _ & -> & _)].
  apply get_or_create_key_footprint in Hk as (_ & _ & Hkeep).
  assert (Hsrc0 : files w0 !! src = Some (File (Some data))) by (apply Hkeep, Hsrc).
  assert (Hdir0 : is_dir (files w0) source = true).
  { unfold is_dir in *. destruct (files w !! source) as [[]|] eqn:E; try discriminate.
    rewrite (Hkeep _ _ E). reflexivity. }
  simpl. change ("data/backups/" +:+ name) with (BACKUP_DIR +:+ "/" +:+ name).
  rewrite <- app_assoc.
  change ((BACKUP_DIR +:+ "/" +:+ name) +:+ Str.drop (Str.length source) src)
    with (rel_dest source (BACKUP_DIR +:+ "/" +:+ name) src).
  eapply backup_loop_copy; [apply walk_files_NoDup| |exact Hl| |exact Hsrc0|].
  - intros s Hs0. apply walk_files_below in Hs0. split; [exact Hs0|apply Hdisj, Hs0].
  - unfold walk_files, rglob. rewrite Hdir0.
    apply list_elem_of_In, filter_In. split.
    + apply filter_In. split; [|exact Hbelow].
      apply list_elem_of_In, list_elem_of_fmap. exists (src, File (Some data)).
      split; [reflexivity|]. apply elem_of_map_to_list, Hsrc0.
    + unfold is_file. rewrite Hsrc0. reflexivity.
  - intros f Hf. apply Hlow.
    rewrite (scan_directory_lookup _ _ _ _ _ Hscan) in Hf.
    case_decide; [|discriminate]. apply stored_Some in Hf as [_ Hf].
    rewrite <- Hf. symmetry. apply scan_file_same. congruence.
Qed.


(** X25. The scan route changes nothing.  In its response the number of
    matching files is the number of findings and never exceeds the number
    of files scanned, and every finding is the scan result of a regular
    file below the root. *)
Theorem scan_endpoint_counts payload w r w1 :
  scan_endpoint M abspath payload w = (r, w1) ->
  w1 = w /\
  forall resp, r = Ok resp ->
    matching_files_count resp <= total_files_scanned resp /\
    matching_files_count resp = size (findings_of resp) /\
    forall p f, findings_of resp !! p = Some f ->
      is_file (files w) p = true /\ scan_file M (files w) p = Ok (Some f) /\
      exists root, given payload "rootPath" = Some root /\ below root p = true.
Proof.
  unfold scan_endpoint. destruct (given payload "rootPath") as [root|];
    [|intros [= <- <-]; split; [reflexivity|discriminate]].
  unfold mbind, io_bind, get_files, lift, mret, io_ret, raise.
  destruct (exists_ (files w) root); simpl;
    [|intros [= <- <-]; split; [reflexivity|discriminate]].
  destruct (scan_directory M (files w) root) as [findings|e] eqn:Hscan;
    intros [= <- <-]; (split; [reflexivity|]); [|discriminate].
  intros resp [= <-]. simpl. split; [eapply scan_directory_size, Hscan|].
  split; [reflexivity|]. intros p f Hp.
  rewrite (scan_directory_lookup _ _ _ _ _ Hscan) in Hp.
  case_decide as Hin; [|discriminate]. apply stored_Some in Hp as [Hf Hs].
  split; [exact Hf|]. split; [exact Hs|]. exists root. split; [reflexivity|].
  eapply rglob_below, Hin.
Qed.

End BackupResults.


Lemma create_backup_keeps_outside_witness :
  exists r w1,
    create_backup (F := hex_fernet) no_models remove_dups abspath isoformat_now
      docs_b2 backed_up = (r, w1) /\
    files w1 !! "docs/sub/id.txt"
      = Some (File (Some "aadhaar 123456789012 password: hunter2")).
Proof.
  destruct (create_backup (F := hex_fernet) no_models remove_dups abspath
              isoformat_now docs_b2 backed_up) as [r w1] eqn:E.
  exists r, w1. split; [reflexivity|].
  apply (create_backup_keeps_outside (F := hex_fernet) no_models remove_dups abspath
           isoformat_now docs_b2 backed_up r w1 "b2" _ _ E).
  - vm_compute. reflexivity.
  - vm_compute. reflexivity.
  - vm_compute. reflexivity.
  - vm_compute. reflexivity.
  - discriminate.
Defined.

Lemma created_backup_is_listed_witness :
  exists e w1,
    create_backup (F := hex_fernet) no_models remove_dups abspath isoformat_now
      docs_b2 backed_up = (Ok e, w1) /\
    list_backups w1 = (Ok [e], w1) /\
    get_backup (backupName e) w1 = (Ok e, w1).
Proof.
  destruct (create_backup (F := hex_fernet) no_models remove_dups abspath
              isoformat_now docs_b2 backed_up) as [[e|ex] w1] eqn:E;
    [|vm_compute in E; discriminate].
  exists e, w1. split; [reflexivity|].
  destruct (created_backup_is_listed (F := hex_fernet) no_models remove_dups abspath
              isoformat_now docs_b2 backed_up e w1 E) as [Hlist Hget].
  split; [exact Hlist|]. apply Hget. intros e0 He0. inversion He0.
Defined.

Lemma backup_copies_verbatim_witness :
  exists e w1,
    create_backup (F := hex_fernet) no_models remove_dups abspath isoformat_now
      docs_b2 backed_up = (Ok e, w1) /\
    files w1 !! "data/backups/b2/notes.txt" = Some (File (Some "hello world")).
Proof.
  destruct (create_backup (F := hex_fernet) no_models remove_dups abspath
              isoformat_now docs_b2 backed_up) as [[e|ex] w1] eqn:E;
    [|vm_compute in E; discriminate].
  exists e, w1. split; [reflexivity|].
  apply (backup_copies_verbatim (F := hex_fernet) no_models remove_dups abspath
           isoformat_now docs_b2 backed_up e w1 "docs" "b2" "docs/notes.txt"
           "hello world" E).
  - vm_compute. reflexivity.
  - vm_compute. reflexivity.
  - vm_compute. reflexivity.
  - vm_compute. reflexivity.
  - intros p Hp. unfold below in *. apply starts_with_split in Hp.
    rewrite Hp. reflexivity.
  - vm_compute. reflexivity.
  - vm_compute. reflexivity.
  - intros f Hf. vm_compute in Hf. injection Hf as <-. simpl.
    intros H. repeat (apply elem_of_cons in H as [H|H]; [discriminate H|]).
    inversion H.
Defined.


Lemma scan_endpoint_counts_witness :
  exists resp,
    scan_endpoint no_models abspath {[ "rootPath" := "docs" ]} start
      = (Ok resp, start) /\
    (matching_files_count resp <= total_files_scanned resp)%nat.
Proof.
  destruct (scan_endpoint no_models abspath {[ "rootPath" := "docs" ]} start)
    as [[resp|ex] w1] eqn:E; [|vm_compute in E; discriminate].
  destruct (scan_endpoint_counts no_models abspath {[ "rootPath" := "docs" ]} start
              (Ok resp) w1 E) as [-> H].
  exists resp. split; [reflexivity|]. apply (H resp eq_refl).
Defined.

(** ** The export route *)

Import ExportRoute ExportFacts.

Section ExportResults.
Local Open Scope nat_scope.

(** X26. The CSV export of a scan response never fails: for a format
    name that is csv in any letter case and a response whose findings are
    scan results, the route returns the header row followed by the rows of
    the findings in their order, one row for each detector type with hits
    and a single row for a finding without hits; every row has seven cells
    and starts with the path of its file. *)
Theorem export_csv_of_a_scan M fs (format : string) (scanned total : json)
    (l : list (string * finding)) :
  Str.lower format = "csv" ->
  (forall p f, (p, f) ∈ l -> scan_file M fs p = Ok (Some f)) ->
  exists rows,
    export_endpoint [("format", JStr format);
                     ("data", response_json scanned total l)]
      = Returned (Download "text/csv" "scan_report.csv" (CsvRows (header :: rows))) /\
    rows = concat ((fun pf => rows_for pf.1 pf.2) <$> l) /\
    length rows = sum_list ((fun pf => rows_due pf.2) <$> l) /\
    Forall (fun row => length row = 7) rows /\
    forall p f, (p, f) ∈ l ->
      exists row, row ∈ rows /\ row !! 0 = Some (JStr p).
Proof.
  intros Hfmt Hscan. exists (concat ((fun pf => rows_for pf.1 pf.2) <$> l)).
  split; [|split; [reflexivity|split; [|split]]].
  - unfold export_endpoint.
    cbn [get lookup_key List.find fst snd mbind outcome_bind fmap option_fmap option_map].
    rewrite (bool_decide_eq_true_2 ("format" = "format")) by reflexivity.
    cbn [fmap option_fmap option_map snd mbind outcome_bind truthy].
    assert (Hne : format <> EmptyString) by (intros ->; discriminate Hfmt).
    rewrite (bool_decide_eq_false_2 (format = EmptyString)) by exact Hne.
    cbn [negb lower mbind outcome_bind]. rewrite Hfmt.
    rewrite (bool_decide_eq_false_2 ("format" = "data")) by discriminate.
    rewrite (bool_decide_eq_true_2 ("data" = "data")) by reflexivity.
    cbn [fmap option_fmap option_map snd mbind outcome_bind].
    unfold response_json.
    cbn [truthy negb bool_decide decide_rel get lookup_key List.find fst snd].
    rewrite (bool_decide_eq_false_2 (_ = [])) by discriminate. cbn [negb].
    rewrite (bool_decide_eq_false_2 ("csv" = "json")) by discriminate.
    rewrite (bool_decide_eq_true_2 ("csv" = "csv")) by reflexivity.
    repeat (rewrite ?bool_decide_eq_false_2 by discriminate;
            rewrite ?bool_decide_eq_true_2 by reflexivity;
            cbn [fmap option_fmap option_map snd mbind outcome_bind items]).
    match goal with
    | |- context [lookup_key ?o "findings"] =>
        replace (lookup_key o "findings")
          with (Some (JObj (prod_map id finding_json <$> l))) by reflexivity
    end.
    cbn [items mbind outcome_bind].
    rewrite (for_each_fmap _ _ (fun pf => rows_for pf.1 pf.2)); [reflexivity|].
    intros [p f] _. apply rows_of_finding.
  - induction l as [|[p f] l IH]; [reflexivity|].
    cbn [fmap list_fmap concat sum_list_with sum_list fst snd].
    rewrite List.length_app.
    change (list_fmap _ _ ?g l) with (g <$> l) in *.
    rewrite IH by (intros q g Hq; apply (Hscan q g); right; exact Hq).
    f_equal. destruct (rows_for_spec p f) as [-> _]. unfold rows_due.
    rewrite (hit_pairs_length (hits f)); [reflexivity|].
    eapply scan_hit_keys, (Hscan p f). left.
  - apply Forall_forall. intros row Hrow.
    apply list_elem_of_In, in_concat in Hrow as (rs & Hrs & Hrow).
    apply list_elem_of_In in Hrs, Hrow.
    apply list_elem_of_fmap in Hrs as ([p f] & -> & _).
    apply (rows_for_spec p f), Hrow.
  - intros p f Hin. destruct (rows_for_spec p f) as [Hlen Hrows].
    destruct (rows_for p f) as [|row rs] eqn:E; [simpl in Hlen; lia|].
    exists row. split; [|apply Hrows; left].
    apply list_elem_of_In, in_concat. exists (rows_for p f). split.
    + apply list_elem_of_In, list_elem_of_fmap. exists (p, f).
      split; [reflexivity|exact Hin].
    + rewrite E. left. reflexivity.
Qed.

End ExportResults.

Lemma export_csv_of_a_scan_witness :
  exists rows,
    export_endpoint
      [("format", JStr "CSV");
       ("data", response_json (JStr "/srv/docs") (JNum 5)
                  [("docs/card.txt", card_finding);
                   ("docs/notes.txt", finding_at "docs/notes.txt")])]
    = Returned (Download "text/csv" "scan_report.csv" (CsvRows (header :: rows))) /\
    length rows = 3%nat.
Proof.
  destruct (export_csv_of_a_scan no_models tree "CSV" (JStr "/srv/docs") (JNum 5)
              [("docs/card.txt", card_finding);
               ("docs/notes.txt", finding_at "docs/notes.txt")])
    as (rows & Hrun & _ & Hlen & _).
  - reflexivity.
  - intros p f Hin.
    repeat (apply elem_of_cons in Hin as [Hin|Hin];
            [injection Hin as -> ->; vm_compute; reflexivity|]).
    inversion Hin.
  - exists rows. split; [exact Hrun|]. rewrite Hlen. vm_compute. reflexivity.
Defined.

(** ** More on scanning and copying *)

Section MoreResults.
Context {F : Fernet}.
Variable M : models.
Local Open Scope nat_scope.

(** X27. Scanning a directory inside a scanned directory gives the same
    findings for the paths below it: the scan of the inner directory is the
    scan of the outer one restricted to the inner directory. *)
Theorem scan_directory_of_a_subdirectory fs root sub outer inner :
  is_dir fs root = true -> is_dir fs sub = true -> below root sub = true ->
  scan_directory M fs root = Ok outer -> scan_directory M fs sub = Ok inner ->
  forall p, inner !! p = if below sub p then outer !! p else None.
Proof.
  intros Hroot Hsub Hbelow Houter Hinner p.
  rewrite (scan_directory_lookup _ _ _ _ _ Houter), (scan_directory_lookup _ _ _ _ _ Hinner).
  assert (Hin : forall d, is_dir fs d = true ->
            (p ∈ rglob fs d <-> is_Some (fs !! p) /\ below d p = true)).
  { intros d Hd. unfold rglob. rewrite Hd, list_elem_of_In, filter_In, <- list_elem_of_In.
    rewrite list_elem_of_fmap. split.
    - intros [([q n] & -> & Hq%elem_of_map_to_list) Hb]. simpl in *. eauto.
    - intros [[n Hn] Hb]. split; [|exact Hb]. exists (p, n).
      split; [reflexivity|]. apply elem_of_map_to_list, Hn. }
  destruct (below sub p) eqn:Hp.
  - assert (Hrp : below root p = true).
    { unfold below in *. apply starts_with_split in Hbelow, Hp.
      set (y := Str.drop _ sub) in Hbelow. set (x := Str.drop _ p) in Hp.
      clearbody x y. subst p sub.
      rewrite (app_assoc (root +:+ "/") y "/"), (app_assoc (root +:+ "/")).
      apply starts_with_app. }
    destruct (decide (p ∈ rglob fs sub)) as [H1|H1];
      destruct (decide (p ∈ rglob fs root)) as [H2|H2]; try reflexivity.
    + exfalso. apply H2, (Hin root Hroot). apply (Hin sub Hsub) in H1. tauto.
    + exfalso. apply H1, (Hin sub Hsub). apply (Hin root Hroot) in H2. tauto.
  - rewrite decide_False; [reflexivity|]. intros H1. apply (Hin sub Hsub) in H1.
    destruct H1 as [_ H1]. congruence.
Qed.

(** X28. The text test of the backup never raises and changes nothing.
    It answers no for a path that cannot be read and for a file with a NUL
    byte among its first 2048 bytes, and yes for a file whose first 2048
    bytes are ASCII without a NUL byte. *)
Theorem is_text_file_answers (path : string) (w : world) :
  exists b, _is_text_file path w = (Ok b, w) /\
    (read_bytes (files w) path = Err OSError -> b = false) /\
    (forall data, read_bytes (files w) path = Ok data ->
       (Str.contains (String "000" EmptyString) (Str.take 2048 data) = true ->
        b = false) /\
       (all_chars (fun a => Chr.between 1 127 a) (Str.take 2048 data) = true ->
        b = true)).
Proof.
  assert (Hread : Fs.read path w = (read_bytes (files w) path, w)) by reflexivity.
  unfold _is_text_file, try_except. unfold mbind at 1, io_bind at 1. rewrite Hread.
  destruct (read_bytes (files w) path) as [data|e] eqn:Hr.
  - set (chunk := Str.take 2048 data). unfold mret, io_ret, raise.
    destruct (Str.contains (String "000" EmptyString) chunk) eqn:Hnul.
    + exists false. split; [reflexivity|]. split; [discriminate|].
      intros d [= <-]. fold chunk. rewrite Hnul. split; [reflexivity|].
      intros Hascii. exfalso. clear -Hnul Hascii.
      induction chunk as [|a s IH]; [discriminate|].
      cbn [Str.contains Str.starts_with] in Hnul. cbn [all_chars] in Hascii.
      apply andb_true_iff in Hascii as [Ha Hs].
      destruct (Ascii.eqb_spec "000"%char a) as [<-|Hne];
        [vm_compute in Ha; discriminate Ha|].
      cbn [andb orb] in Hnul. auto.
    + destruct (bool_decide (decode_ignore chunk = chunk)) eqn:Hd.
      * exists true. split; [reflexivity|]. split; [discriminate|].
        intros d [= <-]. fold chunk. rewrite Hnul. split; [discriminate|reflexivity].
      * exists false. split; [reflexivity|]. split; [discriminate|].
        intros d [= <-]. fold chunk. rewrite Hnul. split; [discriminate|].
        intros Hascii. exfalso. apply bool_decide_eq_false in Hd. apply Hd.
        unfold decode_ignore. apply filter_all.
        eapply all_chars_mono; [|exact Hascii].
        intros a. unfold Chr.between. intros [H1 H2]%andb_true_iff.
        rewrite H2, andb_true_r. apply N.leb_le. lia.
  - exists false. split; [reflexivity|]. split; [reflexivity|]. intros d [=].
Qed.

End MoreResults.

Lemma scan_directory_of_a_subdirectory_witness :
  exists outer inner,
    scan_directory no_models tree "docs" = Ok outer /\
    scan_directory no_models tree "docs/sub" = Ok inner /\
    inner !! "docs/sub/id.txt" = outer !! "docs/sub/id.txt" /\
    inner !! "docs/card.txt" = None.
Proof.
  destruct (scan_directory no_models tree "docs") as [outer|ex] eqn:Ho;
    [|vm_compute in Ho; discriminate].
  destruct (scan_directory no_models tree "docs/sub") as [inner|ex] eqn:Hi;
    [|vm_compute in Hi; discriminate].
  exists outer, inner. split; [reflexivity|]. split; [reflexivity|].
  assert (Hd : is_dir tree "docs" = true) by (vm_compute; reflexivity).
  assert (Hs : is_dir tree "docs/sub" = true) by (vm_compute; reflexivity).
  assert (Hb : below "docs" "docs/sub" = true) by (vm_compute; reflexivity).
  pose proof (scan_directory_of_a_subdirectory no_models tree "docs" "docs/sub"
                outer inner Hd Hs Hb Ho Hi) as H.
  split; [exact (H "docs/sub/id.txt")|exact (H "docs/card.txt")].
Defined.

(** ** A backup that cannot read a file *)

Section AbortResults.
Import AbortFacts.
Context {F : Fernet}.
Variable M : models.
Variable set_order : list string -> list string.
Variable abspath : string -> string.
Variable isoformat_now : nat -> string.
Local Open Scope nat_scope.


End AbortResults.

